(** * Image-classification training pipeline: model wrappers and training driver

  A shallow embedding of [model.py] (the pretrained-backbone wrappers) and
  of [train.py] (path bookkeeping, the training and validation loops, the
  checkpoint policy), together with the properties stated about them.

  Python exceptions are values of [exn] ([ReError] is [re.error]); a
  computation that may raise returns a [result].  A Python [str] is
  represented by its code points, all below 256, which is what a [string]
  can hold: among these the decimal digits are ["0"] to ["9"] only.  The
  numeric framework (tensors, the network's forward pass, the loss
  criterion, the model zoo) and the pattern languages of [glob] and [re]
  are external to the repository and enter as parameters. *)

From stdpp Require Import gmap strings list fin_maps pretty.
From Stdlib Require Import Ascii ZArith QArith Lia.

Local Open Scope Z_scope.
Local Open Scope string_scope.
Local Open Scope list_scope.

(** ** Exceptions and results *)

Inductive exn :=
| AssertionError
| AttributeError
| IndexError
| KeyError
| ReError
| RuntimeError
| TypeError
| UnboundLocalError
| ValueError
| ZeroDivisionError.

Inductive result (A : Type) :=
| Ok (a : A)
| Err (e : exn).
Arguments Ok {A} a.
Arguments Err {A} e.

Definition rbind {A B} (r : result A) (k : A -> result B) : result B :=
  match r with
  | Ok a => k a
  | Err e => Err e
  end.

Definition is_ok {A} (r : result A) : bool :=
  match r with Ok _ => true | Err _ => false end.

#[global] Instance result_ret : MRet result := fun A a => Ok a.
#[global] Instance result_bind : MBind result := fun A B k r => rbind r k.
#[global] Instance result_fmap : FMap result :=
  fun A B f r => rbind r (fun a => Ok (f a)).

(** ** model.py: wrappers around pretrained backbones *)

Module Model.

(** The contents of a parameter tensor are opaque: either loaded by the
  model zoo (identified by a handle) or freshly initialised. *)
Inductive storage :=
  | Loaded (handle : N)
  | Fresh.

(** [torch.nn.Parameter]: a tensor and its [requires_grad] flag. *)
Record parameter := mk_parameter {
  shape : list nat;
  data : storage;
  requires_grad : bool
  }.

Inductive layer_kind :=
  | Linear (in_features out_features : nat)
  | Conv2d (in_channels out_channels : nat) (kernel_size stride : nat * nat)
  | Other (class_name : string).

(** A leaf module with its named parameters. *)
Record layer := Layer {
  kind : layer_kind;
  lparams : list (string * parameter)
  }.

(** A torchvision network: leaf modules by dotted name ("fc",
  "classifier.6", ...) and the [num_classes] attribute. *)
Record net := Net {
  layers : gmap string layer;
  attr_num_classes : nat
  }.

(** [nn.Linear(in_features, out_features)]: fresh weight and bias, both
  created with [requires_grad = True]. *)
Definition nn_Linear (in_features out_features : nat) : layer :=
  Layer (Linear in_features out_features)
      [("weight", mk_parameter [out_features; in_features] Fresh true);
       ("bias", mk_parameter [out_features] Fresh true)].

(** [nn.Conv2d(in, out, kernel_size, stride)]. *)
Definition nn_Conv2d (in_channels out_channels : nat)
  (kernel_size stride : nat * nat) : layer :=
  Layer (Conv2d in_channels out_channels kernel_size stride)
      [("weight", mk_parameter [out_channels; in_channels;
                             fst kernel_size; snd kernel_size] Fresh true);
       ("bias", mk_parameter [out_channels] Fresh true)].

Definition freeze_parameter (p : parameter) : parameter :=
  mk_parameter (shape p) (data p) false.

Definition freeze_layer (l : layer) : layer :=
  Layer (kind l) (prod_map id freeze_parameter <$> lparams l).

(** [PytorchModel.set_parameter_requires_grad]:
  [if feature_extracting: for param in model.parameters():
     param.requires_grad = False]. *)
Definition set_parameter_requires_grad (model : net)
  (feature_extracting : bool) : net :=
  if feature_extracting
  then Net (freeze_layer <$> layers model) (attr_num_classes model)
  else model.

(** Reading [module.in_features]: defined on [nn.Linear] only. *)
Definition in_features_of (l : layer) : result nat :=
  match kind l with
  | Linear i _ => Ok i
  | _ => Err AttributeError
  end.

(** Reading a submodule that is an attribute, as [model.fc]. *)
Definition get_module (model : net) (name : string) : result layer :=
  match layers model !! name with
  | Some l => Ok l
  | None => Err AttributeError
  end.

(** Reading an item of a [Sequential] by index, as [model.classifier[6]]:
    a missing index is an [IndexError]. *)
Definition get_item (model : net) (name : string) : result layer :=
  match layers model !! name with
  | Some l => Ok l
  | None => Err IndexError
  end.

(** Assigning a submodule: [model.fc = l] or [model.classifier[6] = l]. *)
Definition set_module (model : net) (name : string) (l : layer) : net :=
  Net (<[name := l]> (layers model)) (attr_num_classes model).

(** The wrapper object built by each subclass of [PytorchModel]. *)
Record wrapper := Wrapper {
  num_classes : nat;
  feature_extract : bool;
  use_pretrained : bool;
  model_ft : net;
  input_size : nat
  }.

Inductive arch :=
  | resnet18 | resnet50 | alexnet | vgg11_bn | squeezenet1_0 | densenet121.

Section Wrappers.
(** [torchvision.models.<arch>(pretrained=...)]. *)
Variable models : arch -> bool -> net.

Definition Resnet18 (num_classes : nat)
    (feature_extract use_pretrained : bool) : result wrapper :=
  let model_ft := models resnet18 use_pretrained in
  let model_ft := set_parameter_requires_grad model_ft feature_extract in
  fc ← get_module model_ft "fc";
  num_ftrs ← in_features_of fc;
  let model_ft := set_module model_ft "fc" (nn_Linear num_ftrs num_classes) in
  Ok (Wrapper num_classes feature_extract use_pretrained model_ft 224).

Definition Resnet50 (num_classes : nat)
    (feature_extract use_pretrained : bool) : result wrapper :=
  let model_ft := models resnet50 use_pretrained in
  let model_ft := set_parameter_requires_grad model_ft feature_extract in
  fc ← get_module model_ft "fc";
  num_ftrs ← in_features_of fc;
  let model_ft := set_module model_ft "fc" (nn_Linear num_ftrs num_classes) in
  Ok (Wrapper num_classes feature_extract use_pretrained model_ft 224).

Definition Alexnet (num_classes : nat)
    (feature_extract use_pretrained : bool) : result wrapper :=
  let model_ft := models alexnet use_pretrained in
  let model_ft := set_parameter_requires_grad model_ft feature_extract in
  c6 ← get_item model_ft "classifier.6";
  num_ftrs ← in_features_of c6;
  let model_ft :=
     set_module model_ft "classifier.6" (nn_Linear num_ftrs num_classes) in
  Ok (Wrapper num_classes feature_extract use_pretrained model_ft 224).

Definition VGG11bn (num_classes : nat)
    (feature_extract use_pretrained : bool) : result wrapper :=
  let model_ft := models vgg11_bn use_pretrained in
  let model_ft := set_parameter_requires_grad model_ft feature_extract in
  c6 ← get_item model_ft "classifier.6";
  num_ftrs ← in_features_of c6;
  let model_ft :=
     set_module model_ft "classifier.6" (nn_Linear num_ftrs num_classes) in
  Ok (Wrapper num_classes feature_extract use_pretrained model_ft 224).

(** [classifier[1] = nn.Conv2d(512, num_classes, (1, 1), (1, 1))]: item
    assignment on a [Sequential] needs the index to exist; the wrapper
    also sets [model_ft.num_classes]. *)
Definition Squeezenet (num_classes : nat)
    (feature_extract use_pretrained : bool) : result wrapper :=
  let model_ft := models squeezenet1_0 use_pretrained in
  let model_ft := set_parameter_requires_grad model_ft feature_extract in
  _ ← match layers model_ft !! "classifier.1" with
        | Some l => Ok l
        | None => Err IndexError
        end;
  let model_ft :=
     set_module model_ft "classifier.1"
                (nn_Conv2d 512 num_classes (1, 1)%nat (1, 1)%nat) in
  let model_ft := Net (layers model_ft) num_classes in
  Ok (Wrapper num_classes feature_extract use_pretrained model_ft 224).

Definition Densenet121 (num_classes : nat)
    (feature_extract use_pretrained : bool) : result wrapper :=
  let model_ft := models densenet121 use_pretrained in
  let model_ft := set_parameter_requires_grad model_ft feature_extract in
  c ← get_module model_ft "classifier";
  num_ftrs ← in_features_of c;
  let model_ft :=
     set_module model_ft "classifier" (nn_Linear num_ftrs num_classes) in
  Ok (Wrapper num_classes feature_extract use_pretrained model_ft 224).

(** The six wrapper classes, by backbone. *)
Definition construct (a : arch) : nat -> bool -> bool -> result wrapper :=
  match a with
  | resnet18 => Resnet18
  | resnet50 => Resnet50
  | alexnet => Alexnet
  | vgg11_bn => VGG11bn
  | squeezenet1_0 => Squeezenet
  | densenet121 => Densenet121
  end.
End Wrappers.

(** Name of the classifier layer that each wrapper replaces. *)
Definition head_name (a : arch) : string :=
  match a with
  | resnet18 | resnet50 => "fc"
  | alexnet | vgg11_bn => "classifier.6"
  | squeezenet1_0 => "classifier.1"
  | densenet121 => "classifier"
  end.

(** Output dimension of a layer, when it has one. *)
Definition out_dim (l : layer) : option nat :=
  match kind l with
  | Linear _ o => Some o
  | Conv2d _ o _ _ => Some o
  | Other _ => None
  end.

(** A parameter of a network: the layer it lives in and its own name. *)
Definition has_param (m : net) (lname pname : string) (p : parameter) : Prop :=
  exists l, layers m !! lname = Some l /\ (pname, p) ∈ lparams l.

(** Everything about a parameter except its [requires_grad] flag. *)
Definition same_tensor (p q : parameter) : Prop :=
  shape p = shape q /\ data p = data q.

(** [l'] is [l] with every parameter frozen and nothing else changed: the
    same kind of layer, and the same parameters by name, shape and contents
    in the same order. *)
Definition frozen_copy (l l' : layer) : Prop :=
  kind l' = kind l /\
  Forall2 (fun p q => fst q = fst p /\ same_tensor (snd p) (snd q) /\
                      requires_grad (snd q) = false)
          (lparams l) (lparams l').

(** A small model zoo: one convolution whose parameters are trainable as
    loaded, and the original 1000-class head under the name each backbone
    uses. *)
Definition demo_zoo (a : arch) (pretrained : bool) : net :=
  let body :=
    Layer (Conv2d 3 64 (7, 7)%nat (2, 2)%nat)
          [("weight", mk_parameter [64; 3; 7; 7]%nat (Loaded 1) true);
           ("bias", mk_parameter [64]%nat (Loaded 2) true)] in
  let head :=
    match a with
    | squeezenet1_0 =>
        Layer (Conv2d 512 1000 (1, 1)%nat (1, 1)%nat)
              [("weight", mk_parameter [1000; 512; 1; 1]%nat (Loaded 3) true);
               ("bias", mk_parameter [1000]%nat (Loaded 4) true)]
    | _ =>
        Layer (Linear 512 1000)
              [("weight", mk_parameter [1000; 512]%nat (Loaded 3) true);
               ("bias", mk_parameter [1000]%nat (Loaded 4) true)]
    end in
  Net (<[head_name a := head]> {["features.0" := body]}) 1000.

End Model.

(** ** train.py: path bookkeeping *)

Module Paths.

(** The file system as seen by [train.py]: the path strings that exist,
    each written the way [str(Path(...))] writes it. *)
Definition filesystem := list string.

Definition sep : ascii := "/"%char.

Definition ends_with (c : ascii) (s : string) : bool :=
  match String.rev s with
  | String a _ => Ascii.eqb a c
  | EmptyString => false
  end.

(** [posixpath.join(a, *p)]: a component starting with the separator
    discards what came before it. *)
Fixpoint os_path_join (a : string) (p : list string) : string :=
  match p with
  | [] => a
  | b :: p' =>
      let path :=
        if String.prefix "/" b then b
        else if (String.eqb a "" || ends_with sep a)%bool then a +:+ b
        else a +:+ "/" +:+ b in
      os_path_join path p'
  end.

Fixpoint split_on (c : ascii) (s : string) : list string :=
  match s with
  | EmptyString => [""]
  | String a s' =>
      if Ascii.eqb a c then "" :: split_on c s'
      else match split_on c s' with
           | w :: ws => String a w :: ws
           | [] => [String a ""]
           end
  end.

Fixpoint join_with (c : string) (parts : list string) : string :=
  match parts with
  | [] => ""
  | [x] => x
  | x :: rest => x +:+ c +:+ join_with c rest
  end.

(** [pathlib.PurePosixPath] parsing: the root (exactly two leading slashes
    are kept, any other number collapses to one) and the parts, with empty
    and "." components dropped. *)
Record path := Path_ {
  root : string;
  parts : list string
}.

Definition Path (s : string) : path :=
  let root :=
    if String.prefix "/" s then
      if (String.prefix "//" s && negb (String.prefix "///" s))%bool
      then "//" else "/"
    else "" in
  Path_ root
        (List.filter (fun x => negb (String.eqb x "" || String.eqb x "."))
                (split_on sep s)).

(** [str(path)]. *)
Definition str (p : path) : string :=
  match root p, parts p with
  | EmptyString, [] => "."
  | r, ps => r +:+ join_with "/" ps
  end.

(** [path.name]: the final component. *)
Definition name (p : path) : string := List.last (parts p) "".

(** [s.rfind(".")], counted from the end: the number of characters after
    the last dot. *)
Fixpoint chars_after_last_dot (rev_name : string) : option nat :=
  match rev_name with
  | EmptyString => None
  | String a r =>
      if Ascii.eqb a "."%char then Some O
      else S <$> chars_after_last_dot r
  end.

(** [path.stem]: the name without its last suffix; the suffix starts at the
    last dot [i] when [0 < i < len(name) - 1]. *)
Definition stem (p : path) : string :=
  let nm := name p in
  let len := String.length nm in
  match chars_after_last_dot (String.rev nm) with
  | Some j =>
      let i := (len - 1 - j)%nat in
      if ((0 <? i)%nat && (i <? len - 1)%nat)%bool
      then String.substring 0 i nm else nm
  | None => nm
  end.

(** [path.exists()]. *)
Definition exists_ (fs : filesystem) (p : path) : bool :=
  bool_decide (str p ∈ fs).

Fixpoint has_sep (s : string) : bool :=
  match s with
  | EmptyString => false
  | String a s' => (Ascii.eqb a sep || has_sep s')%bool
  end.

Fixpoint strip_prefix (p s : string) : option string :=
  match p, s with
  | EmptyString, _ => Some s
  | String a p', String b s' =>
      if Ascii.eqb a b then strip_prefix p' s' else None
  | String _ _, EmptyString => None
  end.

(** What [glob.glob(f"{path}*")] lists for a path that has a name and no
    glob wildcard in it: the existing entries that extend the path string
    inside its last component. *)
Definition glob_star (fs : filesystem) (prefix : string) : list string :=
  List.filter (fun d => match strip_prefix prefix d with
                   | Some rest => negb (has_sep rest)
                   | None => false
                   end) fs.

Definition is_digit (a : ascii) : bool :=
  let n := nat_of_ascii a in ((48 <=? n)%nat && (n <=? 57)%nat)%bool.

(** The longest run of decimal digits at the start of a string: what the
    greedy group [(\d+)] captures there. *)
Fixpoint take_digits (s : string) : string :=
  match s with
  | String a s' => if is_digit a then String a (take_digits s') else ""
  | EmptyString => ""
  end.

(** What [re.search(rf"%s(\d+)" % stem, d)] finds for a stem without
    regular-expression metacharacters: the leftmost position of [d] where the
    stem is followed by a digit; the result is the captured group. *)
Fixpoint re_search_digits (stem d : string) : option string :=
  let here :=
    match strip_prefix stem d with
    | Some rest =>
        match take_digits rest with
        | EmptyString => None
        | ds => Some ds
        end
    | None => None
    end in
  match here with
  | Some ds => Some ds
  | None =>
      match d with
      | EmptyString => None
      | String _ d' => re_search_digits stem d'
      end
  end.

(** A non-empty string of decimal digits. *)
Definition all_digits (s : string) : bool :=
  (negb (String.eqb s "") && String.eqb (take_digits s) s)%bool.

(** [int(s)] on a string of decimal digits. *)
Definition int_of_digits (s : string) : N :=
  fold_left (fun acc a => (10 * acc + N.of_nat (nat_of_ascii a - 48))%N)
            (String.list_ascii_of_string s) 0%N.

(** [max(i)] on a non-empty list of naturals. *)
Definition max_N (i : list N) : N := fold_right N.max 0%N i.

(** The numbers found by that search among those entries. *)
Definition found_numbers (fs : filesystem) (p : path) : list N :=
  int_of_digits <$> omap (re_search_digits (stem p)) (glob_star fs (str p)).

(** What [increment_path] returns on such paths. *)
Definition increment_path_literal (fs : filesystem) (path_arg : string)
    (exist_ok : bool) : string :=
  let path := Path path_arg in
  if ((exists_ fs path && exist_ok) || negb (exists_ fs path))%bool
  then str path
  else
    let i := found_numbers fs path in
    let n := match i with [] => 1%N | _ => (max_N i + 1)%N end in
    str path +:+ pretty n.

(** The three library calls of [increment_path].  Their pattern languages
    are the libraries' own and are not modelled; what is known of them is
    stated in [PatternLaws], for patterns made of ordinary characters. *)
Class Patterns := {
  (* glob.glob(pattern), on a file system *)
  glob_glob : filesystem -> string -> list string;
  (* re.search(pattern, d): re.error when the pattern does not compile;
     otherwise the match, if there is one, as its first group
     m.groups()[0], which is None when that group took no part in the
     match *)
  re_search : string -> string -> result (option (option string));
  (* int(g) of such a group *)
  py_int : option string -> result Z
}.

Fixpoint has_char (chars : list ascii) (s : string) : bool :=
  match s with
  | EmptyString => false
  | String a s' =>
      (existsb (fun c => Ascii.eqb a c) chars || has_char chars s')%bool
  end.

(** No wildcard of [glob]. *)
Definition glob_literal (s : string) : bool :=
  negb (has_char ["*"; "?"; "["]%char s).

(** No metacharacter of [re]. *)
Definition re_literal (s : string) : bool :=
  negb (has_char ["."; "^"; "$"; "*"; "+"; "?"; "{"; "}"; "["; "]";
                  "\"; "|"; "("; ")"]%char s).

(** A path that has a name and is read literally by both libraries. *)
Definition plain (p : path) : Prop :=
  parts p <> [] /\ glob_literal (str p) = true /\ re_literal (stem p) = true.

(** What the libraries do on patterns made of ordinary characters, and that
    [glob] depends on which entries exist only. *)
Class PatternLaws (PL : Patterns) : Prop := {
  glob_of_literal : forall fs p,
    parts p <> [] -> glob_literal (str p) = true ->
    glob_glob fs (str p +:+ "*") = glob_star fs (str p);
  glob_of_entries : forall fs fs' pattern,
    (forall d, d ∈ fs <-> d ∈ fs') ->
    forall d, d ∈ glob_glob fs pattern <-> d ∈ glob_glob fs' pattern;
  re_of_literal : forall stem d,
    re_literal stem = true ->
    re_search (stem +:+ "(\d+)") d = Ok (Some <$> re_search_digits stem d);
  int_of_decimal : forall ds,
    all_digits ds = true -> py_int (Some ds) = Ok (Z.of_N (int_of_digits ds))
}.

(** [max(i)] on a non-empty list of integers. *)
Definition py_max_Z (i : list Z) : Z :=
  match i with
  | [] => 0
  | x :: rest => fold_left Z.max rest x
  end.

(** [increment_path(path, exist_ok=False)]. *)
Definition increment_path `{Patterns} (fs : filesystem) (path_arg : string)
    (exist_ok : bool) : result string :=
  let path := Path path_arg in
  if ((exists_ fs path && exist_ok) || negb (exists_ fs path))%bool
  then Ok (str path)
  else
    let dirs := glob_glob fs (str path +:+ "*") in
    matches ← mapM (re_search (stem path +:+ "(\d+)")) dirs;
    i ← mapM py_int (omap id matches);
    let n := match i with [] => 1 | _ => py_max_Z i + 1 end in
    Ok (str path +:+ pretty n).

(** The libraries on literal patterns alone: patterns of other shapes are
    refused. *)
Fixpoint drop_suffix (suffix s : string) : option string :=
  if String.eqb s suffix then Some ""
  else match s with
       | EmptyString => None
       | String a s' => String a <$> drop_suffix suffix s'
       end.

Definition literal_patterns : Patterns := {|
  glob_glob fs pattern :=
    match drop_suffix "*" pattern with
    | Some prefix => glob_star fs prefix
    | None => []
    end;
  re_search pattern d :=
    match drop_suffix "(\d+)" pattern with
    | Some stem =>
        if re_literal stem then Ok (Some <$> re_search_digits stem d)
        else Err ReError
    | None => Err ReError
    end;
  py_int g :=
    match g with
    | Some ds => if all_digits ds then Ok (Z.of_N (int_of_digits ds))
                 else Err ValueError
    | None => Err TypeError
    end
|}.

(** What the description of [increment_path] says: the numbered siblings of
    a path are the existing entries spelled as the path followed by digits
    only, and the number of such an entry is that numeric suffix. *)
Definition numeric_suffixes (fs : filesystem) (p : path) : list N :=
  omap (fun d => match strip_prefix (str p) d with
                 | Some rest =>
                     if all_digits rest then Some (int_of_digits rest) else None
                 | None => None
                 end) fs.

Definition described_increment_path (fs : filesystem) (path_arg : string)
    (exist_ok : bool) : string :=
  let path := Path path_arg in
  if (negb (exists_ fs path) || exist_ok)%bool then str path
  else
    let i := numeric_suffixes fs path in
    let n := match i with [] => 1%N | _ => (max_N i + 1)%N end in
    str path +:+ pretty n.

End Paths.

(** ** train.py: values, framework and effects *)

Module Train.
Import Paths.

(** Floating-point numbers as the driver uses them: literals, arithmetic and
    comparisons.  [flt a b] is [a < b]; like [feq], it is false as soon as
    one side is NaN. *)
Class Float := {
  float : Type;
  of_int : Z -> float;
  of_frac : Z -> Z -> float;
  inf : float;
  fadd : float -> float -> float;
  fsub : float -> float -> float;
  fmul : float -> float -> float;
  fdiv : float -> float -> float;
  flt : float -> float -> bool;
  feq : float -> float -> bool;
  np_sum : list float -> float
}.

(** The two facts about [<] that the checkpoint policy relies on; both hold
    for IEEE comparisons, NaN included. *)
Class FloatOrder (FL : Float) : Prop := {
  flt_irrefl : forall x : float, flt x x = false;
  flt_trans : forall x y z : float,
    flt x y = true -> flt y z = true -> flt x z = true
}.

(** A one-dimensional integer tensor: labels or predicted classes. *)
Definition ints := list Z.

(** What a Python variable of the loops may hold: a tensor or a dict of
    tensors keyed by task. *)
Inductive pyval (T : Type) :=
| VTensor (t : T)
| VDict (d : gmap string T).
Arguments VTensor {T} t.
Arguments VDict {T} d.

(** [v[key]] with a string key: a dict looks the key up, a tensor refuses a
    string index. *)
Definition getitem {T} (v : pyval T) (key : string) : result T :=
  match v with
  | VDict d => match d !! key with
               | Some t => Ok t
               | None => Err KeyError
               end
  | VTensor _ => Err IndexError
  end.

(** [v.to(device)] and [v.cpu()]: tensor methods; a dict has neither. *)
Definition to_device {T} (v : pyval T) : result T :=
  match v with
  | VTensor t => Ok t
  | VDict _ => Err AttributeError
  end.

(** A value passed where the framework needs a tensor. *)
Definition tensor_arg {T} (v : pyval T) : result T :=
  match v with
  | VTensor t => Ok t
  | VDict _ => Err TypeError
  end.

(** [v[i].item()] with an integer index. *)
Definition item_at (v : pyval ints) (i : nat) : result Z :=
  match v with
  | VTensor t => match t !! i with
                 | Some x => Ok x
                 | None => Err IndexError
                 end
  | VDict _ => Err KeyError
  end.

(** [(a == b).sum().item()] on one-dimensional tensors; sizes must agree
    unless one side has a single element, which is then broadcast. *)
Definition count_eq (a b : ints) : Z :=
  Z.of_nat (length (List.filter (fun xy => Z.eqb (fst xy) (snd xy)) (zip a b))).

Definition eq_sum (a b : ints) : result Z :=
  if (length a =? length b)%nat then Ok (count_eq a b)
  else match a, b with
       | [x], _ => Ok (count_eq (replicate (length b) x) b)
       | _, [y] => Ok (count_eq a (replicate (length a) y))
       | _, _ => Err RuntimeError
       end.

Definition py_eq_sum (a b : pyval ints) : result Z :=
  match a, b with
  | VTensor x, VTensor y => eq_sum x y
  | _, _ => Err TypeError
  end.

(** [torch.cat] of a Python list of tensors. *)
Definition torch_cat (ts : list ints) : result ints :=
  match ts with
  | [] => Err RuntimeError
  | _ => Ok (concat ts)
  end.

(** Python's [max(a, b)] and [min(a, b)] on two arguments: the first one is
    kept unless the second is strictly larger (smaller). *)
Definition py_max `{Float} (a b : float) : float := if flt a b then b else a.
Definition py_min `{Float} (a b : float) : float := if flt b a then b else a.

(** True division of a Python number by a Python int. *)
Definition py_div `{Float} (x : float) (d : Z) : result float :=
  if (d =? 0)%Z then Err ZeroDivisionError else Ok (fdiv x (of_int d)).

(** Command-line arguments read by [train]. *)
Record args `{Float} := Args {
  seed : Z;
  epochs : Z;
  dataset : string;
  augmentation : string;
  batch_size : Z;
  valid_batch_size : Z;
  model : string;
  optimizer : string;
  criterion : string;
  log_interval : Z;
  name : string;
  pretrained : bool;
  feature_extract : bool;
  multi_label : string;
  data_mix : string;
  mixp : float;
  kfold : Z;
  k : Z;
  data_selection : string
}.

(** A panel of the validation figure: the image and, per task, the decoded
    ground truth and prediction. *)
Definition panel (image : Type) : Type := image * list (string * Z * Z).

(** The loss criterion built by [create_criterion]: class scores and integer
    targets to a scalar loss. *)
Definition criterion_fn `{Float} (logits : Type) : Type :=
  logits -> ints -> result float.

(** Everything the driver imports: the numeric framework, the metric
    library, and the repository's [dataset], [loss] and [model] modules as
    [train] reaches them through [getattr(import_module(...), name)]. *)
Class Framework {FL : Float} := {
  weights : Type;
  image : Type;
  logits : Type;
  dataset_t : Type;
  subset : Type;
  (* model(inputs): the forward pass, in training or evaluation mode *)
  forward : weights -> bool -> list image -> result (pyval logits);
  (* torch.argmax(outs, dim=-1) *)
  argmax : logits -> ints;
  (* loss.backward() followed by optimizer.step() *)
  optimizer_step : weights -> float -> weights;
  (* param.requires_grad = True for every parameter *)
  unfreeze : weights -> weights;
  (* sklearn.metrics.f1_score(..., average='macro') on equally long inputs *)
  f1_macro : ints -> ints -> float;
  (* np.random.random() at a given epoch and batch *)
  np_random : nat -> nat -> float;
  (* random.choices(range(population), k=n) *)
  random_choices : nat -> nat -> list nat;
  (* plt.subplot(n_grid, n_grid, index, title=...) where n_grid is the float
     np.ceil(n ** 0.5): given n and index.  Whether a float grid size is
     accepted depends on the plotting library's version *)
  plt_subplot : nat -> nat -> result unit;
  (* getattr(import_module("dataset"), name) used as a dataset class *)
  dataset_module :
    string -> option (string -> Z -> Z -> string -> result dataset_t);
  (* the augmentation class, built from the dataset's statistics and
     installed with set_transform *)
  transform_module : string -> option (dataset_t -> dataset_t);
  split_dataset : dataset_t -> subset * subset;
  subset_len : subset -> Z;
  (* DataLoader(set, batch_size, shuffle, drop_last): the batches of an
     epoch *)
  data_loader :
    subset -> Z -> bool -> bool -> result (nat -> list (list image * pyval ints));
  (* the mixing function: mixed inputs, lam, target_a, target_b *)
  mix_module :
    string ->
    option (list image -> pyval ints ->
            result (list image * float * pyval ints * pyval ints));
  encode_multi_class : ints -> ints -> ints -> ints;
  decode_multi_class : Z -> list Z;
  (* dataset_module.denormalize_image(images, mean, std): arithmetic on
     every pixel, image by image *)
  denormalize_image : dataset_t -> image -> image;
  (* loss.create_criterion(name) *)
  create_criterion : string -> result (criterion_fn logits);
  (* getattr(import_module("model"), name)(num_classes, feature_extract,
     use_pretrained) *)
  model_module : string -> option (Z -> bool -> bool -> result weights);
  (* getattr(import_module("torch.optim"), name) *)
  opt_module : string -> bool
}.

Section Driver.
Context {FL : Float} {FW : Framework} {PL : Patterns}.

(** What a run does to the outside world, in order. *)
Inductive event :=
| EDataset (cls data_dir : string) (kfold k : Z) (age_parameter : string)
| EBuildModel (cls : string) (num_classes : Z) (feature_extract pretrained : bool)
| EWriter (log_dir : string)
| EOpen (path : string)
| EZeroGrad
| EMix (inputs : list image) (labels : pyval ints)
| EForward (training : bool) (inputs : list image)
| EBackward (loss : float)
| EOptStep
| EScalar (tag : string) (value : float) (step : Z)
| EFigure (tag : string) (fig : option (list (panel image))) (step : Z)
| ESave (path : string) (w : weights).

(** The mutable state of [train]: the local variables [model] and [loss]
    (unbound until first assigned) and the trace of events so far. *)
Record store := Store {
  model_var : option weights;
  loss_var : option float;
  trace : list event
}.

(** Computations of the driver: they may raise, and leave the store as it
    was at that point. *)
Definition M (A : Type) : Type := store -> result A * store.

Definition ret_M {A} (a : A) : M A := fun s => (Ok a, s).

Definition bind_M {A B} (m : M A) (k : A -> M B) : M B :=
  fun s => match m s with
           | (Ok a, s') => k a s'
           | (Err e, s') => (Err e, s')
           end.

#[global] Instance M_ret : MRet M := @ret_M.
#[global] Instance M_bind : MBind M := fun A B k m => bind_M m k.

Definition lift {A} (r : result A) : M A := fun s => (r, s).

Definition emit (e : event) : M unit :=
  fun s => (Ok tt, Store (model_var s) (loss_var s) (trace s ++ [e])).

(** Reading a local variable that may not have been assigned. *)
Definition read_local {A} (v : option A) : result A :=
  match v with
  | Some a => Ok a
  | None => Err UnboundLocalError
  end.

Definition get_net : M weights := fun s => (read_local (model_var s), s).

Definition set_net (w : weights) : M unit :=
  fun s => (Ok tt, Store (Some w) (loss_var s) (trace s)).

Definition set_loss (x : float) : M unit :=
  fun s => (Ok tt, Store (model_var s) (Some x) (trace s)).

Definition get_loss : M float := fun s => (read_local (loss_var s), s).

(** [model(inputs)]. *)
Definition call_model (training : bool) (inputs : list image)
    : M (pyval logits) :=
  w ← get_net;
  emit (EForward training inputs);;
  lift (forward w training inputs).

(** Applying a criterion to what the variables hold: both must be
    tensors. *)
Definition apply_criterion (c : criterion_fn logits) (outs : pyval logits)
    (target : pyval ints) : result float :=
  match outs, target with
  | VTensor o, VTensor t => c o t
  | _, _ => Err TypeError
  end.

(** The locals of [train] fixed before the epoch loop. *)
Record locals := Locals {
  save_dir : string;
  the_dataset : dataset_t;
  train_set : subset;
  val_set : subset;
  train_loader : nat -> list (list image * pyval ints);
  val_loader : nat -> list (list image * pyval ints);
  criterion_var : option (criterion_fn logits);
  loss_func_var : option (criterion_fn logits);
  data_mix_var :
    list image -> pyval ints ->
    result (list image * float * pyval ints * pyval ints)
}.

Definition tasks : list string := ["mask"; "gender"; "age"].

(** [multi_criterion(loss_func, outputs, pictures)]. *)
Definition multi_criterion (loss_func : criterion_fn logits)
    (outputs : pyval logits) (pictures : pyval ints) : result float :=
  let losses := of_int 0 in
  o ← getitem outputs "age"; p ← getitem pictures "age"; l ← loss_func o p;
  let losses := fadd losses (fmul (of_frac 4 10) l) in
  o ← getitem outputs "gender"; p ← getitem pictures "gender"; l ← loss_func o p;
  let losses := fadd losses (fmul (of_frac 3 10) l) in
  o ← getitem outputs "mask"; p ← getitem pictures "mask"; l ← loss_func o p;
  let losses := fadd losses (fmul (of_frac 3 10) l) in
  Ok losses.

(** The per-task label selection at the top of both loops. *)
Definition select_labels (a : args) (labels : pyval ints)
    : result (pyval ints) :=
  if negb (String.eqb (criterion a) "multi_label") then
    if String.eqb (multi_label a) "mask" then VTensor <$> getitem labels "mask"
    else if String.eqb (multi_label a) "age" then VTensor <$> getitem labels "age"
    else if String.eqb (multi_label a) "gender"
         then VTensor <$> getitem labels "gender"
    else Ok labels
  else Ok labels.

Definition is_multi (a : args) : bool := String.eqb (criterion a) "multi_label".

(** One iteration of the training loop, from unpacking the batch to
    [optimizer.step()] and the batch's match count: the loss item and the
    number of matching predictions (counted in multi-label runs only). *)
Definition train_batch (a : args) (lc : locals) (epoch idx : nat)
    (train_batch : list image * pyval ints) : M (float * Z) :=
  let '(inputs, labels) := train_batch in
  labels ← lift (select_labels a labels);
  emit EZeroGrad;;
  '(outs, labels) ←
    (if negb (feq (mixp a) (of_int 0)) then
       if flt (np_random epoch idx) (mixp a) then
         emit (EMix inputs labels);;
         '(inputs, lam, target_a, target_b) ← lift (data_mix_var lc inputs labels);
         outs ← call_model true inputs;
         criterion ← lift (read_local (criterion_var lc));
         la ← lift (apply_criterion criterion outs target_a);
         lb ← lift (apply_criterion criterion outs target_b);
         set_loss (fadd (fmul la lam) (fmul lb (fsub (of_int 1) lam)));;
         mret (outs, labels)
       else
         labels ← lift (to_device labels);
         outs ← call_model true inputs;
         criterion ← lift (read_local (criterion_var lc));
         l ← lift (apply_criterion criterion outs (VTensor labels));
         set_loss l;;
         mret (outs, VTensor labels)
     else
       outs ← call_model true inputs;
       labels ← (if negb (is_multi a) then lift (VTensor <$> to_device labels)
                 else mret labels);
       mret (outs, labels));
  preds ←
    (if is_multi a then
       pm ← lift (argmax <$> getitem outs "mask");
       pg ← lift (argmax <$> getitem outs "gender");
       pa ← lift (argmax <$> getitem outs "age");
       loss_func ← lift (read_local (loss_func_var lc));
       loss ← lift (multi_criterion loss_func outs labels);
       set_loss loss;;
       mret (VDict (<["age" := pa]> (<["gender" := pg]> {["mask" := pm]})))
     else
       lift (VTensor <$> (argmax <$> tensor_arg outs)));
  pm ← lift (getitem preds "mask");
  pg ← lift (getitem preds "gender");
  pa ← lift (getitem preds "age");
  let preds := encode_multi_class pm pg pa in
  loss ← get_loss;
  emit (EBackward loss);;
  w ← get_net;
  set_net (optimizer_step w loss);;
  emit EOptStep;;
  gain ← (if is_multi a then
            target ← lift (getitem labels "label");
            lift (eq_sum preds target)
          else mret 0);
  mret (loss, gain).

(** The running sums of the training loop. *)
Record meters := Meters {
  loss_value : float;
  matches : Z
}.

(** The end of an iteration: the running sums take the batch in, and every
    [log_interval] batches they are logged and reset. [n] is
    [len(train_loader)]. *)
Definition account (a : args) (epoch n idx : nat) (item : float) (gain : Z)
    (m : meters) : result (meters * list event) :=
  let loss_value := fadd (loss_value m) item in
  let matches := matches m + gain in
  if (log_interval a =? 0)%Z then Err ZeroDivisionError
  else if ((Z.of_nat idx + 1) mod log_interval a =? 0)%Z then
    train_loss ← py_div loss_value (log_interval a);
    per_batch ← py_div (of_int matches) (batch_size a);
    train_acc ← py_div per_batch (log_interval a);
    let step := (Z.of_nat epoch * Z.of_nat n + Z.of_nat idx)%Z in
    Ok (Meters (of_int 0) 0,
        [EScalar "Train/loss" train_loss step;
         EScalar "Train/accuracy" train_acc step])
  else Ok (Meters loss_value matches, []).

Fixpoint emit_all (evs : list event) : M unit :=
  match evs with
  | [] => mret tt
  | e :: rest => emit e;; emit_all rest
  end.

(** [for idx, train_batch in enumerate(train_loader)], from index [idx]. *)
Fixpoint train_loop (a : args) (lc : locals) (epoch n idx : nat)
    (batches : list (list image * pyval ints)) (m : meters) : M meters :=
  match batches with
  | [] => mret m
  | b :: rest =>
      '(item, gain) ← train_batch a lc epoch idx b;
      '(m', evs) ← lift (account a epoch n idx item gain m);
      emit_all evs;;
      train_loop a lc epoch n (S idx) rest m'
  end.

(** The bookkeeping of the training loop alone, over the loss items and
    match counts of successive batches. *)
Fixpoint account_all (a : args) (epoch n idx : nat)
    (items : list (float * Z)) (m : meters) : result (meters * list event) :=
  match items with
  | [] => Ok (m, [])
  | (item, gain) :: rest =>
      '(m', evs) ← account a epoch n idx item gain m;
      '(m'', evs') ← account_all a epoch n (S idx) rest m';
      Ok (m'', evs ++ evs')
  end.

Fixpoint zip3 {A B C} (xs : list A) (ys : list B) (zs : list C)
    : list (A * B * C) :=
  match xs, ys, zs with
  | x :: xs', y :: ys', z :: zs' => (x, y, z) :: zip3 xs' ys' zs'
  | _, _, _ => []
  end.

(** [grid_image(np_images, gts, preds, n=16, shuffle=False)]. *)
Definition grid_image (np_images : list image) (gts preds : pyval ints)
    (n : nat) (shuffle : bool) : result (list (panel image)) :=
  let batch_size := length np_images in
  if negb (n <=? batch_size)%nat then Err AssertionError
  else
    let choices := if shuffle then random_choices batch_size n else seq 0 n in
    mapM (fun '(idx, choice) =>
            gt ← item_at gts choice;
            pred ← item_at preds choice;
            image ← match np_images !! choice with
                    | Some i => Ok i
                    | None => Err IndexError
                    end;
            let title :=
              zip3 tasks (decode_multi_class gt) (decode_multi_class pred) in
            _ ← plt_subplot n (idx + 1);
            Ok (image, title))
         (zip (seq 0 (length choices)) choices).

(** The lists filled by the validation loop, and its [figure] variable. *)
Record vstate := VState {
  val_loss_items : list float;
  val_acc_items : list Z;
  target_tensor : list ints;
  pred_tensor : list ints;
  figure : option (list (panel image))
}.

(** One iteration of the validation loop. *)
Definition val_batch (a : args) (lc : locals)
    (val_batch : list image * pyval ints) (v : vstate) : M vstate :=
  let '(inputs, labels) := val_batch in
  labels ← (if negb (is_multi a) then
              labels ← lift (select_labels a labels);
              lift (VTensor <$> to_device labels)
            else mret labels);
  outs ← call_model false inputs;
  '(preds, targets) ←
    (if is_multi a then
       pm ← lift (argmax <$> getitem outs "mask");
       pg ← lift (argmax <$> getitem outs "gender");
       pa ← lift (argmax <$> getitem outs "age");
       loss_func ← lift (read_local (loss_func_var lc));
       loss ← lift (multi_criterion loss_func outs labels);
       set_loss loss;;
       let preds := encode_multi_class pm pg pa in
       target ← lift (getitem labels "label");
       _ ← lift (eq_sum target preds);
       mret (VTensor preds, target_tensor v ++ [target])
     else
       criterion ← lift (read_local (criterion_var lc));
       loss ← lift (apply_criterion criterion outs labels);
       set_loss loss;;
       preds ← lift (argmax <$> tensor_arg outs);
       _ ← lift (apply_criterion criterion outs labels);
       _ ← lift (py_eq_sum labels (VTensor preds));
       target ← lift (to_device labels);
       mret (VTensor preds, target_tensor v ++ [target]));
  criterion ← lift (read_local (criterion_var lc));
  loss_item ← lift (apply_criterion criterion outs labels);
  acc_item ← lift (py_eq_sum labels preds);
  p ← lift (to_device preds);
  t ← lift (to_device labels);
  fig ← match figure v with
        | None =>
            let inputs_np := denormalize_image (the_dataset lc) <$> inputs in
            lift (Some <$> grid_image inputs_np labels preds 16
                    (negb (String.eqb (dataset a) "MaskSplitByProfileDataset")))
        | Some f => mret (Some f)
        end;
  mret (VState (val_loss_items v ++ [loss_item])
               (val_acc_items v ++ [acc_item])
               (targets ++ [t])
               (pred_tensor v ++ [p])
               fig).

Fixpoint val_loop (a : args) (lc : locals)
    (batches : list (list image * pyval ints)) (v : vstate) : M vstate :=
  match batches with
  | [] => mret v
  | b :: rest => v' ← val_batch a lc b v; val_loop a lc rest v'
  end.

(** [f1_score(y_true, y_pred, average='macro')]: the metric library checks
    that both have the same number of samples. *)
Definition f1_score (y_true y_pred : ints) : result float :=
  if (length y_true =? length y_pred)%nat then Ok (f1_macro y_true y_pred)
  else Err ValueError.

(** The best metrics so far. *)
Record best := Best {
  best_val_acc : float;
  best_val_loss : float;
  best_f1_score : float
}.

Definition initial_best : best := Best (of_int 0) inf (of_int 0).

(** The checkpoint policy at the end of an epoch: update the best metrics,
    save [best.pth] on a new best F1, and always save [last.pth]. *)
Definition checkpoint (save_dir : string) (w : weights) (b : best)
    (val_acc val_loss val_f1 : float) : best * list event :=
  let acc := py_max (best_val_acc b) val_acc in
  let loss := py_min (best_val_loss b) val_loss in
  let '(saved, f1) :=
    if flt (best_f1_score b) val_f1
    then ([ESave (save_dir +:+ "/best.pth") w], val_f1)
    else ([], best_f1_score b) in
  (Best acc loss f1, saved ++ [ESave (save_dir +:+ "/last.pth") w]).

Definition sum_Z (l : list Z) : Z := fold_right Z.add 0 l.

(** After the validation loop: the metrics, the checkpoint, the logs. *)
Definition epoch_end (a : args) (lc : locals) (epoch : nat) (v : vstate)
    (b : best) : M best :=
  t ← lift (torch_cat (target_tensor v));
  p ← lift (torch_cat (pred_tensor v));
  val_f1 ← lift (f1_score t p);
  let val_loss :=
    fdiv (np_sum (val_loss_items v))
         (of_int (Z.of_nat (length (val_loader lc epoch)))) in
  let val_acc :=
    fdiv (of_int (sum_Z (val_acc_items v))) (of_int (subset_len (val_set lc))) in
  w ← get_net;
  let '(b', evs) := checkpoint (save_dir lc) w b val_acc val_loss val_f1 in
  emit_all evs;;
  emit (EScalar "Val/loss" val_loss (Z.of_nat epoch));;
  emit (EScalar "Val/accuracy" val_acc (Z.of_nat epoch));;
  emit (EScalar "Val/F1" val_f1 (Z.of_nat epoch));;
  emit (EFigure "results" (figure v) (Z.of_nat epoch));;
  mret b'.

(** The validation part of an epoch: the loop over [val_loader], then the
    metrics, the checkpoint and the logs. *)
Definition validate (a : args) (lc : locals) (epoch : nat) (b : best)
    : M best :=
  v ← val_loop a lc (val_loader lc epoch) (VState [] [] [] [] None);
  epoch_end a lc epoch v b.

(** The body of [for epoch in range(args.epochs)]. *)
Definition run_epoch (a : args) (lc : locals) (epoch : nat) (b : best)
    : M best :=
  (if (epoch =? 2)%nat then w ← get_net; set_net (unfreeze w) else mret tt);;
  let batches := train_loader lc epoch in
  _ ← train_loop a lc epoch (length batches) 0 batches (Meters (of_int 0) 0);
  validate a lc epoch b.

Fixpoint run_epochs (a : args) (lc : locals) (es : list nat) (b : best)
    : M best :=
  match es with
  | [] => mret b
  | epoch :: rest => b' ← run_epoch a lc epoch b; run_epochs a lc rest b'
  end.

(** The checkpoint policy alone, over the weights and validation metrics
    [(w, val_acc, val_loss, val_f1)] of successive epochs. *)
Fixpoint checkpoints (save_dir : string)
    (es : list (weights * float * float * float)) (b : best)
    : list (best * list event) :=
  match es with
  | [] => []
  | (w, val_acc, val_loss, val_f1) :: rest =>
      let r := checkpoint save_dir w b val_acc val_loss val_f1 in
      r :: checkpoints save_dir rest (fst r)
  end.

(** [getattr(module, name)]. *)
Definition read_attr {A} (o : option A) : result A :=
  match o with
  | Some a => Ok a
  | None => Err AttributeError
  end.

(** The number of classes of the model, from the task. *)
Definition num_classes_of (a : args) : Z :=
  if (String.eqb (multi_label a) "mask" || String.eqb (multi_label a) "age")%bool
  then 3
  else if String.eqb (multi_label a) "gender" then 2
  else 18.

(** Where a run stores its outputs. *)
Definition save_dir_of (fs : filesystem) (k : Z) (model_dir : string)
    (a : args) : result string :=
  increment_path fs (os_path_join model_dir ["k" +:+ pretty k; name a]) false.

(** [train(k, data_dir, model_dir, args)] up to the epoch loop: the dataset
    and its split, the loaders, the model, the criterion, the optimizer, the
    logger and the configuration file. *)
Definition setup (fs : filesystem) (k : Z) (data_dir model_dir : string)
    (a : args) : M locals :=
  save_dir ← lift (save_dir_of fs k model_dir a);
  dataset_cls ← lift (read_attr (dataset_module (dataset a)));
  emit (EDataset (dataset a) data_dir (kfold a) (Train.k a) (data_selection a));;
  dataset ← lift (dataset_cls data_dir (kfold a) (Train.k a) (data_selection a));
  let num_classes := num_classes_of a in
  transform ← lift (read_attr (transform_module (augmentation a)));
  let dataset := transform dataset in
  let '(train_set, val_set) := split_dataset dataset in
  train_loader ← lift (data_loader train_set (batch_size a) true true);
  val_loader ← lift (data_loader val_set (valid_batch_size a) false false);
  model_cls ← lift (read_attr (model_module (model a)));
  emit (EBuildModel (model a) num_classes (feature_extract a) (pretrained a));;
  w ← lift (model_cls num_classes (feature_extract a) (pretrained a));
  set_net w;;
  '(criterion, loss_func) ←
    (if is_multi a then
       c ← lift (create_criterion "cross_entropy"); mret (None, Some c)
     else
       c ← lift (create_criterion (criterion a)); mret (Some c, None));
  (if opt_module (optimizer a) then mret tt else lift (Err AttributeError));;
  emit (EWriter save_dir);;
  emit (EOpen (os_path_join save_dir ["config.json"]));;
  data_mix ← lift (read_attr (mix_module (data_mix a)));
  mret (Locals save_dir dataset train_set val_set train_loader val_loader
               criterion loss_func data_mix).

(** [train(k, data_dir, model_dir, args)]. *)
Definition train (fs : filesystem) (k : Z) (data_dir model_dir : string)
    (a : args) : M unit :=
  lc ← setup fs k data_dir model_dir a;
  _ ← run_epochs a lc (seq 0 (Z.to_nat (epochs a))) initial_best;
  mret tt.

(** A fresh call of [train]: no local is bound, nothing has happened. *)
Definition initial_store : store := Store None None [].

(** Reading the trace. *)
Definition is_mix (e : event) : bool :=
  match e with EMix _ _ => true | _ => false end.

Definition is_update (e : event) : bool :=
  match e with EBackward _ | EOptStep => true | _ => false end.

Definition forwarded (e : event) : option (list image) :=
  match e with EForward _ inputs => Some inputs | _ => None end.

Definition scalar_tag (e : event) : option string :=
  match e with EScalar tag _ _ => Some tag | _ => None end.

(** The path an event writes to, when it writes. *)
Definition written_path (e : event) : option string :=
  match e with
  | EWriter p | EOpen p | ESave p _ => Some p
  | _ => None
  end.

Definition is_scalar (e : event) : bool :=
  match e with EScalar _ _ _ => true | _ => false end.

(** Events of the optimisation itself: no log entry, no file. *)
Definition is_step (e : event) : bool :=
  match e with
  | EZeroGrad | EMix _ _ | EForward _ _ | EBackward _ | EOptStep => true
  | _ => false
  end.

Definition silent (e : event) : Prop := is_step e = true.

(** What a computation added to the trace. *)
Definition new_events (before after : store) : list event :=
  drop (length (trace before)) (trace after).

(** An event that, if it writes, writes below [dir]. *)
Definition under (dir : string) (e : event) : Prop :=
  forall p, written_path e = Some p -> exists rest, p = dir +:+ rest.

(** What a call of [train] may do, given its save directory: build the
    dataset with the call's own arguments, and write nowhere but below the
    save directory. *)
Definition allowed (sd data_dir : string) (a : args) (e : event) : Prop :=
  under sd e /\
  match e with
  | EDataset cls dd kf k' ap =>
      cls = dataset a /\ dd = data_dir /\ kf = kfold a /\ k' = Train.k a /\
      ap = data_selection a
  | _ => True
  end.

(** [yields P Q m]: from any store, [m] only appends events satisfying [P]
    to the trace, and a value it returns satisfies [Q]. *)
Definition yields {A} (P : event -> Prop) (Q : A -> Prop) (m : M A) : Prop :=
  forall s,
    (exists evs, trace (snd (m s)) = trace s ++ evs /\ Forall P evs) /\
    match fst (m s) with
    | Ok x => Q x
    | Err _ => True
    end.

(** [x <= y] as far as the driver's comparisons can tell: equal, or
    strictly below. *)
Definition fle (x y : float) : Prop := x = y \/ flt x y = true.

(** The best metrics once the checkpoint policy has seen the epochs [es]. *)
Fixpoint best_after (save_dir : string)
    (es : list (weights * float * float * float)) (b : best) : best :=
  match es with
  | [] => b
  | (w, val_acc, val_loss, val_f1) :: rest =>
      best_after save_dir rest
                 (fst (checkpoint save_dir w b val_acc val_loss val_f1))
  end.

(** The [w]-th run of [L] consecutive batches. *)
Definition window {A} (L w : nat) (items : list A) : list A :=
  take L (drop (w * L) items).

(** The loss summed the way the loop sums it, batch after batch from 0, and
    the matches counted over some batches. *)
Definition summed_loss (items : list (float * Z)) (from : float) : float :=
  fold_left fadd (fst <$> items) from.

Definition summed_matches (items : list (float * Z)) : Z :=
  sum_Z (snd <$> items).

(** The two scalars logged at the end of the [w]-th window. *)
Definition window_logs (a : args) (epoch n : nat) (items : list (float * Z))
    (w : nat) : list event :=
  let L := Z.to_nat (log_interval a) in
  let its := window L w items in
  let step := (Z.of_nat epoch * Z.of_nat n + Z.of_nat ((w + 1) * L - 1))%Z in
  [EScalar "Train/loss"
           (fdiv (summed_loss its (of_int 0)) (of_int (log_interval a))) step;
   EScalar "Train/accuracy"
           (fdiv (fdiv (of_int (summed_matches its)) (of_int (batch_size a)))
                 (of_int (log_interval a))) step].

End Driver.

(** ** An exact instance: extended rationals

    Arithmetic without rounding on finite values, with the infinities and
    NaN of IEEE arithmetic; used to run the driver on concrete inputs. *)

Inductive xfloat :=
| NaN
| NegInf
| Fin (q : Q)
| PosInf.

Definition xneg (x : xfloat) : xfloat :=
  match x with
  | NaN => NaN
  | NegInf => PosInf
  | Fin q => Fin (Qred (- q))
  | PosInf => NegInf
  end.

Definition xadd (x y : xfloat) : xfloat :=
  match x, y with
  | NaN, _ | _, NaN => NaN
  | PosInf, NegInf | NegInf, PosInf => NaN
  | PosInf, _ | _, PosInf => PosInf
  | NegInf, _ | _, NegInf => NegInf
  | Fin a, Fin b => Fin (Qred (a + b))
  end.

Definition xsub (x y : xfloat) : xfloat := xadd x (xneg y).

(** The sign of a value: [Lt] negative, [Eq] zero, [Gt] positive. *)
Definition xsign (x : xfloat) : option comparison :=
  match x with
  | NaN => None
  | NegInf => Some Lt
  | Fin q => Some (Qnum q ?= 0)%Z
  | PosInf => Some Gt
  end.

Definition signed_inf (s t : comparison) : xfloat :=
  match s, t with
  | Eq, _ | _, Eq => NaN
  | Lt, Lt | Gt, Gt => PosInf
  | _, _ => NegInf
  end.

Definition xmul (x y : xfloat) : xfloat :=
  match x, y with
  | Fin a, Fin b => Fin (Qred (a * b))
  | _, _ => match xsign x, xsign y with
            | Some s, Some t => signed_inf s t
            | _, _ => NaN
            end
  end.

Definition xdiv (x y : xfloat) : xfloat :=
  match x, y with
  | NaN, _ | _, NaN => NaN
  | Fin a, Fin b =>
      match (Qnum b ?= 0)%Z with
      | Eq => match (Qnum a ?= 0)%Z with
              | Eq => NaN
              | Lt => NegInf
              | Gt => PosInf
              end
      | _ => Fin (Qred (a / b))
      end
  | Fin _, _ => Fin 0
  | _, Fin b =>
      match xsign x with
      | Some s => signed_inf s (match (Qnum b ?= 0)%Z with Lt => Lt | _ => Gt end)
      | None => NaN
      end
  | _, _ => NaN
  end.

Definition Qltb (a b : Q) : bool :=
  (Qnum a * Z.pos (Qden b) <? Qnum b * Z.pos (Qden a))%Z.

Definition xlt (x y : xfloat) : bool :=
  match x, y with
  | NaN, _ | _, NaN => false
  | _, NegInf => false
  | NegInf, _ => true
  | PosInf, _ => false
  | Fin _, PosInf => true
  | Fin a, Fin b => Qltb a b
  end.

Definition xeq (x y : xfloat) : bool :=
  match x, y with
  | NegInf, NegInf | PosInf, PosInf => true
  | Fin a, Fin b => Qeq_bool a b
  | _, _ => false
  end.

#[global] Instance exact_float : Float := {|
  float := xfloat;
  of_int z := Fin (inject_Z z);
  of_frac n d := Fin (Qred (n # Z.to_pos d));
  inf := PosInf;
  fadd := xadd;
  fsub := xsub;
  fmul := xmul;
  fdiv := xdiv;
  flt := xlt;
  feq := xeq;
  np_sum l := fold_left xadd l (Fin 0)
|}.

(** ** A small framework to run the driver on

    Images are numbers, the network returns one score row per image (a
    single tensor like every class of [model.py], or one tensor per task
    when [multi_head] is set), a subset is the list of its batches, and the
    plotting library accepts the float grid size. *)

Definition demo_encode (m g a : ints) : ints :=
  (fun x => 6 * fst (fst x) + 3 * snd (fst x) + snd x)%Z <$> zip (zip m g) a.

Definition demo_criterion : criterion_fn (list Z) :=
  fun o t => Ok (Fin (inject_Z (Z.of_nat (length o) - count_eq o t))).

Definition demo_batches : Type := list (list Z * pyval ints).

#[global] Instance demo_framework (multi_head : bool) : Framework := {|
  weights := nat;
  image := Z;
  logits := list Z;
  dataset_t := demo_batches * demo_batches;
  subset := demo_batches;
  forward w training inputs :=
    Ok (if multi_head
        then VDict (<["age" := inputs]> (<["gender" := inputs]> {["mask" := inputs]}))
        else VTensor inputs);
  argmax o := (fun x => x mod 3)%Z <$> o;
  optimizer_step w l := S w;
  unfreeze w := w;
  f1_macro y p := xdiv (Fin (inject_Z (count_eq y p)))
                       (Fin (inject_Z (Z.of_nat (length y))));
  np_random epoch idx := Fin (3 # 10);
  random_choices population n := seq 0 n;
  plt_subplot n index := Ok tt;
  dataset_module cls :=
    if String.eqb cls "MaskBaseDataset" then Some (fun _ _ _ _ => Ok ([], []))
    else None;
  transform_module cls :=
    if String.eqb cls "BaseAugmentation" then Some (fun d => d) else None;
  split_dataset d := d;
  subset_len s := Z.of_nat (length (concat (fst <$> s)));
  data_loader s bs shuffle drop_last :=
    if (bs <=? 0)%Z then Err ValueError else Ok (fun epoch => s);
  mix_module nm :=
    if String.eqb nm "mixup"
    then Some (fun inputs labels => Ok (rev inputs, Fin (1 # 4), labels, labels))
    else None;
  encode_multi_class := demo_encode;
  decode_multi_class z := [z / 6; (z / 3) mod 2; z mod 3]%Z;
  denormalize_image d i := i;
  create_criterion nm :=
    if String.eqb nm "cross_entropy" then Ok demo_criterion else Err ValueError;
  model_module cls :=
    if String.eqb cls "Resnet18" then Some (fun _ _ _ => Ok O) else None;
  opt_module nm := String.eqb nm "Adam"
|}.

Definition demo_args (criterion multi_label : string) (mixp : xfloat) : args := {|
  seed := 42;
  epochs := 1;
  dataset := "MaskBaseDataset";
  augmentation := "BaseAugmentation";
  batch_size := 2;
  valid_batch_size := 16;
  model := "Resnet18";
  optimizer := "Adam";
  criterion := criterion;
  log_interval := 2;
  name := "exp";
  pretrained := true;
  feature_extract := false;
  multi_label := multi_label;
  data_mix := "mixup";
  mixp := mixp;
  kfold := 5;
  k := 0;
  data_selection := "1_0_0"
|}.

(** Labels as the loader yields them: one tensor per task and the combined
    class. *)
Definition demo_labels (m g a : ints) : pyval ints :=
  VDict (<["label" := demo_encode m g a]>
        (<["age" := a]> (<["gender" := g]> {["mask" := m]}))).

Definition demo_locals (multi_head : bool) (a : args)
    (train val : demo_batches) : @locals exact_float (demo_framework multi_head) :=
  @Locals exact_float (demo_framework multi_head)
    "model/k0/exp" (train, val) train val (fun _ => train) (fun _ => val)
    (if is_multi a then None else Some demo_criterion)
    (if is_multi a then Some demo_criterion else None)
    (fun inputs labels => Ok (rev inputs, Fin (1 # 4), labels, labels)).

(** A training batch of two images and a validation batch of sixteen. *)
Definition demo_train_batch : list Z * pyval ints :=
  ([0; 1], demo_labels [0; 2] [1; 0] [2; 1]).

Definition demo_val_batch : list Z * pyval ints :=
  (Z.of_nat <$> seq 0 16, demo_labels (replicate 16 1) (replicate 16 0) (replicate 16 2)).

(** The store once [setup] has built the model. *)
Definition demo_store (multi_head : bool)
    : @store exact_float (demo_framework multi_head) :=
  @Store exact_float (demo_framework multi_head) (Some O) None [].

End Train.

(** ** model.py: the plain network and the constructors' signatures *)

Module Shapes.

(** The shape of a batch of images, [(N, C, H, W)], and of a batch of
    feature rows, [(N, F)]. *)
Definition shape4 : Type := nat * nat * nat * nat.
Definition shape2 : Type := nat * nat.

(** [nn.Conv2d(cin, cout, kernel_size=k, stride=1)], no padding: the
    channels must agree and the kernel must fit. *)
Definition conv2d (cin cout k : nat) (x : shape4) : result shape4 :=
  let '(n, c, h, w) := x in
  if negb (c =? cin)%nat then Err RuntimeError
  else if ((h <? k)%nat || (w <? k)%nat)%bool then Err RuntimeError
  else Ok (n, cout, h - k + 1, w - k + 1)%nat.

(** [F.max_pool2d(x, k)]: stride [k], sizes rounded down; an empty output
    is refused. *)
Definition max_pool2d (k : nat) (x : shape4) : result shape4 :=
  let '(n, c, h, w) := x in
  let out d := if (d <? k)%nat then O else ((d - k) / k + 1)%nat in
  if ((out h =? 0)%nat || (out w =? 0)%nat)%bool then Err RuntimeError
  else Ok (n, c, out h, out w).

(** [nn.AdaptiveAvgPool2d((1, 1))]. *)
Definition adaptive_avg_pool2d (x : shape4) : shape4 :=
  let '(n, c, h, w) := x in (n, c, 1, 1)%nat.

(** [x.view(-1, cols)] with [cols] not zero: the elements must fill whole
    rows, and the [-1] is the number of rows, 0 for an empty batch. *)
Definition view_rows (cols : nat) (x : shape4) : result shape2 :=
  let '(n, c, h, w) := x in
  let numel := (n * c * h * w)%nat in
  if ((cols =? 0)%nat || negb (numel mod cols =? 0)%nat)%bool
  then Err RuntimeError
  else Ok ((numel / cols)%nat, cols).

(** [nn.Linear(i, o)] on rows. *)
Definition linear (i o : nat) (x : shape2) : result shape2 :=
  let '(rows, f) := x in
  if (f =? i)%nat then Ok (rows, o) else Err RuntimeError.

(** [BaseModel.forward], on shapes; [relu] and dropout keep the shape. *)
Definition BaseModel_forward (num_classes : nat) (x : shape4) : result shape2 :=
  x ← conv2d 3 32 7 x;
  x ← conv2d 32 64 3 x;
  x ← max_pool2d 2 x;
  x ← conv2d 64 128 3 x;
  x ← max_pool2d 2 x;
  let x := adaptive_avg_pool2d x in
  x ← view_rows 128 x;
  linear 128 num_classes x.

End Shapes.

Module Classes.

(** The parameters of an [__init__] after [self]: each with or without a
    default, and whether a [**kwargs] collects the rest. *)
Record signature := Signature {
  params : list (string * bool);
  var_keyword : bool
}.

(** The classes of [model.py]. *)
Definition init_signature (class_name : string) : option signature :=
  if String.eqb class_name "BaseModel"
  then Some (Signature [("num_classes", false)] true)
  else if String.eqb class_name "PytorchModel"
  then Some (Signature [] false)
  else if (String.eqb class_name "Resnet18" || String.eqb class_name "Resnet50" ||
           String.eqb class_name "Alexnet" || String.eqb class_name "VGG11bn" ||
           String.eqb class_name "Squeezenet" ||
           String.eqb class_name "Densenet121")%bool
  then Some (Signature [("num_classes", false); ("feature_extract", true);
                        ("use_pretrained", true)] false)
  else if String.eqb class_name "MyModel"
  then Some (Signature [("num_classes", false)] false)
  else None.

Definition mem (x : string) (l : list string) : bool :=
  existsb (String.eqb x) l.

(** Binding a call made with keyword arguments only: every keyword must
    name a parameter unless [**kwargs] takes it, and every parameter without
    a default must be given. *)
Definition bind_keywords (sg : signature) (keywords : list string)
    : result unit :=
  if (forallb (fun kw => (var_keyword sg || mem kw (fst <$> params sg))%bool)
              keywords &&
      forallb (fun p => (snd p || mem (fst p) keywords)%bool) (params sg))%bool
  then Ok tt else Err TypeError.

(** The call of [train]:
    [model_module(num_classes=..., feature_extract=..., use_pretrained=...)]. *)
Definition train_keywords : list string :=
  ["num_classes"; "feature_extract"; "use_pretrained"].

End Classes.

(** ** train.py: unfreezing at epoch 2, and reading a run *)

Module Unfreeze.
Import Model.

(** [train.py], at the start of epoch 2:
    [for param in model.parameters(): param.requires_grad = True]. *)
Definition unfreeze_parameter (p : parameter) : parameter :=
  mk_parameter (shape p) (data p) true.

Definition unfreeze_layer (l : layer) : layer :=
  Layer (kind l) (prod_map id unfreeze_parameter <$> lparams l).

Definition unfreeze_net (model : net) : net :=
  Net (unfreeze_layer <$> layers model) (attr_num_classes model).

End Unfreeze.

Module Run.
Import Paths Train.
Section Reading.
Context {FL : Float} {FW : Framework}.

(** A computation that leaves the [model] variable as it found it. *)
Definition keeps_model {A} (m : M A) : Prop :=
  forall s, model_var (snd (m s)) = model_var s.

Definition is_checkpoint (e : event) : bool :=
  match e with ESave _ _ => true | _ => false end.

(** What the end of a validation pass logs: the [Val/...] scalars and the
    figure. *)
Definition is_val_log (e : event) : bool :=
  match e with
  | EFigure _ _ _ => true
  | EScalar tag _ _ => String.prefix "Val/" tag
  | _ => false
  end.

(** A computation of the loop's best metrics that, counted in saved
    checkpoints, either raised without saving any, or did one round of the
    checkpoint policy from [b] and returns its result. *)
Definition one_checkpoint (sd : string) (b : best) (m : M best) (s : store)
    : Prop :=
  exists evs,
    trace (snd (m s)) = trace s ++ evs /\
    ((exists e, fst (m s) = Err e /\ List.filter is_checkpoint evs = []) \/
     (exists w acc loss f1,
        fst (m s) = Ok (fst (checkpoint sd w b acc loss f1)) /\
        List.filter is_checkpoint evs = snd (checkpoint sd w b acc loss f1))).

(** An event of the loops that is about a batch of the loaders of [lc]:
    a training batch is mixed or run through the network, as it is or as the
    mixing function returned it, and a validation batch is run through the
    network as it is. *)
Definition from_loaders (lc : locals) (e : event) : Prop :=
  match e with
  | EMix inputs _ =>
      exists epoch labels, (inputs, labels) ∈ train_loader lc epoch
  | EForward true i =>
      exists epoch inputs labels,
        (inputs, labels) ∈ train_loader lc epoch /\
        (i = inputs \/
         exists l lam ta tb, data_mix_var lc inputs l = Ok (i, lam, ta, tb))
  | EForward false i =>
      exists epoch labels, (i, labels) ∈ val_loader lc epoch
  | _ => True
  end.

(** [yields P Q m] for a computation that also leaves the model alone. *)
Definition preserves {A} (P : event -> Prop) (Q : A -> Prop) (m : M A) : Prop :=
  yields P Q m /\ keeps_model m.

End Reading.
End Run.

(** * Properties *)

(** ** The backbone wrappers *)

Module ModelProps.
Import Model.

Lemma frozen_copy_freeze_layer (l : layer) : frozen_copy l (freeze_layer l).
Proof.
  split; [reflexivity|]. simpl.
  induction (lparams l) as [|[pn p] ps IH]; constructor; auto.
  simpl. repeat split.
Qed.

Lemma freeze_layer_no_grad (l : layer) (pn : string) (p : parameter) :
  (pn, p) ∈ lparams (freeze_layer l) -> requires_grad p = false.
Proof.
  simpl. intros H. apply list_elem_of_fmap in H as [[qn q] [E _]].
  inversion E; subst. reflexivity.
Qed.

Lemma set_parameter_requires_grad_lookup (m : net) (lname : string) :
  layers (set_parameter_requires_grad m true) !! lname
  = freeze_layer <$> layers m !! lname.
Proof. simpl. apply lookup_fmap. Qed.

(** What every wrapper constructor does to the network it loads. *)
Lemma construct_model_ft models a nc fe up w :
  construct models a nc fe up = Ok w ->
  exists old head,
    layers (set_parameter_requires_grad (models a up) fe) !! head_name a
      = Some old /\
    layers (model_ft w)
      = <[head_name a := head]>
          (layers (set_parameter_requires_grad (models a up) fe)) /\
    out_dim head = Some nc /\
    (forall pn p, (pn, p) ∈ lparams head ->
                  requires_grad p = true /\ data p = Fresh).
Proof.
  intros H.
  assert (Hfresh_lin : forall i pn p, (pn, p) ∈ lparams (nn_Linear i nc) ->
            requires_grad p = true /\ data p = Fresh).
  { intros i pn p Hin. simpl in Hin.
    repeat (apply elem_of_cons in Hin as [Hin|Hin];
            [inversion Hin; subst; auto|]).
    inversion Hin. }
  destruct a; simpl in H;
    unfold Resnet18, Resnet50, Alexnet, VGG11bn, Squeezenet, Densenet121,
           get_module, get_item, in_features_of in H; simpl in H;
    match type of H with
    | context [layers ?m !! ?key] =>
        destruct (layers m !! key) as [old|] eqn:Hold; simpl in H;
          [|discriminate]
    end.
  1-4,6: destruct (kind old) eqn:Hk; simpl in H; try discriminate;
    inversion H; subst; simpl;
    eexists old, _; repeat split; eauto; eapply Hfresh_lin; eauto.
  inversion H; subst; simpl.
  eexists old, _; repeat split; eauto;
    simpl in H0;
    repeat (apply elem_of_cons in H0 as [H0|H0];
            [inversion H0; subst; auto|]); inversion H0.
Qed.

(** A wrapper can be built as soon as the backbone has the classifier
    layer that the class replaces, a linear one where its input size is
    read. *)
Lemma construct_total models a nc fe up old :
  layers (models a up) !! head_name a = Some old ->
  (a <> squeezenet1_0 -> exists i o, kind old = Linear i o) ->
  exists w, construct models a nc fe up = Ok w.
Proof.
  intros Hold Hlin.
  assert (Hlk : layers (set_parameter_requires_grad (models a up) fe)
                  !! head_name a
                = Some ((if fe then freeze_layer else id) old)).
  { destruct fe; simpl; [rewrite lookup_fmap|]; rewrite Hold; reflexivity. }
  assert (Hkind : kind ((if fe then freeze_layer else id) old) = kind old)
    by (destruct fe; reflexivity).
  destruct a; simpl in *;
    unfold Resnet18, Resnet50, Alexnet, VGG11bn, Squeezenet, Densenet121,
           get_module, get_item, in_features_of; cbv zeta;
    rewrite Hlk; simpl; try (eexists; reflexivity);
    rewrite Hkind;
    destruct (Hlin ltac:(discriminate)) as (i & o & ->); simpl;
    eexists; reflexivity.
Qed.

(** C7. For each of the six wrapper classes, on a backbone that has the
    classifier layer the class replaces: the constructor succeeds;
    [set_parameter_requires_grad] with feature extraction on turns every
    backbone parameter's [requires_grad] off and leaves layers, parameter
    names, shapes, contents and attributes as they were; the constructor
    then replaces the classifier layer by a fresh one with [num_classes]
    outputs and touches no other layer, so that with [feature_extract] true
    the trainable parameters are exactly those of the new head, and with
    [feature_extract] false every other layer is the loaded one, flags
    included. *)
Theorem wrapper_trainable_parameters
    (models : arch -> bool -> net) (a : arch) (nc : nat) (fe up : bool)
    (old : layer) :
  let backbone := models a up in
  layers backbone !! head_name a = Some old ->
  (a <> squeezenet1_0 -> exists i o, kind old = Linear i o) ->
  exists w,
    construct models a nc fe up = Ok w /\
    (forall lname,
       option_Forall2 frozen_copy
         (layers backbone !! lname)
         (layers (set_parameter_requires_grad backbone true) !! lname)) /\
    attr_num_classes (set_parameter_requires_grad backbone true)
      = attr_num_classes backbone /\
    (forall lname, lname <> head_name a ->
       layers (model_ft w) !! lname
       = layers (set_parameter_requires_grad backbone fe) !! lname) /\
    (exists head,
       layers (model_ft w) !! head_name a = Some head /\
       out_dim head = Some nc /\
       forall pn p, (pn, p) ∈ lparams head -> data p = Fresh) /\
    (fe = true ->
     forall lname pname p,
       has_param (model_ft w) lname pname p ->
       (requires_grad p = true <-> lname = head_name a)) /\
    (fe = false ->
     forall lname, lname <> head_name a ->
       layers (model_ft w) !! lname = layers backbone !! lname).
Proof.
  intros backbone Hhead Hlin.
  destruct (construct_total models a nc fe up old Hhead Hlin) as [w H].
  exists w. split; [exact H|].
  destruct (construct_model_ft _ _ _ _ _ _ H)
    as (old' & head & Hold & Hlayers & Hout & Hfresh).
  fold backbone in Hold, Hlayers.
  split; [|split; [|split; [|split; [|split]]]].
  - intros lname. rewrite set_parameter_requires_grad_lookup.
    destruct (layers backbone !! lname) as [l|]; simpl; constructor.
    apply frozen_copy_freeze_layer.
  - reflexivity.
  - intros lname Hne. rewrite Hlayers. apply lookup_insert_ne. congruence.
  - exists head. rewrite Hlayers, lookup_insert_eq.
    repeat split; auto. intros pn p Hin. apply (Hfresh pn p Hin).
  - intros -> lname pname p (l & Hl & Hin). rewrite Hlayers in Hl.
    destruct (decide (lname = head_name a)) as [->|Hne].
    + rewrite lookup_insert_eq in Hl. inversion Hl; subst.
      split; auto. intros _. apply (Hfresh pname p Hin).
    + rewrite lookup_insert_ne in Hl by congruence.
      rewrite set_parameter_requires_grad_lookup in Hl.
      destruct (layers backbone !! lname) as [l0|]; simpl in Hl;
        [|discriminate].
      inversion Hl; subst.
      rewrite (freeze_layer_no_grad _ _ _ Hin). split; [discriminate|tauto].
  - intros -> lname Hne. rewrite Hlayers. simpl.
    apply lookup_insert_ne. congruence.
Qed.

Lemma wrapper_trainable_parameters_witness :
  Forall (fun a =>
            exists w, construct demo_zoo a 3 true true = Ok w /\
              (forall lname pname p,
                 has_param (model_ft w) lname pname p ->
                 (requires_grad p = true <-> lname = head_name a)))
         [resnet18; resnet50; alexnet; vgg11_bn; squeezenet1_0; densenet121].
Proof.
  repeat constructor.
  all: match goal with
       | |- exists w, construct demo_zoo ?a _ _ _ = _ /\ _ =>
           edestruct (wrapper_trainable_parameters demo_zoo a 3 true true)
             as (w & Hw & _ & _ & _ & _ & Hfe & _);
           [ reflexivity
           | intros Hne; first [do 2 eexists; reflexivity|contradiction]
           | exists w; split; [exact Hw|exact (Hfe eq_refl)] ]
       end.
Defined.

End ModelProps.

(** ** Path bookkeeping *)

Module PathsProps.
Import Paths.

Lemma append_nil_l (r : string) : "" +:+ r = r.
Proof. reflexivity. Qed.

Lemma append_cons (a : ascii) (s r : string) :
  String a s +:+ r = String a (s +:+ r).
Proof. reflexivity. Qed.

Lemma strip_prefix_app (p s r : string) :
  strip_prefix p s = Some r -> s = p +:+ r.
Proof.
  revert s. induction p as [|a p IH]; intros s H; simpl in H.
  - rewrite append_nil_l. congruence.
  - destruct s as [|b s]; [discriminate|].
    destruct (Ascii.eqb a b) eqn:E; [|discriminate].
    apply Ascii.eqb_eq in E. subst b. rewrite append_cons. f_equal. auto.
Qed.

Lemma app_strip_prefix (p r : string) : strip_prefix p (p +:+ r) = Some r.
Proof.
  induction p as [|a p IH]; [reflexivity|].
  rewrite append_cons. simpl. rewrite Ascii.eqb_refl. exact IH.
Qed.

Lemma take_digits_split (s : string) :
  exists post, s = take_digits s +:+ post.
Proof.
  induction s as [|a s [post IH]]; simpl.
  - exists "". reflexivity.
  - destruct (is_digit a).
    + exists post. rewrite append_cons. congruence.
    + exists (String a s). reflexivity.
Qed.

Lemma take_digits_idem (s : string) : take_digits (take_digits s) = take_digits s.
Proof.
  induction s as [|a s IH]; simpl; [reflexivity|].
  destruct (is_digit a) eqn:E; simpl; [|reflexivity].
  rewrite E. congruence.
Qed.

Lemma search_here (stem d rest : string) :
  strip_prefix stem d = Some rest -> take_digits rest <> "" ->
  exists pre post,
    d = pre +:+ stem +:+ take_digits rest +:+ post /\
    take_digits rest <> "" /\
    take_digits (take_digits rest) = take_digits rest.
Proof.
  intros E Hne. apply strip_prefix_app in E.
  destruct (take_digits_split rest) as [post Hp]. exists "", post.
  rewrite append_nil_l, <- Hp. auto using take_digits_idem.
Qed.

(** What the search finds: an occurrence of the stem anywhere in the
    string, directly followed by the captured, non-empty run of digits. *)
Lemma re_search_digits_sound (stem d ds : string) :
  re_search_digits stem d = Some ds ->
  exists pre post,
    d = pre +:+ stem +:+ ds +:+ post /\ ds <> "" /\ take_digits ds = ds.
Proof.
  induction d as [|c d IH]; simpl.
  - destruct (strip_prefix stem "") as [rest|] eqn:E; [|discriminate].
    destruct (take_digits rest) eqn:Et; [discriminate|].
    intros H. inversion H; subst. rewrite <- Et.
    apply (search_here _ _ _ E). congruence.
  - assert (Hnext : re_search_digits stem d = Some ds ->
      exists pre post, String c d = pre +:+ stem +:+ ds +:+ post /\
                       ds <> "" /\ take_digits ds = ds).
    { intros H. destruct (IH H) as (pre & post & -> & ? & ?).
      exists (String c pre), post. rewrite append_cons. auto. }
    destruct (strip_prefix stem (String c d)) as [rest|] eqn:E; [|exact Hnext].
    destruct (take_digits rest) eqn:Et; [exact Hnext|].
    intros H. inversion H; subst. rewrite <- Et.
    apply (search_here _ _ _ E). congruence.
Qed.

Lemma glob_star_spec (fs : filesystem) (prefix d : string) :
  d ∈ glob_star fs prefix <->
  d ∈ fs /\ exists rest, d = prefix +:+ rest /\ has_sep rest = false.
Proof.
  unfold glob_star. rewrite list_elem_of_In, filter_In, <- list_elem_of_In.
  split; intros [Hin H]; split; auto.
  - destruct (strip_prefix prefix d) as [rest|] eqn:E; [|discriminate].
    exists rest. split; [apply strip_prefix_app; auto|].
    destruct (has_sep rest); [discriminate|reflexivity].
  - destruct H as (rest & -> & Hs). rewrite app_strip_prefix, Hs. reflexivity.
Qed.

Lemma found_numbers_spec (fs : filesystem) (p : path) (m : N) :
  m ∈ found_numbers fs p <->
  exists d ds, d ∈ glob_star fs (str p) /\
               re_search_digits (stem p) d = Some ds /\ m = int_of_digits ds.
Proof.
  unfold found_numbers. rewrite list_elem_of_fmap. split.
  - intros (ds & -> & Hin). apply list_elem_of_omap in Hin as (d & Hd & Hs).
    eauto.
  - intros (d & ds & Hd & Hs & ->). exists ds. split; [reflexivity|].
    apply list_elem_of_omap. eauto.
Qed.

Lemma max_N_upper (i : list N) (m : N) : m ∈ i -> (m <= max_N i)%N.
Proof.
  induction i as [|x i IH]; intros H; [inversion H|].
  apply elem_of_cons in H as [->|H]; simpl; [lia|]. specialize (IH H). lia.
Qed.

Lemma max_N_elem (i : list N) : i <> [] -> max_N i ∈ i.
Proof.
  induction i as [|x i IH]; [congruence|]. intros _. simpl.
  destruct i as [|y i].
  - simpl. rewrite N.max_0_r. left.
  - destruct (N.max_spec x (max_N (y :: i))) as [[_ E]|[_ E]]; rewrite E.
    + right. apply IH. congruence.
    + left.
Qed.

(** The literal reading. [increment_path_literal] returns [str(path)] when
    the path does not exist or [exist_ok] is set.  Otherwise it returns the
    path followed by a number [n] that is one more than the largest number
    found, and 1 when none is found; the numbers found are those captured by
    searching every entry that extends the path inside its last component,
    taken as a whole path string, for the first place where the stem is
    directly followed by digits: that place may lie in a parent directory's
    name, and the digits may be followed by more text. *)
Lemma increment_path_literal_numbering
    (fs : filesystem) (p : string) (exist_ok : bool) :
  let path := Path p in
  (exists_ fs path = false \/ exist_ok = true ->
   increment_path_literal fs p exist_ok = str path) /\
  (exists_ fs path = true -> exist_ok = false ->
   exists n : N,
     increment_path_literal fs p exist_ok = str path +:+ pretty n /\
     (forall m, m ∈ found_numbers fs path -> (m < n)%N) /\
     (found_numbers fs path = [] -> n = 1%N) /\
     (found_numbers fs path <> [] -> (n - 1)%N ∈ found_numbers fs path)) /\
  (forall m, m ∈ found_numbers fs path <->
     exists d ds, (d ∈ fs /\ exists rest, d = str path +:+ rest /\
                                           has_sep rest = false) /\
                  re_search_digits (stem path) d = Some ds /\
                  m = int_of_digits ds) /\
  (forall d ds, re_search_digits (stem path) d = Some ds ->
     exists pre post,
       d = pre +:+ stem path +:+ ds +:+ post /\ ds <> "" /\
       take_digits ds = ds).
Proof.
  intros path. split; [|split; [|split]].
  - unfold increment_path_literal. fold path. intros [->| ->]; simpl; [reflexivity|].
    destruct (exists_ fs path); reflexivity.
  - intros He ->. unfold increment_path_literal. fold path. rewrite He. simpl.
    destruct (found_numbers fs path) as [|x i] eqn:Hi.
    + exists 1%N. repeat split; try congruence. intros m H. inversion H.
    + exists (max_N (x :: i) + 1)%N. repeat split; try congruence.
      * intros m H. apply max_N_upper in H. lia.
      * intros _. replace (max_N (x :: i) + 1 - 1)%N with (max_N (x :: i)) by lia.
        apply max_N_elem. congruence.
  - intros m. rewrite found_numbers_spec.
    split; intros (d & ds & Hd & Hs & Hm); exists d, ds;
      (split; [apply glob_star_spec; exact Hd|split; assumption]).
  - intros d ds. apply re_search_digits_sound.
Qed.


(** [mapM] on results. *)
Lemma mapM_ok {A B} (f : A -> result B) (l : list A) (ys : list B) :
  mapM f l = Ok ys <-> Forall2 (fun x y => f x = Ok y) l ys.
Proof.
  revert ys. induction l as [|x l IH]; intros ys.
  - split; [intros H; inversion H; constructor|intros H; inversion H; reflexivity].
  - change (mapM f (x :: l)) with (y ← f x; k ← mapM f l; mret (y :: k)).
    split.
    + intros H.
      destruct (f x) as [y|e] eqn:Ex; [|discriminate].
      cbn [mbind result_bind rbind] in H.
      destruct (mapM f l) as [k|e] eqn:Ek; [|discriminate].
      inversion H; subst. constructor; [exact Ex|]. apply IH. reflexivity.
    + intros H. inversion H as [|x' y l' k Hx Hk]; subst.
      apply IH in Hk. rewrite Hx. cbn [mbind result_bind rbind].
      rewrite Hk. reflexivity.
Qed.

Lemma mapM_fmap {A B} (f : A -> result B) (g : A -> B) (l : list A) :
  (forall x, x ∈ l -> f x = Ok (g x)) -> mapM f l = Ok (g <$> l).
Proof.
  intros H. apply mapM_ok. induction l as [|x l IH]; simpl; constructor.
  - apply H. left.
  - apply IH. intros y Hy. apply H. right. exact Hy.
Qed.

(** A [mapM] that succeeds on a list succeeds on every list of the same
    elements, with the same results. *)
Lemma mapM_subset {A B} (f : A -> result B) (l l' : list A) (ys : list B) :
  mapM f l = Ok ys -> (forall x, x ∈ l' -> x ∈ l) ->
  exists ys', mapM f l' = Ok ys' /\
              forall y, y ∈ ys' <-> exists x, x ∈ l' /\ f x = Ok y.
Proof.
  intros H Hsub. apply mapM_ok in H.
  assert (Hall : forall x, x ∈ l -> exists y, f x = Ok y).
  { intros x Hx. apply list_elem_of_lookup in Hx as [i Hi].
    destruct (Forall2_lookup_l _ _ _ _ _ H Hi) as (y & _ & Hy). eauto. }
  clear H. induction l' as [|x l' IH].
  - exists []. split; [reflexivity|]. intros y. split.
    + intros Hy. inversion Hy.
    + intros (x & Hx & _). inversion Hx.
  - destruct IH as (ys' & Hm & Hys).
    { intros z Hz. apply Hsub. right. exact Hz. }
    destruct (Hall x (Hsub x ltac:(left))) as [y Hy].
    exists (y :: ys'). split.
    + change (mapM f (x :: l')) with (y ← f x; k ← mapM f l'; mret (y :: k)).
      rewrite Hy. cbn [mbind result_bind rbind]. rewrite Hm. reflexivity.
    + intros z. rewrite elem_of_cons, Hys. split.
      * intros [->|(x' & Hx' & Hz)]; [exists x; split; [left|exact Hy]|].
        exists x'. split; [right; exact Hx'|exact Hz].
      * intros (x' & Hx' & Hz). apply elem_of_cons in Hx' as [->|Hx'].
        -- left. congruence.
        -- right. eauto.
Qed.

Lemma omap_id_fmap_Some {A B} (f : A -> option B) (l : list A) :
  omap id ((fun x => Some <$> f x) <$> l) = Some <$> omap f l.
Proof.
  induction l as [|x l IH]; [reflexivity|].
  simpl. destruct (f x); simpl; [f_equal|]; exact IH.
Qed.

Lemma py_max_Z_of_N (x : N) (l : list N) :
  py_max_Z (Z.of_N <$> (x :: l)) = Z.of_N (max_N (x :: l)).
Proof.
  simpl. revert x. induction l as [|y l IH]; intros x; simpl.
  - rewrite N.max_0_r. reflexivity.
  - rewrite <- N2Z.inj_max, IH. simpl. f_equal.
    rewrite N.max_assoc. reflexivity.
Qed.

Lemma all_digits_found (stem d ds : string) :
  re_search_digits stem d = Some ds -> all_digits ds = true.
Proof.
  intros H. apply re_search_digits_sound in H as (_ & _ & _ & Hne & Hd).
  unfold all_digits. rewrite Hd, String.eqb_refl.
  destruct (String.eqb_spec ds ""); [contradiction|reflexivity].
Qed.

(** On a path that both libraries read literally, [increment_path] returns
    what the literal reading gives. *)
Lemma increment_path_plain `{PatternLaws} (fs : filesystem) (p : string)
    (exist_ok : bool) :
  plain (Path p) ->
  increment_path fs p exist_ok = Ok (increment_path_literal fs p exist_ok).
Proof.
  intros (Hparts & Hglob & Hre).
  unfold increment_path, increment_path_literal.
  destruct (_ || _)%bool; [reflexivity|].
  rewrite (glob_of_literal fs (Path p) Hparts Hglob).
  rewrite (mapM_fmap _ (fun d => Some <$> re_search_digits (stem (Path p)) d))
    by (intros d _; apply re_of_literal; exact Hre).
  cbn [mbind result_bind rbind]. rewrite omap_id_fmap_Some.
  rewrite (mapM_fmap _ (fun g => match g with
                                 | Some ds => Z.of_N (int_of_digits ds)
                                 | None => 0
                                 end)).
  2:{ intros g Hg. apply list_elem_of_fmap in Hg as (ds & -> & Hds).
      apply list_elem_of_omap in Hds as (d & _ & Hd).
      apply int_of_decimal. eapply all_digits_found; eauto. }
  cbn [mbind result_bind rbind]. rewrite <- list_fmap_compose.
  change (found_numbers fs (Path p))
    with (int_of_digits <$> omap (re_search_digits (stem (Path p)))
                                 (glob_star fs (str (Path p)))).
  set (ds := omap (re_search_digits (stem (Path p)))
                  (glob_star fs (str (Path p)))).
  f_equal. f_equal.
  replace ((fun g : option string =>
              match g with
              | Some ds0 => Z.of_N (int_of_digits ds0)
              | None => 0
              end) ∘ Some <$> ds)
    with (Z.of_N <$> (int_of_digits <$> ds))
    by (rewrite <- list_fmap_compose; reflexivity).
  destruct (int_of_digits <$> ds) as [|x l] eqn:E; [reflexivity|].
  rewrite py_max_Z_of_N.
  change (pretty (Z.of_N (max_N (x :: l)) + 1))
    with (pretty_Z (Z.of_N (max_N (x :: l)) + 1)).
  replace (Z.of_N (max_N (x :: l)) + 1) with (Z.of_N (max_N (x :: l) + 1))
    by lia.
  destruct (max_N (x :: l) + 1)%N eqn:En; [lia|reflexivity].
Qed.

Lemma string_length_app (s t : string) :
  String.length (s +:+ t) = (String.length s + String.length t)%nat.
Proof.
  induction s as [|a s IH]; [reflexivity|].
  rewrite append_cons. simpl. congruence.
Qed.

Lemma drop_suffix_app (suffix x : string) :
  drop_suffix suffix (x +:+ suffix) = Some x.
Proof.
  induction x as [|a x IH].
  - rewrite append_nil_l. destruct suffix; simpl; rewrite ?Ascii.eqb_refl,
      ?String.eqb_refl; reflexivity.
  - rewrite append_cons. cbn [drop_suffix].
    destruct (String.eqb_spec (String a (x +:+ suffix)) suffix) as [E|_].
    + exfalso. assert (Hl := f_equal String.length E).
      simpl in Hl. rewrite string_length_app in Hl. lia.
    + rewrite IH. reflexivity.
Qed.

(** The literal libraries satisfy the laws. *)
Lemma literal_patterns_laws : PatternLaws literal_patterns.
Proof.
  split.
  - intros fs p _ _. simpl. rewrite drop_suffix_app. reflexivity.
  - intros fs fs' pattern Hfs d. simpl.
    destruct (drop_suffix "*" pattern) as [prefix|]; [|reflexivity].
    rewrite !glob_star_spec, Hfs. reflexivity.
  - intros stem d Hre. simpl. rewrite drop_suffix_app, Hre. reflexivity.
  - intros ds Hds. simpl. rewrite Hds. reflexivity.
Qed.

(** C9. The description of [increment_path] against the code, on paths
    that both libraries read literally.  With the run directory nested
    under a numbered directory of the same stem and no numbered sibling at
    all, the description numbers the new directory 1 and the code numbers it
    4: the search is not anchored to the sibling's name and finds the parent
    directory's number.  With a sibling whose name goes on after the digits,
    the description finds no numbered sibling and the code counts it. *)
Theorem increment_path_not_as_described `{PatternLaws} :
  (let fs := ["runs/exp3/exp"] in
   numeric_suffixes fs (Path "runs/exp3/exp") = [] /\
   described_increment_path fs "runs/exp3/exp" false = "runs/exp3/exp1" /\
   increment_path fs "runs/exp3/exp" false = Ok "runs/exp3/exp4") /\
  (let fs := ["runs/exp"; "runs/exp7_old"] in
   numeric_suffixes fs (Path "runs/exp") = [] /\
   described_increment_path fs "runs/exp" false = "runs/exp1" /\
   increment_path fs "runs/exp" false = Ok "runs/exp8").
Proof.
  split; (split; [reflexivity|split; [reflexivity|]]);
    (rewrite increment_path_plain;
     [reflexivity|split; [discriminate|split; reflexivity]]).
Qed.

Lemma increment_path_not_as_described_witness :
  increment_path (H := literal_patterns) ["runs/exp3/exp"] "runs/exp3/exp" false
  = Ok "runs/exp3/exp4".
Proof.
  exact (proj2 (proj2 (proj1
    (increment_path_not_as_described (H := literal_patterns_laws))))).
Defined.

End PathsProps.

(** ** The training driver *)

Module TrainProps.
Import Paths Train.

(** Closes an equation between closed terms by evaluating both sides. *)
Ltac vm_refl :=
  lazymatch goal with
  | |- ?l = ?r => exact (@eq_refl _ r <: l = r)
  end.

Section CheckpointPolicy.
Context {FL : Float} {FW : Framework} {FO : FloatOrder FL}.

Lemma fle_refl (x : float) : fle x x.
Proof. left. reflexivity. Qed.

Lemma fle_trans (x y z : float) : fle x y -> fle y z -> fle x z.
Proof.
  intros [->|Hxy] [->|Hyz]; try (left; reflexivity); try (right; assumption).
  right. eapply flt_trans; eauto.
Qed.

Lemma py_max_fle (a b : float) : fle a (py_max a b).
Proof. unfold py_max. destruct (flt a b) eqn:E; [right|left]; auto. Qed.

Lemma py_min_fle (a b : float) : fle (py_min a b) a.
Proof. unfold py_min. destruct (flt b a) eqn:E; [right|left]; auto. Qed.

Lemma checkpoint_best sd w b acc loss f1 :
  fst (checkpoint sd w b acc loss f1)
  = Best (py_max (best_val_acc b) acc) (py_min (best_val_loss b) loss)
         (py_max (best_f1_score b) f1).
Proof.
  unfold checkpoint. destruct (flt (best_f1_score b) f1) eqn:E; simpl;
    unfold py_max; rewrite E; reflexivity.
Qed.

Lemma checkpoint_events sd w b acc loss f1 :
  snd (checkpoint sd w b acc loss f1)
  = (if flt (best_f1_score b) f1 then [ESave (sd +:+ "/best.pth") w] else [])
    ++ [ESave (sd +:+ "/last.pth") w].
Proof. unfold checkpoint. destruct (flt (best_f1_score b) f1); reflexivity. Qed.

Lemma best_after_app sd pre rest b :
  best_after sd (pre ++ rest) b = best_after sd rest (best_after sd pre b).
Proof.
  revert b. induction pre as [|[[[w acc] loss] f1] pre IH]; intros b; simpl; auto.
Qed.

Lemma checkpoints_app sd pre rest b :
  checkpoints sd (pre ++ rest) b
  = checkpoints sd pre b ++ checkpoints sd rest (best_after sd pre b).
Proof.
  revert b. induction pre as [|[[[w acc] loss] f1] pre IH]; intros b; simpl; auto.
  rewrite IH. reflexivity.
Qed.

Lemma checkpoints_length sd es b : length (checkpoints sd es b) = length es.
Proof.
  revert b. induction es as [|[[[w acc] loss] f1] es IH]; intros b; simpl; auto.
Qed.

(** The three best metrics only ever move one way. *)
Lemma best_after_monotone sd es b :
  fle (best_f1_score b) (best_f1_score (best_after sd es b)) /\
  fle (best_val_acc b) (best_val_acc (best_after sd es b)) /\
  fle (best_val_loss (best_after sd es b)) (best_val_loss b).
Proof.
  revert b. induction es as [|[[[w acc] loss] f1] es IH]; intros b; simpl.
  - auto using fle_refl.
  - destruct (IH (fst (checkpoint sd w b acc loss f1))) as (H1 & H2 & H3).
    rewrite checkpoint_best in H1, H2, H3. simpl in H1, H2, H3.
    rewrite checkpoint_best.
    repeat split; eapply fle_trans; eauto using py_max_fle, py_min_fle.
Qed.

(** The best F1 is the initial one or the F1 of an earlier epoch. *)
Lemma best_f1_origin sd es b :
  best_f1_score (best_after sd es b) = best_f1_score b \/
  exists w acc loss, (w, acc, loss, best_f1_score (best_after sd es b)) ∈ es.
Proof.
  revert b. induction es as [|[[[w acc] loss] f1] es IH]; intros b; simpl.
  - left. reflexivity.
  - destruct (IH (fst (checkpoint sd w b acc loss f1))) as [E|(w' & a' & l' & Hin)].
    + rewrite E, checkpoint_best. simpl. unfold py_max.
      destruct (flt (best_f1_score b) f1); [right|left; reflexivity].
      exists w, acc, loss. left.
    + right. exists w', a', l'. right. exact Hin.
Qed.

(** No earlier epoch had an F1 above the best one. *)
Lemma best_f1_not_exceeded sd es b w acc loss f1 :
  (w, acc, loss, f1) ∈ es ->
  flt (best_f1_score (best_after sd es b)) f1 = false.
Proof.
  revert b. induction es as [|[[[w' acc'] loss'] f1'] es IH]; intros b Hin.
  - inversion Hin.
  - apply elem_of_cons in Hin as [E|Hin]; [|apply IH; exact Hin].
    inversion E; subst. simpl.
    set (b' := fst (checkpoint sd w' b acc' loss' f1')).
    assert (Hb' : flt (best_f1_score b') f1' = false).
    { unfold b'. rewrite checkpoint_best. simpl. unfold py_max.
      destruct (flt (best_f1_score b) f1') eqn:E'; auto using flt_irrefl. }
    destruct (best_after_monotone sd es b') as ([E'|Hlt] & _).
    + rewrite <- E'. exact Hb'.
    + destruct (flt (best_f1_score (best_after sd es b')) f1') eqn:Hc; auto.
      rewrite (flt_trans _ _ _ Hlt Hc) in Hb'. discriminate.
Qed.

Lemma best_last_distinct (sd : string) : sd +:+ "/best.pth" <> sd +:+ "/last.pth".
Proof.
  induction sd as [|c sd IH].
  - discriminate.
  - rewrite !PathsProps.append_cons. intros H. inversion H. auto.
Qed.

(** The checkpoint policy over the weights and metrics of successive
    epochs: the last weights are saved every time, and the best ones exactly
    when the F1 is strictly above the best F1 so far, which starts at 0, is
    always 0 or the F1 of an earlier epoch, and is exceeded by no earlier
    epoch; nothing else is saved.  The best F1 and the best accuracy never
    decrease and the best loss never increases. *)
Lemma checkpoint_policy_over_epochs (sd : string)
    (pre post : list (weights * float * float * float))
    (w : weights) (acc loss f1 : float) :
  let es := pre ++ (w, acc, loss, f1) :: post in
  let b := best_after sd pre initial_best in
  let r := checkpoint sd w b acc loss f1 in
  checkpoints sd es initial_best !! length pre = Some r /\
  last (snd r) = Some (ESave (sd +:+ "/last.pth") w) /\
  (ESave (sd +:+ "/best.pth") w ∈ snd r <-> flt (best_f1_score b) f1 = true) /\
  (forall e, e ∈ snd r ->
     e = ESave (sd +:+ "/best.pth") w \/ e = ESave (sd +:+ "/last.pth") w) /\
  (best_f1_score b = of_int 0 \/
   exists w' acc' loss', (w', acc', loss', best_f1_score b) ∈ pre) /\
  (forall w' acc' loss' f1',
     (w', acc', loss', f1') ∈ pre -> flt (best_f1_score b) f1' = false) /\
  (forall i j, (i <= j)%nat ->
     let bi := best_after sd (take i es) initial_best in
     let bj := best_after sd (take j es) initial_best in
     fle (best_f1_score bi) (best_f1_score bj) /\
     fle (best_val_acc bi) (best_val_acc bj) /\
     fle (best_val_loss bj) (best_val_loss bi)).
Proof.
  intros es b r. split; [|split; [|split; [|split; [|split; [|split]]]]].
  - unfold es. rewrite checkpoints_app.
    rewrite lookup_app_r by (rewrite checkpoints_length; lia).
    rewrite checkpoints_length, Nat.sub_diag. reflexivity.
  - unfold r. rewrite checkpoint_events. apply last_snoc.
  - unfold r. rewrite checkpoint_events.
    destruct (flt (best_f1_score b) f1); simpl.
    + split; auto. intros _. left.
    + split; [|discriminate]. intros H. apply list_elem_of_singleton in H.
      inversion H as [Hp]. destruct (best_last_distinct sd Hp).
  - intros e. unfold r. rewrite checkpoint_events.
    destruct (flt (best_f1_score b) f1); simpl; intros H;
      repeat (apply elem_of_cons in H as [->|H]; auto); inversion H.
  - apply (best_f1_origin sd pre initial_best).
  - intros w' acc' loss' f1'. apply best_f1_not_exceeded.
  - intros i j Hij bi bj. unfold bi, bj.
    replace (take j es) with (take i es ++ drop i (take j es)).
    + rewrite best_after_app. apply best_after_monotone.
    + transitivity (take i (take j es) ++ drop i (take j es)).
      * rewrite take_take, Nat.min_l by lia. reflexivity.
      * apply take_drop.
Qed.

End CheckpointPolicy.

Lemma Qltb_irrefl (a : Q) : Qltb a a = false.
Proof. unfold Qltb. apply Z.ltb_irrefl. Qed.

Lemma Qltb_trans (a b c : Q) : Qltb a b = true -> Qltb b c = true -> Qltb a c = true.
Proof.
  unfold Qltb. rewrite !Z.ltb_lt. destruct a as [an ad], b as [bn bd], c as [cn cd].
  simpl. intros H1 H2.
  assert (H : (an * Z.pos cd * Z.pos bd < cn * Z.pos ad * Z.pos bd)%Z) by nia.
  nia.
Qed.

#[global] Instance exact_float_order : FloatOrder exact_float.
Proof.
  split.
  - intros [| |q|]; simpl; auto using Qltb_irrefl.
  - intros [| |a|] [| |b|] [| |c|]; simpl; try discriminate; auto.
    apply Qltb_trans.
Qed.

Section TrainLogging.
Context {FL : Float} {FW : Framework}.

Lemma account_skip (a : args) (epoch n idx : nat) item gain m :
  log_interval a <> 0 ->
  (Z.of_nat idx + 1) mod log_interval a <> 0 ->
  account a epoch n idx item gain m
  = Ok (Meters (fadd (loss_value m) item) (matches m + gain), []).
Proof.
  intros HL Hm. unfold account.
  destruct (Z.eqb_spec (log_interval a) 0); [contradiction|].
  destruct (Z.eqb_spec ((Z.of_nat idx + 1) mod log_interval a) 0);
    [contradiction|reflexivity].
Qed.

Lemma account_log (a : args) (epoch n idx : nat) item gain m :
  log_interval a <> 0 -> batch_size a <> 0 ->
  (Z.of_nat idx + 1) mod log_interval a = 0 ->
  account a epoch n idx item gain m
  = Ok (Meters (of_int 0) 0,
        let step := Z.of_nat epoch * Z.of_nat n + Z.of_nat idx in
        [EScalar "Train/loss"
           (fdiv (fadd (loss_value m) item) (of_int (log_interval a))) step;
         EScalar "Train/accuracy"
           (fdiv (fdiv (of_int (matches m + gain)) (of_int (batch_size a)))
                 (of_int (log_interval a))) step]).
Proof.
  intros HL HB Hm. unfold account, py_div.
  destruct (Z.eqb_spec (log_interval a) 0); [contradiction|].
  destruct (Z.eqb_spec ((Z.of_nat idx + 1) mod log_interval a) 0);
    [|contradiction].
  destruct (Z.eqb_spec (batch_size a) 0); [contradiction|]. reflexivity.
Qed.

Lemma sum_Z_app (xs ys : list Z) : sum_Z (xs ++ ys) = sum_Z xs + sum_Z ys.
Proof. induction xs as [|x xs IH]; simpl; lia. Qed.

(** Batches that end no window only add to the running sums. *)
Lemma account_all_quiet (a : args) (epoch n : nat) items :
  forall idx m,
  log_interval a <> 0 ->
  (forall i, (i < length items)%nat ->
             (Z.of_nat (idx + i) + 1) mod log_interval a <> 0) ->
  account_all a epoch n idx items m
  = Ok (Meters (summed_loss items (loss_value m))
               (matches m + summed_matches items), []).
Proof.
  induction items as [|[item gain] items IH]; intros idx m HL Hq; simpl.
  - unfold summed_matches. simpl. rewrite Z.add_0_r. destruct m; reflexivity.
  - rewrite account_skip; auto.
    2: { specialize (Hq O ltac:(simpl; lia)). rewrite Nat.add_0_r in Hq. exact Hq. }
    simpl. rewrite IH; auto.
    + simpl. unfold summed_loss, summed_matches. simpl.
      rewrite Z.add_assoc. reflexivity.
    + intros i Hi. specialize (Hq (S i) ltac:(simpl; lia)).
      replace (S idx + i)%nat with (idx + S i)%nat by lia. exact Hq.
Qed.

Lemma account_all_app (a : args) (epoch n : nat) xs ys :
  forall idx m,
  account_all a epoch n idx (xs ++ ys) m
  = '(m', evs) ← account_all a epoch n idx xs m;
    '(m'', evs') ← account_all a epoch n (idx + length xs) ys m';
    Ok (m'', evs ++ evs').
Proof.
  induction xs as [|[item gain] xs IH]; intros idx m; simpl.
  - rewrite Nat.add_0_r.
    destruct (account_all a epoch n idx ys m) as [[m' evs]|e]; reflexivity.
  - destruct (account a epoch n idx item gain m) as [[m1 evs1]|e]; simpl; auto.
    rewrite IH. replace (S idx + length xs)%nat with (idx + S (length xs))%nat by lia.
    destruct (account_all a epoch n (S idx) xs m1) as [[m2 evs2]|e]; simpl; auto.
    destruct (account_all a epoch n (idx + S (length xs)) ys m2)
      as [[m3 evs3]|e]; simpl; auto.
    rewrite app_assoc. reflexivity.
Qed.

Lemma summed_loss_snoc items item from :
  summed_loss (items ++ [item]) from = fadd (summed_loss items from) (fst item).
Proof. unfold summed_loss. rewrite fmap_app, fold_left_app. reflexivity. Qed.

Lemma summed_matches_snoc items item :
  summed_matches (items ++ [item]) = summed_matches items + snd item.
Proof.
  unfold summed_matches. rewrite fmap_app, sum_Z_app. simpl. lia.
Qed.

(** A full window starting on a multiple of [log_interval] logs its own
    sums once, at its last batch, and leaves the running sums at zero. *)
Lemma account_all_window (a : args) (epoch n w : nat) its :
  0 < log_interval a -> batch_size a <> 0 ->
  length its = Z.to_nat (log_interval a) ->
  account_all a epoch n (w * Z.to_nat (log_interval a)) its (Meters (of_int 0) 0)
  = Ok (Meters (of_int 0) 0,
        let step := Z.of_nat epoch * Z.of_nat n
                    + Z.of_nat ((w + 1) * Z.to_nat (log_interval a) - 1) in
        [EScalar "Train/loss"
           (fdiv (summed_loss its (of_int 0)) (of_int (log_interval a))) step;
         EScalar "Train/accuracy"
           (fdiv (fdiv (of_int (summed_matches its)) (of_int (batch_size a)))
                 (of_int (log_interval a))) step]).
Proof.
  intros HL HB Hlen. set (L := Z.to_nat (log_interval a)) in *.
  assert (HLz : Z.of_nat L = log_interval a) by (unfold L; lia).
  induction its as [|lst front _] using rev_ind.
  { simpl in Hlen. lia. }
  rewrite length_app in Hlen. simpl in Hlen.
  rewrite account_all_app, account_all_quiet; [|lia|].
  2: { intros i Hi. rewrite <- HLz.
       replace (Z.of_nat (w * L + i) + 1) with (Z.of_nat (i + 1) + Z.of_nat w * Z.of_nat L) by lia.
       rewrite Z_mod_plus_full, Z.mod_small by lia. lia. }
  simpl. destruct lst as [item gain]. simpl.
  rewrite account_log; auto; [|lia|].
  2: { rewrite <- HLz.
       replace (Z.of_nat (w * L + length front) + 1)
         with (0 + (Z.of_nat w + 1) * Z.of_nat L) by lia.
       rewrite Z_mod_plus_full. apply Z.mod_0_l. lia. }
  simpl. rewrite summed_loss_snoc, summed_matches_snoc. simpl.
  replace (w * L + length front)%nat with ((w + 1) * L - 1)%nat by lia.
  reflexivity.
Qed.

Lemma div_succ_inv (len L q : nat) :
  (0 < L)%nat -> (len / L = S q)%nat -> (L <= len)%nat /\ ((len - L) / L = q)%nat.
Proof.
  intros HL Hq. pose proof (Nat.div_mod_eq len L) as Hd. rewrite Hq in Hd.
  pose proof (Nat.mod_upper_bound len L ltac:(lia)) as Hr.
  split; [nia|]. symmetry. apply (Nat.div_unique _ _ _ (len mod L)); [lia|nia].
Qed.

Lemma account_all_windows (a : args) (epoch n : nat) (items0 : list (float * Z)) :
  0 < log_interval a -> batch_size a <> 0 ->
  let L := Z.to_nat (log_interval a) in
  forall q w0 rest,
    drop (w0 * L) items0 = rest -> (length rest / L = q)%nat ->
    account_all a epoch n (w0 * L) rest (Meters (of_int 0) 0)
    = Ok (Meters (summed_loss (drop (q * L) rest) (of_int 0))
                 (summed_matches (drop (q * L) rest)),
          flat_map (window_logs a epoch n items0) (seq w0 q)).
Proof.
  intros HL HB L. assert (HLn : (0 < L)%nat) by (unfold L; lia).
  assert (HLz : Z.of_nat L = log_interval a) by (unfold L; lia).
  induction q as [|q IH]; intros w0 rest Hrest Hq.
  - simpl. rewrite drop_0. rewrite account_all_quiet; [|lia|].
    + simpl. reflexivity.
    + intros i Hi. apply Nat.div_small_iff in Hq; [|lia].
      rewrite <- HLz.
      replace (Z.of_nat (w0 * L + i) + 1)
        with (Z.of_nat (i + 1) + Z.of_nat w0 * Z.of_nat L) by lia.
      rewrite Z_mod_plus_full, Z.mod_small by lia. lia.
  - destruct (div_succ_inv _ _ _ HLn Hq) as [Hle Hq'].
    rewrite <- (take_drop L rest) at 1.
    rewrite account_all_app.
    pose proof (account_all_window a epoch n w0 (take L rest) HL HB) as Hw.
    fold L in Hw. rewrite Hw by (rewrite length_take; lia). clear Hw.
    simpl. rewrite length_take, Nat.min_l by lia.
    replace (w0 * L + L)%nat with (S w0 * L)%nat by lia.
    rewrite (IH (S w0) (drop L rest)).
    + simpl. rewrite drop_drop. unfold window_logs at 2, window. fold L.
      rewrite Hrest. replace (L + q * L)%nat with (L + q * L)%nat by lia.
      reflexivity.
    + rewrite <- Hrest, drop_drop. f_equal. lia.
    + rewrite length_drop. exact Hq'.
Qed.

Lemma windows_partition {A} (L q : nat) (items : list A) :
  concat ((fun w => window L w items) <$> seq 0 q) = take (q * L) items.
Proof.
  induction q as [|q IH]; [reflexivity|].
  rewrite seq_S, fmap_app, concat_app, IH. simpl. rewrite app_nil_r.
  unfold window. rewrite take_take_drop. f_equal. lia.
Qed.

(** The bookkeeping of a whole epoch: one pair of scalars per full window of
    [log_interval] batches, and the sums of the batches after the last full
    window left in the meters. *)
Lemma logging_windows (a : args) (epoch n : nat)
    (items : list (float * Z)) :
  0 < log_interval a -> batch_size a <> 0 ->
  let L := Z.to_nat (log_interval a) in
  let q := (length items / L)%nat in
  account_all a epoch n 0 items (Meters (of_int 0) 0)
  = Ok (Meters (summed_loss (drop (q * L) items) (of_int 0))
               (summed_matches (drop (q * L) items)),
        flat_map (window_logs a epoch n items) (seq 0 q)) /\
  (forall w,
     window_logs a epoch n items w
     = let its := take L (drop (w * L) items) in
       let step := Z.of_nat epoch * Z.of_nat n + Z.of_nat ((w + 1) * L - 1) in
       [EScalar "Train/loss"
          (fdiv (fold_left fadd (fst <$> its) (of_int 0))
                (of_int (log_interval a))) step;
        EScalar "Train/accuracy"
          (fdiv (fdiv (of_int (sum_Z (snd <$> its))) (of_int (batch_size a)))
                (of_int (log_interval a))) step]) /\
  ((forall x, fdiv (fdiv x (of_int (batch_size a))) (of_int (log_interval a))
              = fdiv x (of_int (batch_size a * log_interval a))) ->
   forall w e, window_logs a epoch n items w !! 1%nat = Some e ->
     e = EScalar "Train/accuracy"
           (fdiv (of_int (sum_Z (snd <$> take L (drop (w * L) items))))
                 (of_int (batch_size a * log_interval a)))
           (Z.of_nat epoch * Z.of_nat n + Z.of_nat ((w + 1) * L - 1))) /\
  concat ((fun w => window L w items) <$> seq 0 q) ++ drop (q * L) items = items.
Proof.
  intros HL HB L q. split; [|split; [|split]].
  - apply (account_all_windows a epoch n items HL HB q 0 items); reflexivity.
  - reflexivity.
  - intros Hexact w e He. simpl in He. inversion He; subst e.
    rewrite Hexact. reflexivity.
  - rewrite windows_partition. apply take_drop.
Qed.

End TrainLogging.

Lemma exact_division_twice (b l : Z) (x : xfloat) :
  0 < b -> 0 < l ->
  xdiv (xdiv x (Fin (inject_Z b))) (Fin (inject_Z l))
  = xdiv x (Fin (inject_Z (b * l))).
Proof.
  intros Hb Hl.
  assert (Eb : (b ?= 0)%Z = Gt) by (apply Z.compare_gt_iff; lia).
  assert (El : (l ?= 0)%Z = Gt) by (apply Z.compare_gt_iff; lia).
  assert (Ebl : (b * l ?= 0)%Z = Gt) by (apply Z.compare_gt_iff; lia).
  destruct x as [| |q|]; simpl; rewrite ?Eb, ?Ebl; simpl; rewrite ?El;
    try reflexivity.
  f_equal. apply Qred_complete. rewrite Qred_correct, inject_Z_mult.
  field. split; intros H; unfold Qeq in H; simpl in H; lia.
Qed.

Section Traces.
Context {FL : Float} {FW : Framework}.

Lemma yields_ret {A} (P : event -> Prop) (Q : A -> Prop) (x : A) :
  Q x -> yields P Q (mret x).
Proof. intros H s. simpl. split; auto. exists []. rewrite app_nil_r. auto. Qed.

Lemma yields_lift {A} (P : event -> Prop) (r : result A) :
  yields P (fun _ => True) (lift r).
Proof.
  intros s. simpl. split; [|destruct r; auto].
  exists []. rewrite app_nil_r. auto.
Qed.

Lemma yields_emit (P : event -> Prop) (e : event) :
  P e -> yields P (fun _ => True) (emit e).
Proof. intros H s. simpl. split; auto. exists [e]. auto. Qed.

Lemma yields_get_net (P : event -> Prop) : yields P (fun _ => True) get_net.
Proof.
  intros s. simpl. split; [|destruct (read_local (model_var s)); auto].
  exists []. rewrite app_nil_r. auto.
Qed.

Lemma yields_get_loss (P : event -> Prop) : yields P (fun _ => True) get_loss.
Proof.
  intros s. simpl. split; [|destruct (read_local (loss_var s)); auto].
  exists []. rewrite app_nil_r. auto.
Qed.

Lemma yields_set_net (P : event -> Prop) w : yields P (fun _ => True) (set_net w).
Proof. intros s. simpl. split; auto. exists []. rewrite app_nil_r. auto. Qed.

Lemma yields_set_loss (P : event -> Prop) x : yields P (fun _ => True) (set_loss x).
Proof. intros s. simpl. split; auto. exists []. rewrite app_nil_r. auto. Qed.

Lemma yields_bind {A B} (P : event -> Prop) (Q : A -> Prop) (R : B -> Prop)
    (m : M A) (k : A -> M B) :
  yields P Q m -> (forall x, Q x -> yields P R (k x)) ->
  yields P R (mbind k m).
Proof.
  intros Hm Hk s. unfold mbind, M_bind, bind_M.
  destruct (Hm s) as [(evs & Ht & HP) HQ].
  destruct (m s) as [[x|e] s1]; simpl in *.
  - destruct (Hk x HQ s1) as [(evs' & Ht' & HP') HR]. split; auto.
    exists (evs ++ evs'). rewrite Ht', Ht, app_assoc. split; auto.
    apply Forall_app; auto.
  - split; auto. exists evs. auto.
Qed.

Lemma yields_bind_any {A B} (P : event -> Prop) (R : B -> Prop)
    (m : M A) (k : A -> M B) :
  yields P (fun _ => True) m -> (forall x, yields P R (k x)) ->
  yields P R (mbind k m).
Proof. intros Hm Hk. apply (yields_bind P (fun _ => True)); auto. Qed.

Lemma yields_weaken {A} (P P' : event -> Prop) (Q Q' : A -> Prop) (m : M A) :
  (forall e, P e -> P' e) -> (forall x, Q x -> Q' x) ->
  yields P Q m -> yields P' Q' m.
Proof.
  intros HP HQ Hm s. destruct (Hm s) as [(evs & Ht & Hf) Hq]. split.
  - exists evs. split; auto. eapply Forall_impl; eauto.
  - destruct (fst (m s)); auto.
Qed.

Lemma yields_emit_all (P : event -> Prop) (evs : list event) :
  Forall P evs -> yields P (fun _ => True) (emit_all evs).
Proof.
  induction evs as [|e evs IH]; intros H; simpl.
  - apply yields_ret. auto.
  - inversion H; subst. apply yields_bind_any; [apply yields_emit; auto|].
    intros _. auto.
Qed.

End Traces.

(** Walks through a computation of the driver, one bind at a time. *)
Ltac yields_step :=
  lazymatch goal with
  | |- yields _ _ (mret _) => apply yields_ret; auto
  | |- yields _ _ (lift _) => apply yields_lift
  | |- yields _ _ (emit _) => apply yields_emit
  | |- yields _ _ get_net => apply yields_get_net
  | |- yields _ _ get_loss => apply yields_get_loss
  | |- yields _ _ (set_net _) => apply yields_set_net
  | |- yields _ _ (set_loss _) => apply yields_set_loss
  | |- yields _ _ (emit_all _) => apply yields_emit_all
  | |- yields _ _ (call_model _ _) => unfold call_model
  | |- yields _ _ (mbind _ _) => apply yields_bind_any; [|intros ?]
  | |- yields _ _ (if ?c then _ else _) => destruct c
  | |- yields _ _ (match ?x with _ => _ end) => destruct x
  end.

Section DriverTraces.
Context {FL : Float} {FW : Framework}.

(** A training step logs nothing and writes no file. *)
Lemma train_batch_silent (a : args) (lc : locals) (epoch idx : nat) b :
  yields silent (fun _ => True) (train_batch a lc epoch idx b).
Proof.
  unfold train_batch. destruct b as [inputs labels].
  repeat yields_step; reflexivity.
Qed.

Lemma val_batch_silent (a : args) (lc : locals) b v :
  yields silent (fun _ => True) (val_batch a lc b v).
Proof.
  unfold val_batch. destruct b as [inputs labels].
  repeat yields_step; reflexivity.
Qed.

Lemma val_loop_silent (a : args) (lc : locals) batches :
  forall v, yields silent (fun _ => True) (val_loop a lc batches v).
Proof.
  induction batches as [|b rest IH]; intros v; simpl.
  - yields_step.
  - apply yields_bind_any; [apply val_batch_silent|auto].
Qed.

Lemma emit_all_run (evs : list event) (s : store) :
  emit_all evs s = (Ok tt, Store (model_var s) (loss_var s) (trace s ++ evs)).
Proof.
  revert s. induction evs as [|e evs IH]; intros s; simpl.
  - rewrite app_nil_r. destruct s; reflexivity.
  - unfold mbind, M_bind, bind_M. simpl. rewrite IH. simpl.
    rewrite <- app_assoc. reflexivity.
Qed.

Lemma silent_no_scalars (evs : list event) :
  Forall silent evs -> List.filter is_scalar evs = [].
Proof.
  induction 1 as [|e evs He _ IH]; simpl; [reflexivity|].
  destruct e; try discriminate He; exact IH.
Qed.

Lemma account_scalars (a : args) (epoch n idx : nat) item gain m m' evs :
  account a epoch n idx item gain m = Ok (m', evs) ->
  List.filter is_scalar evs = evs.
Proof.
  unfold account, py_div. intros H.
  repeat match type of H with
         | context [if ?c then _ else _] => destruct c; simpl in H
         end; inversion H; reflexivity.
Qed.

(** The training loop is its steps interleaved with the bookkeeping of
    [account_all]: when it completes, the scalars it logged are those that
    the bookkeeping produces from the loss items and match counts which the
    steps returned. *)
Lemma train_loop_items (a : args) (lc : locals) (epoch n : nat) batches :
  forall idx m s m' s',
  train_loop a lc epoch n idx batches m s = (Ok m', s') ->
  exists items evs new,
    length items = length batches /\
    (forall i b, batches !! i = Some b ->
       exists it s1, items !! i = Some it /\
                     fst (train_batch a lc epoch (idx + i) b s1) = Ok it) /\
    account_all a epoch n idx items m = Ok (m', evs) /\
    trace s' = trace s ++ new /\
    List.filter is_scalar new = evs.
Proof.
  induction batches as [|b rest IH]; intros idx m s m' s' H.
  - inversion H; subst. exists [], [], []. rewrite app_nil_r.
    repeat split; auto. intros i b Hb. inversion Hb.
  - simpl in H. unfold mbind, M_bind, bind_M in H.
    destruct (train_batch_silent a lc epoch idx b s) as [(evs1 & Ht1 & Hs1) _].
    destruct (train_batch a lc epoch idx b s) as [[[item gain]|e] s1] eqn:Hb;
      [|discriminate].
    simpl in Ht1. unfold lift in H.
    destruct (account a epoch n idx item gain m) as [[m1 evsA]|e] eqn:Ha;
      [|discriminate].
    rewrite emit_all_run in H.
    destruct (IH _ _ _ _ _ H)
      as (items & evs & new & Hlen & Hit & Hacc & Ht & Hf).
    exists ((item, gain) :: items), (evsA ++ evs), (evs1 ++ evsA ++ new).
    simpl in Ht. repeat split.
    + simpl. congruence.
    + intros [|i] b' Hb'; simpl in Hb'.
      * inversion Hb'; subst b'. exists (item, gain), s.
        rewrite Nat.add_0_r, Hb. auto.
      * destruct (Hit i b' Hb') as (it & s1' & Hi & Hr).
        exists it, s1'. simpl. split; auto.
        replace (idx + S i)%nat with (S idx + i)%nat by lia. exact Hr.
    + simpl. rewrite Ha. simpl. rewrite Hacc. reflexivity.
    + rewrite Ht, Ht1, <- !app_assoc. reflexivity.
    + rewrite !List.filter_app, (silent_no_scalars _ Hs1),
        (account_scalars _ _ _ _ _ _ _ _ _ Ha), Hf. reflexivity.
Qed.

(** C5. When the training loop of an epoch completes, the scalars it has
    logged are, for every run of [log_interval] consecutive batches, one
    Train/loss and one Train/accuracy entry at the run's last batch, that is
    at global step [epoch * len(train_loader) + idx]: the loss items of the
    run summed from zero and divided by [log_interval], and the run's match
    count divided by [batch_size] and then by [log_interval] (the match count
    over [batch_size * log_interval] wherever dividing twice is dividing by
    the product).  Both running sums restart at zero after each entry: the
    runs are the successive, disjoint windows of the epoch's batches, and
    what the meters hold at the end are the sums of the batches after the
    last full window. *)
Theorem train_loop_logging (a : args) (lc : locals) (epoch : nat)
    (batches : list (list image * pyval ints)) (s s' : store) (m' : meters) :
  0 < log_interval a -> batch_size a <> 0 ->
  train_loop a lc epoch (length batches) 0 batches (Meters (of_int 0) 0) s
  = (Ok m', s') ->
  let n := length batches in
  let L := Z.to_nat (log_interval a) in
  let q := (n / L)%nat in
  let step w := Z.of_nat epoch * Z.of_nat n + Z.of_nat ((w + 1) * L - 1) in
  exists (items : list (float * Z)) (new : list event),
    length items = n /\
    (forall i b, batches !! i = Some b ->
       exists it s1, items !! i = Some it /\
                     fst (train_batch a lc epoch i b s1) = Ok it) /\
    trace s' = trace s ++ new /\
    List.filter is_scalar new
    = flat_map (fun w =>
        let its := take L (drop (w * L) items) in
        [EScalar "Train/loss"
           (fdiv (fold_left fadd (fst <$> its) (of_int 0))
                 (of_int (log_interval a))) (step w);
         EScalar "Train/accuracy"
           (fdiv (fdiv (of_int (sum_Z (snd <$> its))) (of_int (batch_size a)))
                 (of_int (log_interval a))) (step w)]) (seq 0 q) /\
    ((forall x, fdiv (fdiv x (of_int (batch_size a))) (of_int (log_interval a))
                = fdiv x (of_int (batch_size a * log_interval a))) ->
     List.filter is_scalar new
     = flat_map (fun w =>
         let its := take L (drop (w * L) items) in
         [EScalar "Train/loss"
            (fdiv (fold_left fadd (fst <$> its) (of_int 0))
                  (of_int (log_interval a))) (step w);
          EScalar "Train/accuracy"
            (fdiv (of_int (sum_Z (snd <$> its)))
                  (of_int (batch_size a * log_interval a))) (step w)])
         (seq 0 q)) /\
    m' = Meters (fold_left fadd (fst <$> drop (q * L) items) (of_int 0))
                (sum_Z (snd <$> drop (q * L) items)) /\
    concat ((fun w => take L (drop (w * L) items)) <$> seq 0 q)
      ++ drop (q * L) items = items.
Proof.
  intros HL HB Hrun n L q step.
  destruct (train_loop_items _ _ _ _ _ _ _ _ _ _ Hrun)
    as (items & evs & new & Hlen & Hit & Hacc & Ht & Hf).
  destruct (logging_windows a epoch (length batches) items HL HB)
    as (Hw & _ & _ & Hpart).
  rewrite Hacc in Hw. assert (Hm := f_equal (fun r => match r with
    | Ok (m, _) => m | Err _ => m' end) Hw).
  assert (Hevs := f_equal (fun r => match r with
    | Ok (_, e) => e | Err _ => evs end) Hw). simpl in Hm, Hevs. clear Hw.
  fold L in Hevs, Hpart, Hm. rewrite Hlen in Hevs, Hpart, Hm. fold n q in Hevs, Hpart, Hm.
  exists items, new. split; [exact Hlen|]. split; [exact Hit|].
  split; [exact Ht|]. split; [|split; [|split]].
  - rewrite Hf, Hevs. reflexivity.
  - intros Hexact. rewrite Hf, Hevs. apply flat_map_ext. intros w.
    unfold window_logs, window, summed_loss, summed_matches. fold L.
    rewrite Hexact. reflexivity.
  - rewrite Hm. reflexivity.
  - exact Hpart.
Qed.

End DriverTraces.

Lemma train_loop_logging_witness :
  let a := demo_args "multi_label" "multi_label" (Fin 0) in
  let lc := demo_locals true a [] [] in
  let s' := snd (train_loop a lc 3 5 0 (replicate 5 demo_train_batch)
                            (Meters (of_int 0) 0) (demo_store true)) in
  exists (items : list (xfloat * Z)) new,
    length items = 5%nat /\
    trace s' = new /\
    List.filter is_scalar new
    = flat_map (fun w =>
        let its := take 2 (drop (w * 2) items) in
        [@EScalar exact_float (demo_framework true) "Train/loss"
           (xdiv (fold_left xadd (fst <$> its) (Fin 0)) (Fin 2))
           (15 + Z.of_nat ((w + 1) * 2 - 1));
         @EScalar exact_float (demo_framework true) "Train/accuracy"
           (xdiv (Fin (inject_Z (sum_Z (snd <$> its)))) (Fin 4))
           (15 + Z.of_nat ((w + 1) * 2 - 1))]) [0; 1]%nat.
Proof.
  intros a lc s'.
  assert (Hrun : exists m',
            train_loop a lc 3 (length (replicate 5 demo_train_batch)) 0
                       (replicate 5 demo_train_batch) (Meters (of_int 0) 0)
                       (demo_store true) = (Ok m', s')).
  { assert (Hok : is_ok (fst (train_loop a lc 3
                    (length (replicate 5 demo_train_batch)) 0
                    (replicate 5 demo_train_batch) (Meters (of_int 0) 0)
                    (demo_store true))) = true) by vm_refl.
    unfold s'. change (length (replicate 5 demo_train_batch)) with 5%nat in *.
    destruct (train_loop a lc 3 5 0 (replicate 5 demo_train_batch)
                         (Meters (of_int 0) 0) (demo_store true))
      as [[m'|e] s1]; [exists m'; reflexivity|discriminate Hok]. }
  destruct Hrun as [m' Hrun].
  destruct (train_loop_logging a lc 3 _ _ _ _ ltac:(reflexivity)
              ltac:(discriminate) Hrun)
    as (items & new & Hlen & _ & Ht & _ & Hf & _).
  exists items, new. split; [exact Hlen|]. split; [exact Ht|].
  apply Hf. intros x. apply (exact_division_twice 2 2); reflexivity.
Defined.

Section Steps.
Context {FL : Float} {FW : Framework}.

Lemma yields_lift_post {A} (P : event -> Prop) (Q : A -> Prop) (r : result A) :
  (forall x, r = Ok x -> Q x) -> yields P Q (lift r).
Proof.
  intros H s. simpl. split; [|destruct r; auto].
  exists []. rewrite app_nil_r. auto.
Qed.

Lemma yields_new_events {A} (P : event -> Prop) (Q : A -> Prop) (m : M A) s :
  yields P Q m -> Forall P (new_events s (snd (m s))).
Proof.
  intros H. destruct (H s) as [(evs & Ht & HP) _]. unfold new_events.
  rewrite Ht, drop_app_length. exact HP.
Qed.

(** In a single-task run no training step gets as far as the backward
    pass: the predictions are a tensor, and indexing them by task name
    raises before [loss.backward()]. *)
Lemma single_task_step_never_updates (a : args) (lc : locals)
    (epoch idx : nat) b :
  is_multi a = false ->
  yields (fun e => is_update e = false) (fun _ => False)
         (train_batch a lc epoch idx b).
Proof.
  intros Hm. unfold train_batch. destruct b as [inputs labels]. rewrite Hm.
  apply yields_bind_any; [yields_step|intros labels'].
  apply yields_bind_any; [yields_step; reflexivity|intros _].
  apply yields_bind_any; [repeat yields_step; reflexivity|intros [outs labels'']].
  apply (yields_bind _ (fun p => exists t, p = VTensor t)).
  - apply yields_lift_post. intros x Hx.
    destruct (tensor_arg outs); simpl in Hx; inversion Hx. eauto.
  - intros preds [t ->]. apply (yields_bind _ (fun _ => False)).
    + apply yields_lift_post. intros x Hx. discriminate Hx.
    + intros x [].
Qed.

End Steps.

(** C2, on a single-task run: [--multi_label mask] with the cross-entropy
    criterion and no mixing builds a 3-class model and selects the mask
    labels of the batch, but the training step raises [IndexError] at
    [preds['mask']], after the forward pass and before any loss is computed,
    backpropagated or applied: the weights are unchanged. *)
Theorem single_task_step_raises :
  let a := demo_args "cross_entropy" "mask" (Fin 0) in
  let lc := demo_locals false a [] [] in
  num_classes_of a = 3 /\
  num_classes_of (demo_args "cross_entropy" "age" (Fin 0)) = 3 /\
  num_classes_of (demo_args "cross_entropy" "gender" (Fin 0)) = 2 /\
  select_labels a (snd demo_train_batch) = Ok (VTensor [0; 2]) /\
  train_batch a lc 0 0 demo_train_batch (demo_store false)
  = (Err IndexError,
     @Store exact_float (demo_framework false) (Some O) None
            [EZeroGrad; EForward (FW := demo_framework false) true [0; 1]]).
Proof. intros a lc. repeat split; vm_refl. Qed.

Section Validation.
Context {FL : Float} {FW : Framework}.

Lemma bind_ok_inv {A B} (m : M A) (k : A -> M B) (s s' : store) (y : B) :
  mbind k m s = (Ok y, s') ->
  exists x s1, m s = (Ok x, s1) /\ k x s1 = (Ok y, s').
Proof.
  unfold mbind, M_bind, bind_M. destruct (m s) as [[x|e] s1]; [eauto|discriminate].
Qed.

Lemma lift_ok_inv {A} (r : result A) (s s1 : store) (x : A) :
  lift r s = (Ok x, s1) -> r = Ok x /\ s1 = s.
Proof. unfold lift. intros H. inversion H. auto. Qed.

Lemma grid_image_assertion (np_images : list image) (gts preds : pyval ints)
    (n : nat) (shuffle : bool) :
  (length np_images < n)%nat ->
  grid_image np_images gts preds n shuffle = Err AssertionError.
Proof.
  intros H. unfold grid_image.
  destruct (Nat.leb_spec n (length np_images)); [lia|reflexivity].
Qed.

(** A validation iteration that draws the figure needs sixteen images. *)
Lemma val_batch_first_needs_16 (a : args) (lc : locals) inputs labels v s v' s' :
  figure v = None ->
  val_batch a lc (inputs, labels) v s = (Ok v', s') ->
  (16 <= length inputs)%nat.
Proof.
  intros Hfig H. unfold val_batch in H. rewrite Hfig in H.
  repeat first
    [ apply bind_ok_inv in H as (? & ? & ? & H)
    | match type of H with
      | (let '(_, _) := ?p in _) _ = _ => destruct p
      end ].
  destruct (Nat.le_gt_cases 16 (length inputs)) as [|Hlt]; [assumption|].
  match goal with
  | Hg : lift (Some <$> grid_image _ _ _ _ _) _ = _ |- _ =>
      apply lift_ok_inv in Hg as [Hg _];
      rewrite grid_image_assertion in Hg by (rewrite length_fmap; lia);
      discriminate Hg
  end.
Qed.

(** C10. [grid_image] raises [AssertionError] whenever the batch has fewer
    than [n] images, whatever the labels, the predictions and the shuffle
    flag; and the validation loop, which draws the figure with [n = 16] on
    its first batch, raises whenever that batch has fewer than 16 images. *)
Theorem grid_image_needs_n_images
    (np_images : list image) (gts preds : pyval ints) (n : nat) (shuffle : bool)
    (a : args) (lc : locals) (inputs : list image) (labels : pyval ints)
    (rest : list (list image * pyval ints)) (s : store) :
  ((length np_images < n)%nat ->
   grid_image np_images gts preds n shuffle = Err AssertionError) /\
  ((length inputs < 16)%nat ->
   exists e,
     fst (val_loop a lc ((inputs, labels) :: rest) (VState [] [] [] [] None) s)
     = Err e).
Proof.
  split; [apply grid_image_assertion|].
  intros Hlt.
  change (val_loop a lc ((inputs, labels) :: rest) (VState [] [] [] [] None) s)
    with (bind_M (val_batch a lc (inputs, labels) (VState [] [] [] [] None))
                 (fun v1 => val_loop a lc rest v1) s).
  unfold bind_M.
  destruct (val_batch a lc (inputs, labels) (VState [] [] [] [] None) s)
    as [[v1|e] s1] eqn:Hb.
  - apply val_batch_first_needs_16 in Hb; [lia|reflexivity].
  - exists e. reflexivity.
Qed.

(** In a single-task run every completed validation iteration appends the
    batch's labels to the targets twice and its predictions once. *)
Lemma val_batch_single_task_targets (a : args) (lc : locals) b v s v' s' :
  is_multi a = false ->
  val_batch a lc b v s = (Ok v', s') ->
  exists t p,
    target_tensor v' = target_tensor v ++ [t; t] /\
    pred_tensor v' = pred_tensor v ++ [p].
Proof.
  intros Hm H. unfold val_batch in H. destruct b as [inputs labels].
  rewrite Hm in H. simpl in H.
  repeat match goal with
         | Hb : mbind _ _ _ = (Ok _, _) |- _ =>
             apply bind_ok_inv in Hb as (? & ? & ? & Hb)
         | Hb : (let '(_, _) := ?p in _) _ = _ |- _ => destruct p
         | Hl : lift _ _ = (Ok _, _) |- _ => apply lift_ok_inv in Hl as [Hl ->]
         | Hr : mret _ _ = (Ok _, _) |- _ => inversion Hr; subst; clear Hr
         end.
  simpl. rewrite <- app_assoc. simpl.
  repeat match goal with
         | H1 : ?r = Ok ?x, H2 : ?r = Ok ?y |- _ =>
             rewrite H1 in H2; inversion H2; subst; clear H2
         end.
  eauto.
Qed.

End Validation.

Lemma grid_image_needs_n_images_witness :
  grid_image (FW := demo_framework false) [1; 2; 3] (VTensor [0; 1; 2])
             (VTensor [0; 1; 1]) 16 false = Err AssertionError /\
  exists e,
    fst (val_loop (demo_args "cross_entropy" "mask" (Fin 0))
                  (demo_locals false (demo_args "cross_entropy" "mask" (Fin 0))
                               [] [])
                  [([1; 2; 3], demo_labels [0; 1; 2] [0; 0; 1] [1; 1; 1])]
                  (VState [] [] [] [] None) (demo_store false))
    = Err e.
Proof.
  pose proof (grid_image_needs_n_images (FW := demo_framework false)
                [1; 2; 3] (VTensor [0; 1; 2]) (VTensor [0; 1; 1]) 16 false
                (demo_args "cross_entropy" "mask" (Fin 0))
                (demo_locals false (demo_args "cross_entropy" "mask" (Fin 0))
                             [] [])
                [1; 2; 3] (demo_labels [0; 1; 2] [0; 0; 1] [1; 1; 1]) []
                (demo_store false)) as [H1 H2].
  split; [apply H1|apply H2]; simpl; lia.
Defined.

(** C4, on a single-task run with one validation batch of sixteen images:
    the loop completes with the batch's labels twice among the targets and
    its predictions once, so the F1 score is asked of 32 targets against 16
    predictions and the metric library refuses; validation raises
    [ValueError] and no validation scalar is logged.  In a multi-label run
    the same iteration raises at the unbound [criterion]. *)
Theorem validation_never_logs :
  let a := demo_args "cross_entropy" "mask" (Fin 0) in
  let lc := demo_locals false a [] [demo_val_batch] in
  let loop := val_loop a lc [demo_val_batch] (VState [] [] [] [] None)
                       (demo_store false) in
  let run := validate a lc 0 initial_best (demo_store false) in
  let a' := demo_args "multi_label" "multi_label" (Fin 0) in
  let run' := validate a' (demo_locals true a' [] [demo_val_batch]) 0
                       initial_best (demo_store true) in
  (exists v, fst loop = Ok v /\
             target_tensor v = [replicate 16 1; replicate 16 1] /\
             length (pred_tensor v) = 1%nat /\
             length (concat (target_tensor v)) = 32%nat /\
             length (concat (pred_tensor v)) = 16%nat) /\
  fst run = Err ValueError /\
  List.filter is_scalar (trace (snd run)) = [] /\
  fst run' = Err UnboundLocalError /\
  List.filter is_scalar (trace (snd run')) = [].
Proof.
  intros a lc loop run a' run'.
  assert (Hloop :
    match fst loop with
    | Ok v => Some (target_tensor v, pred_tensor v)
    | Err _ => None
    end = Some ([replicate 16 1; replicate 16 1],
                [[0; 1; 2; 0; 1; 2; 0; 1; 2; 0; 1; 2; 0; 1; 2; 0]]))
    by vm_refl.
  split; [|repeat split; vm_refl].
  destruct (fst loop) as [v|e]; [|discriminate Hloop].
  exists v. inversion Hloop as [[Ht Hp]]. rewrite Ht, Hp.
  repeat split.
Qed.

Section Mixing.
Context {FL : Float} {FW : Framework}.

Lemma in_new_events (s s' : store) (evs : list event) (e : event) :
  trace s' = trace s ++ evs -> e ∈ evs -> e ∈ new_events s s'.
Proof.
  intros Ht He. unfold new_events. rewrite Ht, drop_app_length. exact He.
Qed.

Lemma bind_run_ok {A B} (m : M A) (k : A -> M B) (s s1 : store) (x : A) :
  m s = (Ok x, s1) -> mbind k m s = k x s1.
Proof. intros H. unfold mbind, M_bind, bind_M. rewrite H. reflexivity. Qed.

Lemma bind_run_err {A B} (m : M A) (k : A -> M B) (s s1 : store) (e : exn) :
  m s = (Err e, s1) -> mbind k m s = (Err e, s1).
Proof. intros H. unfold mbind, M_bind, bind_M. rewrite H. reflexivity. Qed.

Lemma bind_bind_run {A B C} (m : M A) (k : A -> M B) (k' : B -> M C) (s : store) :
  mbind k' (mbind k m) s = mbind (fun x => mbind k' (k x)) m s.
Proof.
  unfold mbind, M_bind, bind_M. destruct (m s) as [[x|e] s1]; reflexivity.
Qed.

Lemma lift_run {A} (r : result A) (x : A) (s : store) :
  r = Ok x -> lift r s = (Ok x, s).
Proof. intros ->. reflexivity. Qed.

Lemma call_model_run (training : bool) (inputs : list image) w lv tr outs :
  forward w training inputs = Ok outs ->
  call_model training inputs (Store (Some w) lv tr)
  = (Ok outs, Store (Some w) lv (tr ++ [EForward training inputs])).
Proof.
  intros Hf. unfold call_model, mbind, M_bind, bind_M, get_net. simpl.
  unfold lift. rewrite Hf. reflexivity.
Qed.

Lemma trace_grows {A} (m : M A) (s : store) :
  yields (fun _ => True) (fun _ => True) m ->
  exists evs, trace (snd (m s)) = trace s ++ evs.
Proof. intros H. destruct (H s) as [(evs & Ht & _) _]. eauto. Qed.

Ltac run_step tac :=
  cbv beta iota; rewrite ?bind_bind_run; erewrite bind_run_ok by tac.

Lemma mixed_step_trace (a : args) (lc : locals) (epoch idx : nat)
    inputs labels l s :
  feq (mixp a) (of_int 0) = false ->
  flt (np_random epoch idx) (mixp a) = true ->
  select_labels a labels = Ok l ->
  exists evs,
    trace (snd (train_batch a lc epoch idx (inputs, labels) s))
    = trace s ++ [EZeroGrad; EMix inputs l] ++ evs.
Proof.
  intros Hz Hd Hsel. unfold train_batch.
  erewrite bind_run_ok by (apply lift_run; exact Hsel).
  erewrite bind_run_ok by reflexivity.
  rewrite Hz, Hd. cbv [negb].
  rewrite !bind_bind_run. erewrite bind_run_ok by reflexivity.
  match goal with
  | |- context [trace (snd (?m ?s0))] =>
      destruct (trace_grows m s0) as [evs Hevs]
  end.
  { repeat yields_step; exact I. }
  rewrite Hevs. simpl. exists evs. rewrite <- !app_assoc. reflexivity.
Qed.

Lemma Forall_new_events {A} (P : event -> Prop) (Q : A -> Prop) (m : M A) s e :
  yields P Q m -> e ∈ new_events s (snd (m s)) -> P e.
Proof.
  intros H He. pose proof (yields_new_events P Q m s H) as HF.
  rewrite Forall_forall in HF. auto.
Qed.

(** What the code does about mixing where it works.  With [mixp] equal to
    zero a training step never calls the mixing function and runs the
    network on the batch's own inputs only.  With [mixp] non-zero, a step that has its labels calls the
    mixing function, on the batch's inputs and labels, exactly when the
    random draw is below [mixp].  In a single-task run, where the criterion
    exists, a mixed step runs the network on the mixed inputs and its loss is
    [criterion(outs, target_a) * lam + criterion(outs, target_b) * (1 - lam)]. *)
Theorem mixing_control (a : args) (lc : locals) (epoch idx : nat)
    (inputs : list image) (labels : pyval ints) (s : store) :
  let run := train_batch a lc epoch idx (inputs, labels) s in
  let new := new_events s (snd run) in
  (feq (mixp a) (of_int 0) = true ->
   forall e, e ∈ new ->
     is_mix e = false /\ forall i, forwarded e = Some i -> i = inputs) /\
  (feq (mixp a) (of_int 0) = false ->
   forall l, select_labels a labels = Ok l ->
     (EMix inputs l ∈ new <-> flt (np_random epoch idx) (mixp a) = true) /\
     (forall e, e ∈ new -> is_mix e = true -> e = EMix inputs l)) /\
  (feq (mixp a) (of_int 0) = false ->
   flt (np_random epoch idx) (mixp a) = true ->
   is_multi a = false ->
   forall l mixed lam ta tb w outs c la lb,
     select_labels a labels = Ok l ->
     data_mix_var lc inputs l = Ok (mixed, lam, ta, tb) ->
     model_var s = Some w ->
     forward w true mixed = Ok outs ->
     criterion_var lc = Some c ->
     apply_criterion c outs ta = Ok la ->
     apply_criterion c outs tb = Ok lb ->
     loss_var (snd run)
     = Some (fadd (fmul la lam) (fmul lb (fsub (of_int 1) lam))) /\
     forall e i, e ∈ new -> forwarded e = Some i -> i = mixed).
Proof.
  intros run new. split; [|split].
  - intros Hz e He.
    apply (Forall_new_events
             (fun e => is_mix e = false /\
                       forall i, forwarded e = Some i -> i = inputs)
             (fun _ => True)
             (train_batch a lc epoch idx (inputs, labels)) s e); [|exact He].
    unfold train_batch. rewrite Hz. cbv [negb].
    repeat yields_step;
      (split; [reflexivity|intros i Hi; inversion Hi; reflexivity]).
  - intros Hz l Hsel. split.
    + destruct (flt (np_random epoch idx) (mixp a)) eqn:Hd.
      * split; auto. intros _.
        destruct (mixed_step_trace a lc epoch idx inputs labels l s Hz Hd Hsel)
          as [evs Hevs].
        apply (in_new_events _ _ _ _ Hevs). right. left.
      * split; [|discriminate]. intros He. exfalso.
        assert (Hn : is_mix (EMix inputs l) = false); [|discriminate Hn].
        apply (Forall_new_events (fun e => is_mix e = false) (fun _ => True)
                 (train_batch a lc epoch idx (inputs, labels)) s);
          [|exact He].
        unfold train_batch. rewrite Hz, Hd. cbv [negb].
        repeat yields_step; reflexivity.
    + intros e He.
      apply (Forall_new_events
               (fun e => is_mix e = true -> e = EMix inputs l) (fun _ => True)
               (train_batch a lc epoch idx (inputs, labels)) s e); [|exact He].
      unfold train_batch.
      apply (yields_bind _ (fun x => x = l)).
      { apply yields_lift_post. intros x Hx. congruence. }
      intros x ->. repeat yields_step; try discriminate. reflexivity.
  - intros Hz Hd Hm l mixed lam ta tb w outs c la lb
           Hsel Hmix Hw Hf Hc Hla Hlb. split.
    + unfold run, train_batch.
      run_step ltac:(apply lift_run; exact Hsel).
      run_step ltac:(reflexivity).
      rewrite Hz, Hd, Hm. cbv [negb].
      run_step ltac:(reflexivity).
      run_step ltac:(apply lift_run; exact Hmix).
      cbv beta iota. rewrite Hw.
      run_step ltac:(apply call_model_run; exact Hf).
      run_step ltac:(apply lift_run; rewrite Hc; reflexivity).
      run_step ltac:(apply lift_run; exact Hla).
      run_step ltac:(apply lift_run; exact Hlb).
      run_step ltac:(reflexivity).
      run_step ltac:(reflexivity).
      destruct outs as [o|d]; [|destruct ta; discriminate Hla].
      run_step ltac:(reflexivity).
      cbv beta iota. rewrite ?bind_bind_run.
      erewrite bind_run_err by reflexivity. reflexivity.
    + intros e i He. revert i.
      apply (Forall_new_events
               (fun e => forall i, forwarded e = Some i -> i = mixed)
               (fun _ => True)
               (train_batch a lc epoch idx (inputs, labels)) s e); [|exact He].
      unfold train_batch. rewrite Hz, Hd. cbv [negb].
      apply (yields_bind _ (fun x => x = l)).
      { apply yields_lift_post. intros x Hx. congruence. }
      intros x ->. apply yields_bind_any; [yields_step; discriminate|intros _].
      apply yields_bind_any; [|intro; repeat yields_step; discriminate].
      apply yields_bind_any; [yields_step; discriminate|intros _].
      apply (yields_bind _ (fun x => x = (mixed, lam, ta, tb))).
      { apply yields_lift_post. intros x Hx. congruence. }
      intros x ->. repeat yields_step; try discriminate.
      intros i Hi. inversion Hi. reflexivity.
Qed.

End Mixing.


Lemma mixing_control_witness :
  let a := demo_args "cross_entropy" "mask" (Fin (1 # 2)) in
  loss_var (snd (train_batch a (demo_locals false a [] []) 0 0
                             demo_train_batch (demo_store false)))
  = Some (Fin 2).
Proof.
  intros a.
  exact (proj1 (proj2 (proj2 (mixing_control (FW := demo_framework false)
           a (demo_locals false a [] []) 0 0
           (fst demo_train_batch) (snd demo_train_batch) (demo_store false)))
         eq_refl eq_refl eq_refl
         (VTensor [0; 2]) [1; 0] (Fin (1 # 4)) (VTensor [0; 2]) (VTensor [0; 2])
         O (VTensor [1; 0]) demo_criterion (Fin 2) (Fin 2)
         eq_refl eq_refl eq_refl eq_refl eq_refl eq_refl eq_refl)).
Defined.

Section Outputs.
Context {FL : Float} {FW : Framework} {PL : Patterns}.

Lemma append_nil_r (s : string) : s +:+ "" = s.
Proof.
  induction s as [|c s IH]; [reflexivity|].
  rewrite PathsProps.append_cons, IH. reflexivity.
Qed.

Lemma append_assoc (s t u : string) : (s +:+ t) +:+ u = s +:+ (t +:+ u).
Proof.
  induction s as [|c s IH]; [reflexivity|].
  rewrite !PathsProps.append_cons, IH. reflexivity.
Qed.

Lemma join_config_under (sd : string) :
  exists rest, os_path_join sd ["config.json"] = sd +:+ rest.
Proof.
  unfold os_path_join.
  change (String.prefix "/" "config.json") with false. cbv iota.
  destruct (String.eqb sd "" || ends_with sep sd)%bool.
  - exists "config.json". reflexivity.
  - exists "/config.json". reflexivity.
Qed.

Lemma save_dir_rooted (fs : filesystem) (kk : Z) (model_dir : string) (a : args)
    (sd : string) :
  save_dir_of fs kk model_dir a = Ok sd ->
  exists suffix,
    sd = str (Path (os_path_join model_dir ["k" +:+ pretty kk; name a]))
         +:+ suffix /\
    (suffix = "" \/ exists n : Z, suffix = pretty n).
Proof.
  unfold save_dir_of, increment_path. intros H.
  match type of H with
  | context [if ?c then _ else _] => destruct c
  end.
  - inversion H. exists "". rewrite append_nil_r. auto.
  - destruct (mapM _ _) as [matches|e]; [|discriminate].
    cbn [mbind result_bind rbind] in H.
    destruct (mapM _ _) as [i|e]; [|discriminate].
    cbn [mbind result_bind rbind] in H. inversion H.
    eexists. split; [reflexivity|]. right. eauto.
Qed.

Lemma account_events_scalars (a : args) (epoch n idx : nat) item gain m m' evs :
  account a epoch n idx item gain m = Ok (m', evs) ->
  Forall (fun e => is_scalar e = true) evs.
Proof.
  unfold account, py_div. intros H.
  repeat match type of H with
         | context [if ?c then _ else _] => destruct c; simpl in H
         end; inversion H; repeat constructor.
Qed.

Lemma checkpoint_events_under (sd : string) w b acc loss f1 :
  Forall (fun e => exists rest w', e = ESave (sd +:+ rest) w')
         (snd (checkpoint sd w b acc loss f1)).
Proof.
  unfold checkpoint. destruct (flt (best_f1_score b) f1); simpl;
    repeat constructor; eauto.
Qed.

Lemma silent_allowed sd data_dir a e : silent e -> allowed sd data_dir a e.
Proof.
  unfold silent. destruct e; simpl; try discriminate; intros _;
    (split; [intros p Hp; discriminate Hp|exact I]).
Qed.

Lemma scalar_allowed sd data_dir a e : is_scalar e = true -> allowed sd data_dir a e.
Proof.
  destruct e; simpl; try discriminate; intros _;
    (split; [intros p Hp; discriminate Hp|exact I]).
Qed.

Lemma train_loop_allowed sd data_dir (a : args) (lc : locals) epoch n batches :
  forall idx m,
  yields (allowed sd data_dir a) (fun _ => True)
         (train_loop a lc epoch n idx batches m).
Proof.
  induction batches as [|b rest IH]; intros idx m; simpl.
  - yields_step.
  - apply yields_bind_any.
    { eapply yields_weaken; [apply silent_allowed|auto|apply train_batch_silent]. }
    intros [item gain].
    apply (yields_bind _ (fun x => Forall (allowed sd data_dir a) (snd x))).
    + apply yields_lift_post. intros [m' evs] Hx. simpl.
      eapply Forall_impl; [eapply account_events_scalars; eauto|].
      apply scalar_allowed.
    + intros [m' evs] Hevs. simpl in Hevs.
      apply yields_bind_any; [apply yields_emit_all; exact Hevs|].
      intros _. apply IH.
Qed.

Lemma run_epochs_allowed sd data_dir (a : args) (lc : locals) es :
  save_dir lc = sd ->
  forall b, yields (allowed sd data_dir a) (fun _ => True) (run_epochs a lc es b).
Proof.
  intros Hsd. induction es as [|epoch es IH]; intros b; simpl.
  - yields_step.
  - apply yields_bind_any; [|intros b'; apply IH].
    unfold run_epoch.
    apply yields_bind_any; [repeat yields_step|intros _].
    apply yields_bind_any; [apply train_loop_allowed|intros _].
    unfold validate.
    apply yields_bind_any.
    { eapply yields_weaken; [apply silent_allowed|auto|apply val_loop_silent]. }
    intros v. unfold epoch_end.
    do 4 (apply yields_bind_any; [yields_step|intros ?]).
    pose proof (checkpoint_events_under (save_dir lc) x2 b
                  (fdiv (of_int (sum_Z (val_acc_items v)))
                        (of_int (subset_len (val_set lc))))
                  (fdiv (np_sum (val_loss_items v))
                        (of_int (Z.of_nat (length (val_loader lc epoch)))))
                  x1) as Hck.
    destruct (checkpoint _ _ _ _ _ _) as [b' evs]. simpl in Hck.
    rewrite Hsd in Hck.
    apply yields_bind_any.
    { apply yields_emit_all. eapply Forall_impl; [exact Hck|].
      intros e (rest & w' & ->). split; [|exact I].
      intros p Hp. inversion Hp. eauto. }
    intros _. repeat yields_step; (split; [intros p Hp; discriminate Hp|exact I]).
Qed.

Lemma setup_allowed (fs : filesystem) (kk : Z) (data_dir model_dir : string)
    (a : args) (sd : string) :
  save_dir_of fs kk model_dir a = Ok sd ->
  yields (allowed sd data_dir a) (fun lc => save_dir lc = sd)
         (setup fs kk data_dir model_dir a).
Proof.
  intros Hsd. unfold setup. rewrite Hsd.
  apply (yields_bind _ (fun x => x = sd)).
  { apply yields_lift_post. intros x Hx. congruence. }
  intros x ->. repeat yields_step.
  all: split; try exact I; try (intros p Hp; discriminate Hp); auto.
  - intros p Hp. inversion Hp. exists "". rewrite append_nil_r. reflexivity.
  - intros p Hp. inversion Hp. apply join_config_under.
Qed.

Lemma emit_ok_inv (e : event) (s s1 : store) (x : unit) :
  emit e s = (Ok x, s1) ->
  s1 = Store (model_var s) (loss_var s) (trace s ++ [e]).
Proof. unfold emit. intros H. inversion H. reflexivity. Qed.

Lemma set_net_ok_inv (w : weights) (s s1 : store) (x : unit) :
  set_net w s = (Ok x, s1) -> s1 = Store (Some w) (loss_var s) (trace s).
Proof. unfold set_net. intros H. inversion H. reflexivity. Qed.

Lemma read_attr_inv {A} (o : option A) (x : A) : read_attr o = Ok x -> o = Some x.
Proof. destruct o; simpl; congruence. Qed.

(** What a completed [setup] has done: the save directory was computed; the
    dataset class was looked up by name and built from the data directory,
    [args.kfold], [args.k] and the data selection; the two sets are the split
    of that dataset, and each loader is built on its set; the logger and
    [config.json] were opened in the save directory. *)
Lemma setup_result (fs : filesystem) (kk : Z) (data_dir model_dir : string)
    (a : args) (s s1 : store) (lc : locals) :
  setup fs kk data_dir model_dir a s = (Ok lc, s1) ->
  trace s1
  = trace s ++
    [EDataset (dataset a) data_dir (kfold a) (Train.k a) (data_selection a);
     EBuildModel (model a) (num_classes_of a) (feature_extract a) (pretrained a);
     EWriter (save_dir lc);
     EOpen (os_path_join (save_dir lc) ["config.json"])] /\
  exists cls ds tr,
    dataset_module (dataset a) = Some cls /\
    cls data_dir (kfold a) (Train.k a) (data_selection a) = Ok ds /\
    transform_module (augmentation a) = Some tr /\
    the_dataset lc = tr ds /\
    (train_set lc, val_set lc) = split_dataset (tr ds) /\
    data_loader (train_set lc) (batch_size a) true true = Ok (train_loader lc) /\
    data_loader (val_set lc) (valid_batch_size a) false false
      = Ok (val_loader lc) /\
    save_dir_of fs kk model_dir a = Ok (save_dir lc).
Proof.
  intros H. unfold setup in H.
  repeat match goal with
         | Hb : mbind _ _ _ = (Ok _, _) |- _ =>
             apply bind_ok_inv in Hb as (? & ? & ? & Hb)
         | Hb : (let '(_, _) := ?p in _) _ = _ |- _ => destruct p eqn:?
         | Hl : lift _ _ = (Ok _, _) |- _ => apply lift_ok_inv in Hl as [Hl ->]
         | Hl : emit _ _ = (Ok _, _) |- _ => apply emit_ok_inv in Hl; subst
         | Hl : set_net _ _ = (Ok _, _) |- _ => apply set_net_ok_inv in Hl; subst
         | Hr : mret _ _ = (Ok _, _) |- _ => inversion Hr; subst; clear Hr
         | Hb : (if ?c then _ else _) _ = (Ok _, _) |- _ => destruct c eqn:?
         | Hl : read_attr _ = Ok _ |- _ => apply read_attr_inv in Hl
         end.
  all: split;
    [ simpl; rewrite <- !app_assoc; reflexivity
    | do 3 eexists; simpl; repeat split; eauto ].
Qed.

(** A training step works on its batch. *)
Lemma train_batch_from_loaders (a : args) (lc : locals) (epoch idx : nat)
    inputs labels :
  (inputs, labels) ∈ train_loader lc epoch ->
  yields (Run.from_loaders lc) (fun _ => True)
         (train_batch a lc epoch idx (inputs, labels)).
Proof.
  intros Hin.
  assert (Hplain : forall tr,
            Run.from_loaders lc (EForward tr inputs) \/ tr = false).
  { intros [|]; [left|right; reflexivity]. simpl. eauto 10. }
  assert (Hfw : Run.from_loaders lc (EForward true inputs)).
  { destruct (Hplain true) as [H|H]; [exact H|discriminate H]. }
  unfold train_batch.
  apply yields_bind_any; [yields_step|intros labels'].
  apply yields_bind_any; [yields_step; exact I|intros _].
  apply yields_bind_any;
    [|intros [outs labels'']; repeat yields_step; exact I].
  destruct (negb (feq (mixp a) (of_int 0)));
    [destruct (flt (np_random epoch idx) (mixp a))|].
  - apply yields_bind_any; [yields_step; simpl; eauto|intros _].
    apply (yields_bind _ (fun x => data_mix_var lc inputs labels' = Ok x)).
    { apply yields_lift_post. auto. }
    intros [[[mixed lam] ta] tb] Hmix.
    apply yields_bind_any; [|intros outs; repeat yields_step].
    repeat yields_step. simpl. exists epoch, inputs, labels.
    split; [exact Hin|]. right. eauto.
  - repeat yields_step. exact Hfw.
  - repeat yields_step; exact Hfw.
Qed.

Lemma train_loop_from_loaders (a : args) (lc : locals) epoch n batches :
  (forall b, b ∈ batches -> b ∈ train_loader lc epoch) ->
  forall idx m,
  yields (Run.from_loaders lc) (fun _ => True)
         (train_loop a lc epoch n idx batches m).
Proof.
  induction batches as [|[inputs labels] rest IH]; intros Hsub idx m; simpl.
  - yields_step.
  - apply yields_bind_any.
    { apply train_batch_from_loaders. apply Hsub. left. }
    intros [item gain].
    apply (yields_bind _ (fun x => Forall (Run.from_loaders lc) (snd x))).
    + apply yields_lift_post. intros [m' evs] Hx. simpl.
      eapply Forall_impl; [eapply account_events_scalars; eauto|].
      intros e He. destruct e; try discriminate He. exact I.
    + intros [m' evs] Hevs. simpl in Hevs.
      apply yields_bind_any; [apply yields_emit_all; exact Hevs|].
      intros _. apply IH. intros b Hb. apply Hsub. right. exact Hb.
Qed.

Lemma val_loop_from_loaders (a : args) (lc : locals) epoch batches :
  (forall b, b ∈ batches -> b ∈ val_loader lc epoch) ->
  forall v,
  yields (Run.from_loaders lc) (fun _ => True) (val_loop a lc batches v).
Proof.
  induction batches as [|[inputs labels] rest IH]; intros Hsub v; simpl.
  - yields_step.
  - apply yields_bind_any.
    + unfold val_batch. repeat yields_step. simpl.
      exists epoch, labels. apply Hsub. left.
    + intros v'. apply IH. intros b Hb. apply Hsub. right. exact Hb.
Qed.

(** The epochs work on the batches of the two loaders. *)
Lemma run_epochs_from_loaders (a : args) (lc : locals) es :
  forall b, yields (Run.from_loaders lc) (fun _ => True) (run_epochs a lc es b).
Proof.
  induction es as [|epoch es IH]; intros b; simpl.
  - yields_step.
  - apply yields_bind_any; [|intros b'; apply IH].
    unfold run_epoch.
    apply yields_bind_any; [repeat yields_step|intros _].
    apply yields_bind_any; [apply train_loop_from_loaders; auto|intros _].
    unfold validate.
    apply yields_bind_any; [apply (val_loop_from_loaders a lc epoch); auto|].
    intros v. unfold epoch_end.
    do 4 (apply yields_bind_any; [yields_step|intros ?]).
    destruct (checkpoint _ _ _ _ _ _) as [b' evs] eqn:Hck.
    apply yields_bind_any.
    { apply yields_emit_all.
      unfold checkpoint in Hck. destruct (flt _ _); inversion Hck;
        repeat constructor. }
    intros _. repeat yields_step; exact I.
Qed.

(** [train] is its set-up followed by the epochs on the set-up's locals. *)
Lemma train_after_setup (fs : filesystem) (kk : Z) (data_dir model_dir : string)
    (a : args) (s s1 : store) (lc : locals) :
  setup fs kk data_dir model_dir a s = (Ok lc, s1) ->
  train fs kk data_dir model_dir a s
  = (let (r, s2) := run_epochs a lc (seq 0 (Z.to_nat (epochs a)))
                               initial_best s1 in
     (match r with Ok _ => Ok tt | Err e => Err e end, s2)).
Proof.
  intros H. unfold train, mbind, M_bind, bind_M. rewrite H.
  destruct (run_epochs _ _ _ _ _) as [[b|e] s2]; reflexivity.
Qed.

(** As soon as the save directory is known and the dataset class exists,
    the dataset is built, with the run's fold count and fold index. *)
Lemma train_builds_dataset (fs : filesystem) (kk : Z)
    (data_dir model_dir : string) (a : args) (s : store) sd cls :
  save_dir_of fs kk model_dir a = Ok sd ->
  dataset_module (dataset a) = Some cls ->
  EDataset (dataset a) data_dir (kfold a) (Train.k a) (data_selection a)
    ∈ new_events s (snd (train fs kk data_dir model_dir a s)).
Proof.
  intros Hsd Hcls. unfold train, setup. rewrite Hsd, Hcls.
  rewrite !bind_bind_run. erewrite bind_run_ok by reflexivity.
  rewrite !bind_bind_run. erewrite bind_run_ok by reflexivity.
  rewrite !bind_bind_run. erewrite bind_run_ok by reflexivity.
  match goal with
  | |- _ ∈ new_events _ (snd (?m ?s0)) =>
      destruct (trace_grows m s0) as [evs Hevs]
  end.
  { repeat first
      [ yields_step
      | exact I
      | eapply yields_weaken;
        [| |apply (run_epochs_allowed _ data_dir a _ _ eq_refl)]; auto ]. }
  eapply (in_new_events _ _ (_ :: evs)); [|left].
  rewrite Hevs. simpl. rewrite <- app_assoc. reflexivity.
Qed.


End Outputs.


End TrainProps.

(** ** Numbering of run directories *)

Module NumberingProps.
Import Paths PathsProps.


Lemma pretty_N_char_cases (d : N) :
  pretty_N_char d ∈ ["0"; "1"; "2"; "3"; "4"; "5"; "6"; "7"; "8"; "9"]%char.
Proof.
  unfold pretty_N_char.
  repeat case_match; set_solver.
Qed.

Lemma pretty_N_char_digit (d : N) : is_digit (pretty_N_char d) = true.
Proof.
  pose proof (pretty_N_char_cases d) as H.
  repeat (apply elem_of_cons in H as [->|H]; [reflexivity|]).
  inversion H.
Qed.

Lemma pretty_N_char_value (d : N) :
  (d < 10)%N -> N.of_nat (nat_of_ascii (pretty_N_char d) - 48) = d.
Proof.
  intros H.
  assert (d = 0 \/ d = 1 \/ d = 2 \/ d = 3 \/ d = 4 \/ d = 5 \/ d = 6 \/
          d = 7 \/ d = 8 \/ d = 9)%N as Hd by lia.
  repeat (destruct Hd as [->|Hd]; [reflexivity|]). subst. reflexivity.
Qed.

Lemma int_from_pretty_go (x : N) :
  forall s,
    fold_left (fun acc a => (10 * acc + N.of_nat (nat_of_ascii a - 48))%N)
              (String.list_ascii_of_string (pretty_N_go x s)) 0%N
    = fold_left (fun acc a => (10 * acc + N.of_nat (nat_of_ascii a - 48))%N)
                (String.list_ascii_of_string s) x.
Proof.
  induction (N.lt_wf_0 x) as [x _ IH]; intros s.
  destruct (decide (x = 0)%N) as [->|Hx].
  - rewrite pretty_N_go_0. reflexivity.
  - rewrite pretty_N_go_step by lia. rewrite IH by (apply N.div_lt; lia).
    simpl. f_equal.
    rewrite pretty_N_char_value by (apply N.mod_lt; lia).
    pose proof (N.div_mod x 10). lia.
Qed.

Lemma int_of_digits_pretty (n : N) : int_of_digits (pretty n) = n.
Proof.
  unfold pretty, pretty_N. destruct (decide (n = 0)%N) as [->|Hn].
  - reflexivity.
  - apply (int_from_pretty_go n "").
Qed.

Lemma take_digits_pretty_go (x : N) :
  forall s, take_digits (pretty_N_go x s) = pretty_N_go x (take_digits s).
Proof.
  induction (N.lt_wf_0 x) as [x _ IH]; intros s.
  destruct (decide (x = 0)%N) as [->|Hx].
  - rewrite !pretty_N_go_0. reflexivity.
  - rewrite (pretty_N_go_step x s), (pretty_N_go_step x (take_digits s)) by lia.
    rewrite IH by (apply N.div_lt; lia).
    simpl. rewrite pretty_N_char_digit. reflexivity.
Qed.

Lemma take_digits_pretty (n : N) : take_digits (pretty n) = pretty n.
Proof.
  unfold pretty, pretty_N. destruct (decide (n = 0)%N) as [->|Hn].
  - reflexivity.
  - apply (take_digits_pretty_go n "").
Qed.

Lemma pretty_nonempty (n : N) : pretty n <> "".
Proof.
  intros H. pose proof (int_of_digits_pretty n) as Hn. rewrite H in Hn.
  change (int_of_digits "") with 0%N in Hn. subst n. discriminate H.
Qed.

Lemma digits_no_sep (s : string) : take_digits s = s -> has_sep s = false.
Proof.
  induction s as [|a s IH]; simpl; [reflexivity|].
  destruct (is_digit a) eqn:E; [|discriminate].
  intros H. inversion H as [H']. rewrite H'. rewrite (IH H').
  destruct (Ascii.eqb a sep) eqn:Es; [|reflexivity].
  apply Ascii.eqb_eq in Es. subst a. discriminate E.
Qed.


Lemma re_search_digits_eq (stem d : string) :
  re_search_digits stem d
  = match match strip_prefix stem d with
          | Some rest => match take_digits rest with
                         | EmptyString => None
                         | ds => Some ds
                         end
          | None => None
          end with
    | Some ds => Some ds
    | None => match d with
              | EmptyString => None
              | String _ d' => re_search_digits stem d'
              end
    end.
Proof. destruct d; reflexivity. Qed.

Lemma strip_prefix_length (p s r : string) :
  strip_prefix p s = Some r ->
  String.length s = (String.length p + String.length r)%nat.
Proof.
  revert s. induction p as [|a p IH]; intros s H; simpl in H.
  - inversion H. reflexivity.
  - destruct s as [|b s]; [discriminate|].
    destruct (Ascii.eqb a b); [|discriminate]. simpl. f_equal. auto.
Qed.

Lemma strip_prefix_append (p s t : string) :
  (String.length p <= String.length s)%nat ->
  strip_prefix p (s +:+ t) = (fun r => r +:+ t) <$> strip_prefix p s.
Proof.
  revert s. induction p as [|a p IH]; intros s H; simpl.
  - reflexivity.
  - destruct s as [|b s]; simpl in H; [lia|].
    rewrite append_cons. simpl. destruct (Ascii.eqb a b); [|reflexivity].
    apply IH. lia.
Qed.

Lemma length_append (s t : string) :
  String.length (s +:+ t) = (String.length s + String.length t)%nat.
Proof.
  induction s as [|a s IH]; [reflexivity|].
  rewrite append_cons. simpl. congruence.
Qed.

Lemma append_assoc' (s t u : string) : (s +:+ t) +:+ u = s +:+ (t +:+ u).
Proof.
  induction s as [|c s IH]; [reflexivity|].
  rewrite !append_cons, IH. reflexivity.
Qed.

(** Where the stem is not followed by a digit anywhere in [pre ++ stem], the
    search in [pre ++ stem ++ ds] finds the digits at the end. *)
Lemma search_at_end (stem ds : string) :
  ds <> "" -> take_digits ds = ds ->
  forall pre,
  re_search_digits stem (pre +:+ stem) = None ->
  re_search_digits stem (pre +:+ stem +:+ ds) = Some ds.
Proof.
  intros Hne Hds. induction pre as [|c pre IH]; intros Hnone.
  - rewrite !append_nil_l, re_search_digits_eq, app_strip_prefix, Hds.
    destruct ds; [congruence|reflexivity].
  - rewrite re_search_digits_eq in Hnone. rewrite re_search_digits_eq.
    rewrite <- append_assoc'.
    rewrite strip_prefix_append by (rewrite length_append; lia).
    rewrite append_assoc'.
    destruct (strip_prefix stem (String c pre +:+ stem)) as [r0|] eqn:E; simpl.
    + apply strip_prefix_length in E. rewrite length_append in E.
      destruct r0 as [|x r0]; [simpl in E; lia|].
      rewrite append_cons. simpl in *.
      destruct (is_digit x); [discriminate Hnone|]. auto.
    + rewrite append_cons in *. auto.
Qed.

Lemma max_N_ext (i j : list N) :
  (forall m, m ∈ i <-> m ∈ j) -> max_N i = max_N j.
Proof.
  intros H. destruct i as [|x i], j as [|y j]; [reflexivity| | |].
  - exfalso. assert (Hy : y ∈ @nil N) by (apply H; left). inversion Hy.
  - exfalso. assert (Hx : x ∈ @nil N) by (apply H; left). inversion Hx.
  - apply N.le_antisymm; apply max_N_upper.
    + apply H, max_N_elem. congruence.
    + apply H, max_N_elem. congruence.
Qed.

(** On paths read literally, the result depends on the entries only. *)
Lemma literal_order_independent
    (fs fs' : filesystem) (p : string) (exist_ok : bool) :
  (forall d, d ∈ fs <-> d ∈ fs') ->
  increment_path_literal fs p exist_ok = increment_path_literal fs' p exist_ok.
Proof.
  intros H. unfold increment_path_literal.
  assert (He : exists_ fs (Path p) = exists_ fs' (Path p)).
  { unfold exists_. apply bool_decide_ext, H. }
  assert (Hf : forall m, m ∈ found_numbers fs (Path p)
                         <-> m ∈ found_numbers fs' (Path p)).
  { intros m. rewrite !found_numbers_spec.
    split; intros (d & ds & Hd & Hs); exists d, ds; split; auto;
      apply glob_star_spec; apply glob_star_spec in Hd as [Hd Hr];
      split; auto; apply H; auto. }
  rewrite He. destruct (_ || _)%bool; [reflexivity|].
  f_equal. f_equal.
  rewrite (max_N_ext _ _ Hf).
  destruct (found_numbers fs (Path p)) as [|x i] eqn:E1,
           (found_numbers fs' (Path p)) as [|y j] eqn:E2; try reflexivity.
  exfalso. assert (Hy : y ∈ @nil N) by (apply Hf; left). inversion Hy.
Qed.

Lemma literal_fresh (fs : filesystem) (p : string) :
  let path := Path p in
  exists_ fs path = true ->
  (exists pre, str path = pre +:+ stem path) ->
  re_search_digits (stem path) (str path) = None ->
  (increment_path_literal fs p false ∉ fs) /\
  increment_path_literal fs p false <> str path.
Proof.
  intros path Hex [pre Hpre] Hnone.
  unfold increment_path_literal. fold path. rewrite Hex. simpl.
  set (n := match found_numbers fs path with
            | [] => 1%N
            | _ => (max_N (found_numbers fs path) + 1)%N
            end).
  split.
  - intros Hin.
    assert (Hn : n ∈ found_numbers fs path).
    { apply found_numbers_spec. exists (str path +:+ pretty n), (pretty n).
      split; [|split].
      - apply glob_star_spec. split; [exact Hin|].
        exists (pretty n). split; [reflexivity|].
        apply digits_no_sep, take_digits_pretty.
      - rewrite Hpre in *. rewrite append_assoc'.
        apply search_at_end; auto using pretty_nonempty, take_digits_pretty.
      - symmetry. apply int_of_digits_pretty. }
    pose proof (max_N_upper _ _ Hn) as Hle. unfold n in Hle, Hn.
    destruct (found_numbers fs path); [inversion Hn|]. lia.
  - intros Heq.
    assert (Hl := f_equal String.length Heq). rewrite length_append in Hl.
    pose proof (pretty_nonempty n) as Hp.
    destruct (pretty n); [congruence|simpl in Hl; lia].
Qed.

Lemma literal_successive (fs : filesystem) (p : string) :
  let path := Path p in
  exists_ fs path = true ->
  (exists pre, str path = pre +:+ stem path) ->
  re_search_digits (stem path) (str path) = None ->
  exists n : N,
    increment_path_literal fs p false = str path +:+ pretty n /\
    increment_path_literal ((str path +:+ pretty n) :: fs) p false
    = str path +:+ pretty (n + 1)%N.
Proof.
  intros path Hex [pre Hpre] Hnone.
  set (n := match found_numbers fs path with
            | [] => 1%N
            | _ => (max_N (found_numbers fs path) + 1)%N
            end).
  assert (H1 : increment_path_literal fs p false = str path +:+ pretty n).
  { unfold increment_path_literal. fold path. rewrite Hex. reflexivity. }
  exists n. split; [exact H1|].
  assert (Hex' : exists_ ((str path +:+ pretty n) :: fs) path = true).
  { unfold exists_ in *. apply bool_decide_eq_true.
    apply bool_decide_eq_true in Hex. right. exact Hex. }
  assert (Hfound : found_numbers ((str path +:+ pretty n) :: fs) path
                   = n :: found_numbers fs path).
  { unfold found_numbers, glob_star. cbn [List.filter].
    rewrite app_strip_prefix, (digits_no_sep _ (take_digits_pretty n)).
    cbn [negb].
    assert (Hs : re_search_digits (stem path) (str path +:+ pretty n)
                 = Some (pretty n)).
    { rewrite Hpre in *. rewrite append_assoc'.
      apply search_at_end; auto using pretty_nonempty, take_digits_pretty. }
    change (omap (re_search_digits (stem path))
              ((str path +:+ pretty n) :: ?l))
      with (match re_search_digits (stem path) (str path +:+ pretty n) with
            | Some y => y :: omap (re_search_digits (stem path)) l
            | None => omap (re_search_digits (stem path)) l
            end).
    rewrite Hs. rewrite fmap_cons, int_of_digits_pretty. reflexivity. }
  unfold increment_path_literal. fold path.
  rewrite Hex', Hfound. cbn [andb orb negb].
  f_equal. f_equal. cbn [max_N fold_right]. fold (max_N (found_numbers fs path)).
  unfold n. destruct (found_numbers fs path); simpl; lia.
Qed.

Lemma fold_max_upper (rest : list Z) :
  forall x, x <= fold_left Z.max rest x /\
            forall m, m ∈ rest -> m <= fold_left Z.max rest x.
Proof.
  induction rest as [|y rest IH]; intros x; simpl.
  - split; [lia|]. intros m Hm. inversion Hm.
  - destruct (IH (Z.max x y)) as [H1 H2]. split; [lia|].
    intros m Hm. apply elem_of_cons in Hm as [->|Hm]; [lia|auto].
Qed.

Lemma fold_max_elem (rest : list Z) :
  forall x, fold_left Z.max rest x = x \/ fold_left Z.max rest x ∈ rest.
Proof.
  induction rest as [|y rest IH]; intros x; simpl; [left; reflexivity|].
  destruct (IH (Z.max x y)) as [H|H].
  - rewrite H. destruct (Z.max_spec x y) as [[_ ->]|[_ ->]];
      [right; left|left; reflexivity].
  - right. right. exact H.
Qed.

Lemma py_max_Z_ext (i j : list Z) :
  (forall m, m ∈ i <-> m ∈ j) -> py_max_Z i = py_max_Z j.
Proof.
  intros H. destruct i as [|x i], j as [|y j]; [reflexivity| | |].
  - exfalso. assert (Hy : y ∈ @nil Z) by (apply H; left). inversion Hy.
  - exfalso. assert (Hx : x ∈ @nil Z) by (apply H; left). inversion Hx.
  - assert (Hup : forall (a : Z) l m, m ∈ a :: l -> m <= py_max_Z (a :: l)).
    { intros a l m Hm. simpl. destruct (fold_max_upper l a) as [H1 H2].
      apply elem_of_cons in Hm as [->|Hm]; auto. }
    assert (Hel : forall (a : Z) l, py_max_Z (a :: l) ∈ a :: l).
    { intros a l. simpl. destruct (fold_max_elem l a) as [->|Hm];
        [left|right; exact Hm]. }
    apply Z.le_antisymm; apply Hup; apply H; apply Hel.
Qed.

Lemma mapM_elems {A B} (f : A -> result B) (l : list A) (ys : list B) :
  mapM f l = Ok ys ->
  forall y, y ∈ ys <-> exists x, x ∈ l /\ f x = Ok y.
Proof.
  intros H. destruct (mapM_subset f l l ys H) as (ys' & H' & Hys); [auto|].
  rewrite H in H'. inversion H'. subst ys'. exact Hys.
Qed.

(** A result of [increment_path] is the result on any file system with the
    same entries. *)
Lemma increment_path_ok_entries `{PatternLaws} (fs fs' : filesystem)
    (p : string) (exist_ok : bool) (r : string) :
  (forall d, d ∈ fs <-> d ∈ fs') ->
  increment_path fs p exist_ok = Ok r -> increment_path fs' p exist_ok = Ok r.
Proof.
  intros Hfs. unfold increment_path.
  assert (He : exists_ fs' (Path p) = exists_ fs (Path p)).
  { unfold exists_. apply bool_decide_ext. symmetry. apply Hfs. }
  rewrite He. destruct (_ || _)%bool; [auto|].
  pose proof (glob_of_entries fs fs' (str (Path p) +:+ "*") Hfs) as Hg.
  set (dirs := glob_glob fs (str (Path p) +:+ "*")) in *.
  set (dirs' := glob_glob fs' (str (Path p) +:+ "*")) in *.
  set (f := re_search (stem (Path p) +:+ "(\d+)")).
  destruct (mapM f dirs) as [ms|e] eqn:E1; [|discriminate].
  cbn [mbind result_bind rbind].
  destruct (mapM py_int (omap id ms)) as [i|e] eqn:E2; [|discriminate].
  cbn [mbind result_bind rbind]. intros Hr.
  destruct (mapM_subset f dirs dirs' ms E1) as (ms' & E1' & Hms').
  { intros d Hd. apply Hg. exact Hd. }
  pose proof (mapM_elems f dirs ms E1) as Hms.
  rewrite E1'. cbn [mbind result_bind rbind].
  assert (Hom : forall g, g ∈ omap id ms' <-> g ∈ omap id ms).
  { intros g. rewrite !list_elem_of_omap. split.
    - intros (o & Ho & Hg'). exists o. split; [|exact Hg'].
      apply Hms. apply Hms' in Ho as (d & Hd & Hfd). exists d.
      split; [apply Hg; exact Hd|exact Hfd].
    - intros (o & Ho & Hg'). exists o. split; [|exact Hg'].
      apply Hms'. apply Hms in Ho as (d & Hd & Hfd). exists d.
      split; [apply Hg; exact Hd|exact Hfd]. }
  destruct (mapM_subset py_int (omap id ms) (omap id ms') i E2)
    as (i' & E2' & Hi'); [intros g; apply Hom|].
  pose proof (mapM_elems py_int _ i E2) as Hi.
  rewrite E2'. cbn [mbind result_bind rbind].
  assert (Hii : forall m, m ∈ i' <-> m ∈ i).
  { intros m. rewrite Hi, Hi'. split; intros (g & Hg' & Hm); exists g;
      (split; [apply Hom; exact Hg'|exact Hm]). }
  rewrite <- Hr. f_equal. f_equal.
  rewrite (py_max_Z_ext _ _ Hii).
  destruct i' as [|x' i'], i as [|x i]; try reflexivity.
  exfalso. assert (Hx : x ∈ @nil Z) by (apply Hii; left). inversion Hx.
Qed.

(** X12. The path returned by [increment_path] depends on which entries
    exist, not on the order in which the glob lists them nor on repetitions:
    on two file systems with the same entries the calls return the same
    path or both raise, and on a path without pattern characters they give
    the same result. *)
Theorem increment_path_order_independent `{PatternLaws}
    (fs fs' : filesystem) (p : string) (exist_ok : bool) :
  (forall d, d ∈ fs <-> d ∈ fs') ->
  (forall r, increment_path fs p exist_ok = Ok r
             <-> increment_path fs' p exist_ok = Ok r) /\
  (plain (Path p) ->
   increment_path fs p exist_ok = increment_path fs' p exist_ok).
Proof.
  intros Hfs. split.
  - intros r. split; apply increment_path_ok_entries; [exact Hfs|].
    intros d. symmetry. apply Hfs.
  - intros Hp. rewrite !increment_path_plain by exact Hp.
    f_equal. apply literal_order_independent. exact Hfs.
Qed.

Lemma increment_path_order_independent_witness :
  increment_path (H := literal_patterns)
    ["runs/exp"; "runs/exp2"; "runs/exp10"] "runs/exp" false
  = increment_path (H := literal_patterns)
      ["runs/exp10"; "runs/exp"; "runs/exp2"; "runs/exp"] "runs/exp" false.
Proof.
  apply (increment_path_order_independent (H := literal_patterns_laws)).
  - intros d. rewrite !elem_of_cons, !elem_of_nil. tauto.
  - repeat split. discriminate.
Defined.

(** X10. For an existing path without pattern characters whose name has no
    suffix (the path string ends with its stem) and whose string nowhere has
    the stem followed by a digit, [increment_path] returns, and the numbered
    path it returns is a new one: it is not among the existing entries, and
    it is not the path itself. *)
Theorem increment_path_fresh `{PatternLaws} (fs : filesystem) (p : string) :
  let path := Path p in
  plain path ->
  exists_ fs path = true ->
  (exists pre, str path = pre +:+ stem path) ->
  re_search_digits (stem path) (str path) = None ->
  exists r, increment_path fs p false = Ok r /\ (r ∉ fs) /\ r <> str path.
Proof.
  intros path Hp Hex Hpre Hnone.
  exists (increment_path_literal fs p false).
  split; [apply increment_path_plain; exact Hp|].
  apply literal_fresh; assumption.
Qed.

Lemma increment_path_fresh_witness :
  exists r,
    increment_path (H := literal_patterns)
      ["model/k0/exp"; "model/k0/exp1"; "model/k0/exp12"] "model/k0/exp" false
    = Ok r /\
    (r ∉ ["model/k0/exp"; "model/k0/exp1"; "model/k0/exp12"]) /\
    r <> "model/k0/exp".
Proof.
  apply (increment_path_fresh (H := literal_patterns_laws)
           ["model/k0/exp"; "model/k0/exp1"; "model/k0/exp12"] "model/k0/exp").
  - repeat split. discriminate.
  - reflexivity.
  - exists "model/k0/". reflexivity.
  - reflexivity.
Defined.

(** X11. Under the same conditions, once the returned directory exists the
    next call returns the next number: the [n] written by [f"{path}{n}"] is
    read back by the search and [int], so successive runs get [n], [n + 1]. *)
Theorem increment_path_successive `{PatternLaws} (fs : filesystem)
    (p : string) :
  let path := Path p in
  plain path ->
  exists_ fs path = true ->
  (exists pre, str path = pre +:+ stem path) ->
  re_search_digits (stem path) (str path) = None ->
  exists n : N,
    increment_path fs p false = Ok (str path +:+ pretty n) /\
    increment_path ((str path +:+ pretty n) :: fs) p false
    = Ok (str path +:+ pretty (n + 1)%N).
Proof.
  intros path Hp Hex Hpre Hnone.
  destruct (literal_successive fs p Hex Hpre Hnone) as (n & H1 & H2).
  exists n. split.
  - rewrite increment_path_plain by exact Hp. f_equal. exact H1.
  - rewrite increment_path_plain by exact Hp. f_equal. exact H2.
Qed.

Lemma increment_path_successive_witness :
  exists n : N,
    increment_path (H := literal_patterns)
      ["model/k0/exp"; "model/k0/exp1"] "model/k0/exp" false
    = Ok ("model/k0/exp" +:+ pretty n) /\
    increment_path (H := literal_patterns)
      (("model/k0/exp" +:+ pretty n) :: ["model/k0/exp"; "model/k0/exp1"])
      "model/k0/exp" false
    = Ok ("model/k0/exp" +:+ pretty (n + 1)%N).
Proof.
  apply (increment_path_successive (H := literal_patterns_laws)
           ["model/k0/exp"; "model/k0/exp1"] "model/k0/exp").
  - repeat split. discriminate.
  - reflexivity.
  - exists "model/k0/". reflexivity.
  - reflexivity.
Defined.

End NumberingProps.

(** ** Whole runs, epochs and steps *)

Module RunProps.
Import Paths Train TrainProps Run.

Section Raising.
Context {FL : Float} {FW : Framework} {PL : Patterns}.

Lemma yields_raises {A} (P : event -> Prop) (m : M A) (s : store) :
  yields P (fun _ => False) m -> exists e, fst (m s) = Err e.
Proof.
  intros H. destruct (H s) as [_ HQ].
  destruct (fst (m s)) as [x|e]; [destruct HQ|eauto].
Qed.

Lemma yields_fail {A} (P : event -> Prop) (Q : A -> Prop) (e : exn) :
  yields P Q (lift (Err e)).
Proof. apply yields_lift_post. intros x Hx. discriminate Hx. Qed.

(** In a multi-label run [criterion] is never bound, and every validation
    iteration reads it. *)
Lemma val_batch_multi_raises (a : args) (lc : locals) b v :
  is_multi a = true -> criterion_var lc = None ->
  yields silent (fun _ => False) (val_batch a lc b v).
Proof.
  intros Hm Hc. unfold val_batch. destruct b as [inputs labels].
  rewrite Hm, Hc. cbv [negb].
  apply yields_bind_any; [yields_step|intros labels'].
  apply yields_bind_any; [repeat yields_step; reflexivity|intros outs].
  apply yields_bind_any; [repeat yields_step; reflexivity|intros [preds targets]].
  apply (yields_bind _ (fun _ => False)); [apply yields_fail|intros x []].
Qed.

Lemma val_loop_multi (a : args) (lc : locals) batches v :
  is_multi a = true -> criterion_var lc = None ->
  yields silent (fun v' => v' = v) (val_loop a lc batches v).
Proof.
  intros Hm Hc. destruct batches as [|b rest]; simpl.
  - yields_step.
  - apply (yields_bind _ (fun _ => False));
      [apply val_batch_multi_raises; auto|intros x []].
Qed.

Lemma validate_multi_raises (a : args) (lc : locals) epoch b :
  is_multi a = true -> criterion_var lc = None ->
  yields silent (fun _ => False) (validate a lc epoch b).
Proof.
  intros Hm Hc. unfold validate.
  apply (yields_bind _ (fun v' => v' = VState [] [] [] [] None));
    [apply val_loop_multi; auto|intros v ->].
  unfold epoch_end. simpl.
  apply (yields_bind _ (fun _ => False)); [apply yields_fail|intros x []].
Qed.


(** Events that are neither a checkpoint nor a validation log. *)
Lemma silent_before_validation (e : event) :
  silent e -> is_checkpoint e = false /\ is_val_log e = false.
Proof. unfold silent. destruct e; simpl; try discriminate; auto. Qed.

Lemma account_before_validation (a : args) (epoch n idx : nat) item gain m m' evs :
  account a epoch n idx item gain m = Ok (m', evs) ->
  Forall (fun e => is_checkpoint e = false /\ is_val_log e = false) evs.
Proof.
  unfold account, py_div. intros H.
  repeat match type of H with
         | context [if ?c then _ else _] => destruct c; simpl in H
         end; inversion H; repeat constructor.
Qed.

Lemma train_loop_before_validation (a : args) (lc : locals) epoch n batches :
  forall idx m,
  yields (fun e => is_checkpoint e = false /\ is_val_log e = false)
         (fun _ => True) (train_loop a lc epoch n idx batches m).
Proof.
  induction batches as [|b rest IH]; intros idx m; simpl.
  - yields_step.
  - apply yields_bind_any.
    { eapply yields_weaken;
        [apply silent_before_validation|auto|apply train_batch_silent]. }
    intros [item gain].
    apply (yields_bind _ (fun x =>
             Forall (fun e => is_checkpoint e = false /\ is_val_log e = false)
                    (snd x))).
    + apply yields_lift_post. intros [m' evs] Hx. simpl.
      eapply account_before_validation; eauto.
    + intros [m' evs] Hevs. simpl in Hevs.
      apply yields_bind_any; [apply yields_emit_all; exact Hevs|].
      intros _. apply IH.
Qed.

Lemma run_epochs_multi_raises (a : args) (lc : locals) es :
  is_multi a = true -> criterion_var lc = None ->
  forall b,
  yields (fun e => is_checkpoint e = false /\ is_val_log e = false)
         (fun _ => es = []) (run_epochs a lc es b).
Proof.
  intros Hm Hc b. destruct es as [|epoch es]; simpl.
  - yields_step.
  - apply (yields_bind _ (fun _ => False)); [|intros x []].
    unfold run_epoch.
    apply yields_bind_any; [repeat yields_step|intros _].
    apply yields_bind_any; [apply train_loop_before_validation|intros _].
    eapply yields_weaken;
      [apply silent_before_validation| |apply validate_multi_raises; auto].
    auto.
Qed.

Lemma setup_multi (fs : filesystem) (kk : Z) (data_dir model_dir : string)
    (a : args) :
  is_multi a = true ->
  yields (fun e => is_checkpoint e = false /\ is_val_log e = false)
         (fun lc => criterion_var lc = None)
         (setup fs kk data_dir model_dir a).
Proof.
  intros Hm. unfold setup. rewrite Hm.
  do 4 (apply yields_bind_any; [yields_step; auto|intros ?]).
  apply yields_bind_any; [yields_step|intros ?].
  destruct (split_dataset _) as [train_set val_set].
  do 3 (apply yields_bind_any; [yields_step|intros ?]).
  do 3 (apply yields_bind_any; [yields_step; auto|intros ?]).
  apply (yields_bind _ (fun p => fst p = None)).
  { apply yields_bind_any; [yields_step|intros ?]. apply yields_ret. reflexivity. }
  intros [criterion loss_func] Hp. simpl in Hp. subst criterion.
  apply yields_bind_any; [repeat yields_step|intros ?].
  do 2 (apply yields_bind_any; [yields_step; auto|intros ?]).
  apply yields_bind_any; [yields_step|intros ?].
  apply yields_ret. reflexivity.
Qed.

(** X1. A run with [--criterion multi_label] never gets through a
    validation pass: [criterion] is bound only in the other mode, every
    validation iteration reads it, and without iterations [torch.cat] has
    nothing to join.  So the run saves no checkpoint and logs no validation
    scalar or figure, and with at least one epoch it raises. *)
Theorem multi_label_run_never_checkpoints (fs : filesystem) (kk : Z)
    (data_dir model_dir : string) (a : args) (s : store) :
  is_multi a = true ->
  let run := train fs kk data_dir model_dir a s in
  Forall (fun e => is_checkpoint e = false /\ is_val_log e = false)
         (new_events s (snd run)) /\
  (0 < epochs a -> exists e, fst run = Err e).
Proof.
  intros Hm run.
  assert (Hy : yields (fun e => is_checkpoint e = false /\ is_val_log e = false)
                      (fun _ => seq 0 (Z.to_nat (epochs a)) = [])
                      (train fs kk data_dir model_dir a)).
  { unfold train.
    apply (yields_bind _ (fun lc => criterion_var lc = None));
      [apply setup_multi; exact Hm|intros lc Hc].
    apply (yields_bind _ (fun _ => seq 0 (Z.to_nat (epochs a)) = []));
      [apply run_epochs_multi_raises; auto|intros _ He].
    apply yields_ret. exact He. }
  split.
  - apply (yields_new_events _ _ _ s Hy).
  - intros Hpos. destruct (Hy s) as [_ HQ]. fold run in HQ.
    destruct (fst run) as [x|e]; [|eauto].
    exfalso. destruct (Z.to_nat (epochs a)) eqn:E; [lia|discriminate HQ].
Qed.

End Raising.

Lemma multi_label_run_never_checkpoints_witness :
  let run := train (PL := literal_patterns) [] 0 "data" "./model"
                   (demo_args "multi_label" "multi_label" (Fin 0))
                   (@initial_store exact_float (demo_framework true)) in
  Forall (fun e => is_checkpoint e = false /\ is_val_log e = false)
         (new_events initial_store (snd run)) /\
  exists e, fst run = Err e.
Proof.
  intros run.
  destruct (multi_label_run_never_checkpoints (FW := demo_framework true)
              (PL := literal_patterns) [] 0 "data" "./model"
              (demo_args "multi_label" "multi_label" (Fin 0))
              initial_store eq_refl) as [H1 H2].
  split; [exact H1|apply H2; reflexivity].
Defined.

Section Checkpoints.
Context {FL : Float} {FW : Framework} {FO : FloatOrder FL} {PL : Patterns}.

Lemma filter_no_checkpoint (evs : list event) :
  Forall (fun e => is_checkpoint e = false) evs ->
  List.filter is_checkpoint evs = [].
Proof.
  induction 1 as [|e evs He _ IH]; [reflexivity|].
  simpl. rewrite He. exact IH.
Qed.

Lemma filter_checkpoint_saves sd w b acc loss f1 :
  List.filter is_checkpoint (snd (checkpoint sd w b acc loss f1))
  = snd (checkpoint sd w b acc loss f1).
Proof. unfold checkpoint. destruct (flt _ _); reflexivity. Qed.

(** The end of an epoch whose validation gave as many predictions as
    targets: one round of the checkpoint policy on the current weights, then
    the four log entries. *)
Lemma epoch_end_run (a : args) (lc : locals) (epoch : nat) (v : vstate)
    (b : best) (s : store) (t p : ints) (w : weights) :
  torch_cat (target_tensor v) = Ok t ->
  torch_cat (pred_tensor v) = Ok p ->
  length t = length p ->
  model_var s = Some w ->
  let val_f1 := f1_macro t p in
  let val_loss := fdiv (np_sum (val_loss_items v))
                       (of_int (Z.of_nat (length (val_loader lc epoch)))) in
  let val_acc := fdiv (of_int (sum_Z (val_acc_items v)))
                      (of_int (subset_len (val_set lc))) in
  let r := checkpoint (save_dir lc) w b val_acc val_loss val_f1 in
  epoch_end a lc epoch v b s
  = (Ok (fst r),
     Store (model_var s) (loss_var s)
       (trace s ++ snd r ++
        [EScalar "Val/loss" val_loss (Z.of_nat epoch);
         EScalar "Val/accuracy" val_acc (Z.of_nat epoch);
         EScalar "Val/F1" val_f1 (Z.of_nat epoch);
         EFigure "results" (figure v) (Z.of_nat epoch)])).
Proof.
  intros Ht Hp Hlen Hw val_f1 val_loss val_acc r. unfold epoch_end.
  rewrite Ht. erewrite bind_run_ok by reflexivity.
  rewrite Hp. erewrite bind_run_ok by reflexivity.
  unfold f1_score. rewrite Hlen, Nat.eqb_refl.
  erewrite bind_run_ok by reflexivity.
  erewrite bind_run_ok by (unfold get_net; rewrite Hw; reflexivity).
  fold val_f1 val_loss val_acc r. destruct r as [b' evs]. cbv beta iota.
  erewrite bind_run_ok by apply emit_all_run.
  do 4 (erewrite bind_run_ok by reflexivity).
  cbn [fst snd model_var loss_var trace]. unfold mret, M_ret, ret_M.
  rewrite <- !app_assoc. reflexivity.
Qed.

Lemma epoch_end_one_checkpoint (a : args) (lc : locals) (epoch : nat)
    (v : vstate) (b : best) (s : store) :
  one_checkpoint (save_dir lc) b (epoch_end a lc epoch v b) s.
Proof.
  assert (Hfail : forall e, epoch_end a lc epoch v b s = (Err e, s) ->
            one_checkpoint (save_dir lc) b (epoch_end a lc epoch v b) s).
  { intros e He. exists []. rewrite He, app_nil_r.
    split; [reflexivity|]. left. exists e. split; reflexivity. }
  destruct (torch_cat (target_tensor v)) as [t|e] eqn:Ht.
  2:{ apply (Hfail e). unfold epoch_end. rewrite Ht. reflexivity. }
  destruct (torch_cat (pred_tensor v)) as [p|e] eqn:Hp.
  2:{ apply (Hfail e). unfold epoch_end.
      rewrite Ht. erewrite bind_run_ok by reflexivity.
      rewrite Hp. reflexivity. }
  destruct (Nat.eqb_spec (length t) (length p)) as [Hlen|Hlen].
  2:{ apply (Hfail ValueError). unfold epoch_end.
      rewrite Ht. erewrite bind_run_ok by reflexivity.
      rewrite Hp. erewrite bind_run_ok by reflexivity.
      unfold f1_score. apply Nat.eqb_neq in Hlen. rewrite Hlen. reflexivity. }
  destruct (model_var s) as [w|] eqn:Hw.
  2:{ apply (Hfail UnboundLocalError). unfold epoch_end.
      rewrite Ht. erewrite bind_run_ok by reflexivity.
      rewrite Hp. erewrite bind_run_ok by reflexivity.
      unfold f1_score. rewrite Hlen, Nat.eqb_refl.
      erewrite bind_run_ok by reflexivity.
      erewrite bind_run_err by (unfold get_net; rewrite Hw; reflexivity).
      reflexivity. }
  pose proof (epoch_end_run a lc epoch v b s t p w Ht Hp Hlen Hw) as Hrun.
  cbv zeta in Hrun. rewrite Hw in Hrun.
  eexists. rewrite Hrun. split; [reflexivity|]. right.
  do 4 eexists. split; [reflexivity|].
  rewrite List.filter_app. simpl. rewrite app_nil_r.
  apply filter_checkpoint_saves.
Qed.

Lemma one_checkpoint_bind {A} (m : M A) (k : A -> M best) (sd : string)
    (b : best) (s : store) :
  yields (fun e => is_checkpoint e = false) (fun _ => True) m ->
  (forall x s1, one_checkpoint sd b (k x) s1) ->
  one_checkpoint sd b (mbind k m) s.
Proof.
  intros Hy Hk. destruct (Hy s) as [(evs0 & Ht0 & HP) _].
  apply filter_no_checkpoint in HP.
  destruct (m s) as [[x|e] s1] eqn:E; simpl in Ht0.
  - destruct (Hk x s1) as (evs1 & Ht1 & Hcase).
    unfold one_checkpoint. rewrite (bind_run_ok _ _ _ _ _ E).
    exists (evs0 ++ evs1). split.
    + rewrite Ht1, Ht0, app_assoc. reflexivity.
    + rewrite List.filter_app, HP. exact Hcase.
  - unfold one_checkpoint. rewrite (bind_run_err _ _ _ _ _ E).
    exists evs0. split; [exact Ht0|]. left. exists e. split; [reflexivity|exact HP].
Qed.

(** An epoch saves nothing before the end of its validation. *)
Lemma run_epoch_one_checkpoint (a : args) (lc : locals) (epoch : nat)
    (b : best) (s : store) :
  one_checkpoint (save_dir lc) b (run_epoch a lc epoch b) s.
Proof.
  unfold run_epoch.
  apply one_checkpoint_bind; [repeat yields_step|intros _ s1].
  apply one_checkpoint_bind; [|intros _ s2].
  { eapply yields_weaken; [| |apply train_loop_before_validation];
      [intros e He; exact (proj1 He)|auto]. }
  unfold validate.
  apply one_checkpoint_bind; [|intros v s3; apply epoch_end_one_checkpoint].
  eapply yields_weaken; [| |apply val_loop_silent];
    [intros e He; exact (proj1 (silent_before_validation e He))|auto].
Qed.

(** The epochs of a run, counted in saved checkpoints, are the checkpoint
    policy on the epochs that completed, from the best metrics at the
    start. *)
Lemma run_epochs_checkpoints (a : args) (lc : locals) (es : list nat) :
  forall b s,
  exists evs ms,
    trace (snd (run_epochs a lc es b s)) = trace s ++ evs /\
    (length ms <= length es)%nat /\
    List.filter is_checkpoint evs
    = concat (snd <$> checkpoints (save_dir lc) ms b) /\
    forall b', fst (run_epochs a lc es b s) = Ok b' ->
      length ms = length es /\ b' = best_after (save_dir lc) ms b.
Proof.
  induction es as [|epoch es IH]; intros b s.
  - exists [], []. simpl. rewrite app_nil_r.
    split; [reflexivity|]. split; [lia|]. split; [reflexivity|].
    intros b0 H. inversion H. split; reflexivity.
  - change (run_epochs a lc (epoch :: es) b)
      with (mbind (run_epochs a lc es) (run_epoch a lc epoch b)).
    destruct (run_epoch_one_checkpoint a lc epoch b s)
      as (evs0 & Ht0 & Hcase).
    destruct (run_epoch a lc epoch b s) as [[b1|e] s1] eqn:E; simpl in Ht0.
    + rewrite (bind_run_ok _ _ _ _ _ E).
      destruct Hcase as [(e & He & _)|(w & acc & loss & f1 & Hok & Hf)];
        [discriminate He|].
      simpl in Hok.
      assert (Hb1 : b1 = fst (checkpoint (save_dir lc) w b acc loss f1))
        by congruence.
      clear Hok. destruct (IH b1 s1) as (evs1 & ms & Ht1 & Hl & Hf1 & Hb).
      exists (evs0 ++ evs1), ((w, acc, loss, f1) :: ms).
      split; [rewrite Ht1, Ht0, app_assoc; reflexivity|].
      split; [simpl; lia|]. split.
      * rewrite List.filter_app, Hf, Hf1. simpl. rewrite <- Hb1. reflexivity.
      * intros b' Hb'. destruct (Hb b' Hb') as [Hlen ->].
        split; [simpl; lia|]. simpl. rewrite <- Hb1. reflexivity.
    + rewrite (bind_run_err _ _ _ _ _ E).
      destruct Hcase as [(e' & _ & Hf)|(w & acc & loss & f1 & Hok & _)];
        [|discriminate Hok].
      exists evs0, []. split; [exact Ht0|]. split; [simpl; lia|].
      split; [exact Hf|]. intros b' Hb'. discriminate Hb'.
Qed.

Lemma setup_no_checkpoint (fs : filesystem) (kk : Z)
    (data_dir model_dir : string) (a : args) (sd : string) :
  save_dir_of fs kk model_dir a = Ok sd ->
  yields (fun e => is_checkpoint e = false) (fun lc => save_dir lc = sd)
         (setup fs kk data_dir model_dir a).
Proof.
  intros Hsd. unfold setup. rewrite Hsd.
  apply (yields_bind _ (fun x => x = sd)).
  { apply yields_lift_post. intros x Hx. congruence. }
  intros x ->. repeat yields_step; reflexivity.
Qed.


End Checkpoints.


(** Runs the first computation of a sequence, given its result. *)
Ltac run_step tac :=
  cbv beta iota; rewrite ?bind_bind_run; erewrite bind_run_ok by tac.

Section MixedSteps.
Context {FL : Float} {FW : Framework} {PL : Patterns}.

(** C3. The description of mixing against the code, in a run with
    [--criterion multi_label] and [mixp] other than zero.  The set-up of
    such a run leaves the local [criterion] unbound, and with it unbound no
    training step completes: each raises before any backward pass or
    optimizer step.  When the draw is below
    [mixp] the batch is mixed and the network is run on the mixed inputs,
    and then the lam-weighted loss of line 221 reads [criterion] and raises
    [UnboundLocalError]: the step ends there, and the loss variable is what
    it was. *)
Theorem mixed_step_raises_in_multi_label_run (a : args) (lc : locals)
    (epoch idx : nat) (inputs : list image) (labels : pyval ints) (s : store) :
  is_multi a = true ->
  criterion_var lc = None ->
  feq (mixp a) (of_int 0) = false ->
  let run := train_batch a lc epoch idx (inputs, labels) s in
  (forall fs kk data_dir model_dir s0 s1 lc',
     setup fs kk data_dir model_dir a s0 = (Ok lc', s1) ->
     criterion_var lc' = None) /\
  (exists e, fst run = Err e) /\
  Forall (fun e => is_update e = false) (new_events s (snd run)) /\
  (flt (np_random epoch idx) (mixp a) = true ->
   forall mixed lam ta tb w outs,
     data_mix_var lc inputs labels = Ok (mixed, lam, ta, tb) ->
     model_var s = Some w ->
     forward w true mixed = Ok outs ->
     run = (Err UnboundLocalError,
            Store (Some w) (loss_var s)
              (trace s ++ [EZeroGrad; EMix inputs labels;
                           EForward true mixed]))).
Proof.
  intros Hm Hc Hz run.
  assert (Hsel : select_labels a labels = Ok labels).
  { unfold select_labels. unfold is_multi in Hm. rewrite Hm. reflexivity. }
  assert (Hy : yields (fun e => is_update e = false) (fun _ => False)
                      (train_batch a lc epoch idx (inputs, labels))).
  { unfold train_batch. rewrite Hz, Hc. cbv [negb].
    apply yields_bind_any; [yields_step|intros l].
    apply yields_bind_any; [yields_step; reflexivity|intros _].
    apply (yields_bind _ (fun _ => False)); [|intros x []].
    destruct (flt (np_random epoch idx) (mixp a)).
    - apply yields_bind_any; [yields_step; reflexivity|intros _].
      apply yields_bind_any; [yields_step|intros [[[mixed lam] ta] tb]].
      apply yields_bind_any; [repeat yields_step; reflexivity|intros outs].
      apply (yields_bind _ (fun _ => False)); [apply yields_fail|intros x []].
    - apply yields_bind_any; [yields_step|intros l'].
      apply yields_bind_any; [repeat yields_step; reflexivity|intros outs].
      apply (yields_bind _ (fun _ => False)); [apply yields_fail|intros x []]. }
  split.
  { intros fs kk data_dir model_dir s0 s1 lc' E.
    destruct (setup_multi fs kk data_dir model_dir a Hm s0) as [_ HQ].
    rewrite E in HQ. exact HQ. }
  split; [apply (yields_raises _ _ s Hy)|].
  split; [apply (yields_new_events _ _ _ s Hy)|].
  intros Hd mixed lam ta tb w outs Hmix Hw Hf.
  unfold run, train_batch.
  run_step ltac:(apply lift_run; exact Hsel).
  run_step ltac:(reflexivity).
  rewrite Hz, Hd. cbv [negb].
  run_step ltac:(reflexivity).
  run_step ltac:(apply lift_run; exact Hmix).
  cbv beta iota. rewrite Hw.
  run_step ltac:(apply call_model_run; exact Hf).
  rewrite Hc. cbv beta iota. rewrite ?bind_bind_run.
  erewrite bind_run_err by reflexivity.
  cbn [model_var loss_var trace]. rewrite <- !app_assoc. reflexivity.
Qed.

End MixedSteps.

Lemma mixed_step_raises_in_multi_label_run_witness :
  let a := demo_args "multi_label" "multi_label" (Fin (1 # 2)) in
  train_batch a (demo_locals true a [] []) 0 0 demo_train_batch
              (demo_store true)
  = (Err UnboundLocalError,
     Store (FL := exact_float) (FW := demo_framework true) (Some O) None
       [EZeroGrad;
        EMix (FW := demo_framework true) (fst demo_train_batch)
             (snd demo_train_batch);
        EForward (FW := demo_framework true) true [1; 0]]).
Proof.
  intros a.
  exact (proj2 (proj2 (proj2 (mixed_step_raises_in_multi_label_run
           (FW := demo_framework true) (PL := literal_patterns)
           a (demo_locals true a [] []) 0 0
           (fst demo_train_batch) (snd demo_train_batch) (demo_store true)
           eq_refl eq_refl eq_refl)))
         eq_refl [1; 0] (Fin (1 # 4)) (snd demo_train_batch)
         (snd demo_train_batch) O
         (VDict (<["age" := [1; 0]]> (<["gender" := [1; 0]]>
                                        {["mask" := [1; 0]]})))
         eq_refl eq_refl eq_refl).
Defined.

Section SingleTask.
Context {FL : Float} {FW : Framework}.

Lemma is_update_silent_quiet (e : event) :
  silent e -> is_update e = false ->
  is_update e = false /\ is_scalar e = false /\ written_path e = None.
Proof. unfold silent. destruct e; simpl; try discriminate; auto. Qed.

Lemma train_batch_single_task (a : args) (lc : locals) (epoch idx : nat) b :
  is_multi a = false ->
  yields (fun e => is_update e = false /\ is_scalar e = false /\
                   written_path e = None)
         (fun _ => False) (train_batch a lc epoch idx b).
Proof.
  intros Hm s.
  destruct (train_batch_silent a lc epoch idx b s) as [(evs & Ht & Hs) _].
  destruct (single_task_step_never_updates a lc epoch idx b Hm s)
    as [(evs' & Ht' & Hu) HQ].
  split; [|exact HQ].
  exists evs. split; [exact Ht|].
  rewrite Ht in Ht'. apply app_inv_head in Ht'. subst evs'.
  rewrite Forall_forall in *. intros e He.
  apply is_update_silent_quiet; auto.
Qed.

(** X2. In a single-task run an epoch with training data raises in its
    first training step, at [preds['mask']] or earlier: nothing is
    backpropagated, no optimizer step is taken, nothing is logged and no file
    is written in the epochs that were to run. *)
Theorem single_task_epoch_raises (a : args) (lc : locals) (epoch : nat)
    (rest : list nat) (b : best) (s : store) :
  is_multi a = false -> train_loader lc epoch <> [] ->
  let run := run_epochs a lc (epoch :: rest) b s in
  (exists e, fst run = Err e) /\
  Forall (fun e => is_update e = false /\ is_scalar e = false /\
                   written_path e = None)
         (new_events s (snd run)).
Proof.
  intros Hm Hne run.
  assert (Hy : yields (fun e => is_update e = false /\ is_scalar e = false /\
                                written_path e = None)
                      (fun _ => False) (run_epochs a lc (epoch :: rest) b)).
  { simpl. apply (yields_bind _ (fun _ => False)); [|intros x []].
    unfold run_epoch.
    apply yields_bind_any; [repeat yields_step|intros _].
    apply (yields_bind _ (fun _ => False)); [|intros x []].
    destruct (train_loader lc epoch) as [|b0 batches]; [congruence|]. simpl.
    apply (yields_bind _ (fun _ => False)); [|intros x []].
    apply train_batch_single_task. exact Hm. }
  split.
  - apply (yields_raises _ _ s Hy).
  - apply (yields_new_events _ _ _ s Hy).
Qed.

Lemma preserves_ret {A} (P : event -> Prop) (Q : A -> Prop) (x : A) :
  Q x -> preserves P Q (mret x).
Proof. intros H. split; [apply yields_ret; exact H|intros s; reflexivity]. Qed.

Lemma preserves_lift {A} (P : event -> Prop) (Q : A -> Prop) (r : result A) :
  (forall x, r = Ok x -> Q x) -> preserves P Q (lift r).
Proof. intros H. split; [apply yields_lift_post; exact H|intros s; reflexivity]. Qed.

Lemma preserves_emit (P : event -> Prop) (e : event) :
  P e -> preserves P (fun _ => True) (emit e).
Proof. intros H. split; [apply yields_emit; exact H|intros s; reflexivity]. Qed.

Lemma preserves_get_net (P : event -> Prop) :
  preserves P (fun _ => True) get_net.
Proof. split; [apply yields_get_net|intros s; reflexivity]. Qed.

Lemma preserves_get_loss (P : event -> Prop) :
  preserves P (fun _ => True) get_loss.
Proof. split; [apply yields_get_loss|intros s; reflexivity]. Qed.

Lemma preserves_set_loss (P : event -> Prop) x :
  preserves P (fun _ => True) (set_loss x).
Proof. split; [apply yields_set_loss|intros s; reflexivity]. Qed.

Lemma preserves_bind {A B} (P : event -> Prop) (Q : A -> Prop) (R : B -> Prop)
    (m : M A) (k : A -> M B) :
  preserves P Q m -> (forall x, Q x -> preserves P R (k x)) ->
  preserves P R (mbind k m).
Proof.
  intros [Hy Hk] Hrest. split.
  - apply (yields_bind P Q); [exact Hy|]. intros x Hx. apply (Hrest x Hx).
  - intros s. unfold mbind, M_bind, bind_M.
    specialize (Hk s). destruct (Hy s) as [_ HQ].
    destruct (m s) as [[x|e] s1]; simpl in *; [|exact Hk].
    rewrite <- Hk. apply (Hrest x HQ).
Qed.

Lemma preserves_bind_any {A B} (P : event -> Prop) (R : B -> Prop)
    (m : M A) (k : A -> M B) :
  preserves P (fun _ => True) m -> (forall x, preserves P R (k x)) ->
  preserves P R (mbind k m).
Proof. intros Hm Hk. apply (preserves_bind P (fun _ => True)); auto. Qed.

Lemma preserves_emit_all (P : event -> Prop) (evs : list event) :
  Forall P evs -> preserves P (fun _ => True) (emit_all evs).
Proof.
  intros H. split; [apply yields_emit_all; exact H|].
  intros s. rewrite emit_all_run. reflexivity.
Qed.

End SingleTask.

Ltac preserves_step :=
  lazymatch goal with
  | |- preserves _ _ (mret _) => apply preserves_ret; auto
  | |- preserves _ _ (lift _) => apply preserves_lift; auto
  | |- preserves _ _ (emit _) => apply preserves_emit
  | |- preserves _ _ get_net => apply preserves_get_net
  | |- preserves _ _ get_loss => apply preserves_get_loss
  | |- preserves _ _ (set_loss _) => apply preserves_set_loss
  | |- preserves _ _ (emit_all _) => apply preserves_emit_all
  | |- preserves _ _ (call_model _ _) => unfold call_model
  | |- preserves _ _ (mbind _ _) => apply preserves_bind_any; [|intros ?]
  | |- preserves _ _ (if ?c then _ else _) => destruct c
  | |- preserves _ _ (match ?x with _ => _ end) => destruct x
  end.

Section TensorModels.
Context {FL : Float} {FW : Framework}.

Lemma call_model_preserves (P : event -> Prop) (Q : pyval logits -> Prop)
    (training : bool) inputs :
  (forall w r, forward w training inputs = Ok r -> Q r) ->
  P (EForward training inputs) ->
  preserves P Q (call_model training inputs).
Proof.
  intros Hf HP. unfold call_model.
  apply preserves_bind_any; [preserves_step|intros w].
  apply preserves_bind_any; [preserves_step; exact HP|intros _].
  apply preserves_lift. intros x Hx. eapply Hf; eauto.
Qed.

(** X3. Every class of [model.py] returns a single tensor from [forward].
    With such a model no training step completes, in either mode: the step
    raises where the outputs or the predictions are indexed by task name,
    before the backward pass, and the weights are left as they were. *)
Theorem tensor_model_never_steps (a : args) (lc : locals) (epoch idx : nat)
    (b : list image * pyval ints) (s : store) :
  (forall w tr i r, forward w tr i = Ok r -> exists o, r = VTensor o) ->
  let run := train_batch a lc epoch idx b s in
  (exists e, fst run = Err e) /\
  Forall (fun e => is_update e = false) (new_events s (snd run)) /\
  model_var (snd run) = model_var s.
Proof.
  intros Hf run.
  assert (Hp : preserves (fun e => is_update e = false) (fun _ => False)
                         (train_batch a lc epoch idx b)).
  { unfold train_batch. destruct b as [inputs labels].
    apply preserves_bind_any; [preserves_step|intros labels'].
    apply preserves_bind_any; [preserves_step; reflexivity|intros _].
    apply (preserves_bind _ (fun p => exists o, fst p = VTensor o)).
    { assert (Hcall : forall i,
                preserves (fun e => is_update e = false)
                          (fun r => exists o, r = VTensor o) (call_model true i)).
      { intros i. apply call_model_preserves; [|reflexivity].
        intros w r Hr. eapply Hf; eauto. }
      destruct (negb (feq (mixp a) (of_int 0)));
        [destruct (flt (np_random epoch idx) (mixp a))|].
      - apply preserves_bind_any; [preserves_step; reflexivity|intros _].
        apply preserves_bind_any; [preserves_step|intros [[[mixed lam] ta] tb]].
        apply (preserves_bind _ _ _ _ _ (Hcall mixed)). intros outs Ho.
        repeat (apply preserves_bind_any; [preserves_step|intros ?]).
        apply preserves_ret. exact Ho.
      - apply preserves_bind_any; [preserves_step|intros ?].
        apply (preserves_bind _ _ _ _ _ (Hcall inputs)). intros outs Ho.
        repeat (apply preserves_bind_any; [preserves_step|intros ?]).
        apply preserves_ret. exact Ho.
      - apply (preserves_bind _ _ _ _ _ (Hcall inputs)). intros outs Ho.
        apply preserves_bind_any; [repeat preserves_step|intros ?].
        apply preserves_ret. exact Ho. }
    intros [outs labels''] [o Ho]. simpl in Ho. subst outs.
    destruct (is_multi a).
    - apply (preserves_bind _ (fun _ => False)); [|intros x []].
      apply (preserves_bind _ (fun _ => False)); [|intros x []].
      apply preserves_lift. intros x Hx. discriminate Hx.
    - apply (preserves_bind _ (fun p => exists t, p = VTensor t)).
      { apply preserves_lift. intros x Hx. inversion Hx. eauto. }
      intros preds [t ->].
      apply (preserves_bind _ (fun _ => False)); [|intros x []].
      apply preserves_lift. intros x Hx. discriminate Hx. }
  destruct Hp as [Hy Hk]. split; [|split].
  - apply (yields_raises _ _ s Hy).
  - apply (yields_new_events _ _ _ s Hy).
  - apply Hk.
Qed.

End TensorModels.

Lemma tensor_model_never_steps_witness :
  let a := demo_args "multi_label" "multi_label" (Fin 0) in
  let run := train_batch a (demo_locals false a [] []) 0 0 demo_train_batch
                         (demo_store false) in
  (exists e, fst run = Err e) /\
  Forall (fun e => is_update e = false) (new_events (demo_store false) (snd run)) /\
  model_var (snd run) = Some O.
Proof.
  intros a.
  apply (tensor_model_never_steps (FW := demo_framework false) a
           (demo_locals false a [] []) 0 0 demo_train_batch (demo_store false)).
  intros w tr i r H. inversion H. eauto.
Defined.

Section ValidationPass.
Context {FL : Float} {FW : Framework}.

Lemma val_batch_preserves (a : args) (lc : locals) b v :
  preserves (fun _ => True) (fun _ => True) (val_batch a lc b v).
Proof.
  unfold val_batch. destruct b as [inputs labels].
  repeat preserves_step; exact I.
Qed.

Lemma val_loop_preserves (a : args) (lc : locals) batches :
  forall v, preserves (fun _ => True) (fun _ => True) (val_loop a lc batches v).
Proof.
  induction batches as [|b rest IH]; intros v; simpl.
  - preserves_step.
  - apply preserves_bind_any; [apply val_batch_preserves|auto].
Qed.

(** X6. Validation never changes the weights: the loop over the validation
    batches, the metrics, the checkpoints and the logs leave [model] as the
    training loop left it, whether the pass completes or raises. *)
Theorem validation_keeps_model (a : args) (lc : locals) (epoch : nat)
    (b : best) (s : store) :
  model_var (snd (validate a lc epoch b s)) = model_var s /\
  forall batches v, model_var (snd (val_loop a lc batches v s)) = model_var s.
Proof.
  split; [|intros batches v; apply val_loop_preserves].
  assert (Hp : preserves (fun _ => True) (fun _ => True) (validate a lc epoch b)).
  { unfold validate.
    apply preserves_bind_any; [apply val_loop_preserves|intros v].
    unfold epoch_end.
    do 4 (apply preserves_bind_any; [preserves_step|intros ?]).
    destruct (checkpoint _ _ _ _ _ _) as [b' evs].
    apply preserves_bind_any.
    { apply preserves_emit_all. apply Forall_forall. auto. }
    intros _. repeat preserves_step; exact I. }
  apply Hp.
Qed.

Lemma get_net_ok_inv (s s1 : store) (w : weights) :
  get_net s = (Ok w, s1) -> model_var s = Some w /\ s1 = s.
Proof.
  unfold get_net. destruct (model_var s) as [w'|] eqn:E; simpl; intros H;
    inversion H; subst; auto.
Qed.

Lemma call_model_ok_inv (training : bool) inputs (s s1 : store) outs :
  call_model training inputs s = (Ok outs, s1) ->
  exists w, model_var s = Some w /\ forward w training inputs = Ok outs /\
            s1 = Store (model_var s) (loss_var s)
                       (trace s ++ [EForward training inputs]).
Proof.
  unfold call_model. intros H.
  apply bind_ok_inv in H as (w & s2 & Hg & H).
  apply get_net_ok_inv in Hg as [Hw ->].
  apply bind_ok_inv in H as ([] & s3 & He & H).
  apply emit_ok_inv in He. subst s3.
  apply lift_ok_inv in H as [Hf ->]. eauto.
Qed.

(** A completed validation iteration of a single-task run, in full. *)
Lemma val_batch_single_task_inv (a : args) (lc : locals) inputs labels v s v' s' :
  is_multi a = false ->
  val_batch a lc (inputs, labels) v s = (Ok v', s') ->
  exists l o w,
    select_labels a labels = Ok (VTensor l) /\
    forward w false inputs = Ok (VTensor o) /\
    target_tensor v' = target_tensor v ++ [l; l] /\
    pred_tensor v' = pred_tensor v ++ [argmax o] /\
    (figure v = None -> (16 <= length inputs)%nat) /\
    (figure v <> None -> figure v' <> None).
Proof.
  intros Hm H.
  assert (H16 : figure v = None -> (16 <= length inputs)%nat).
  { intros Hfig. eapply val_batch_first_needs_16; eauto. }
  unfold val_batch in H. rewrite Hm in H. simpl in H.
  repeat match goal with
         | Hb : mbind _ _ _ = (Ok _, _) |- _ =>
             apply bind_ok_inv in Hb as (? & ? & ? & Hb)
         | Hb : (let '(_, _) := ?p in _) _ = _ |- _ => destruct p
         | Hl : lift _ _ = (Ok _, _) |- _ => apply lift_ok_inv in Hl as [Hl ->]
         | Hc : call_model _ _ _ = (Ok _, _) |- _ =>
             apply call_model_ok_inv in Hc as (? & ? & ? & ->)
         end.
  repeat match goal with
         | Hx : _ <$> ?r = Ok _ |- _ =>
             destruct r eqn:?; simpl in Hx; inversion Hx; subst; clear Hx
         end.
  repeat match goal with
         | Hx : to_device ?x = Ok _ |- _ =>
             is_var x; destruct x; simpl in Hx; inversion Hx; subst; clear Hx
         | Hx : tensor_arg ?x = Ok _ |- _ =>
             is_var x; destruct x; simpl in Hx; inversion Hx; subst; clear Hx
         | Hx : to_device (VTensor _) = Ok _ |- _ =>
             simpl in Hx; inversion Hx; subst; clear Hx
         | Hx : tensor_arg (VTensor _) = Ok _ |- _ =>
             simpl in Hx; inversion Hx; subst; clear Hx
         end.
  repeat match goal with
         | Hr : mret _ _ = (Ok _, _) |- _ => inversion Hr; subst; clear Hr
         | Hr : match figure v with _ => _ end _ = (Ok _, _) |- _ =>
             destruct (figure v) eqn:Hfig
         | Hl : lift _ _ = (Ok _, _) |- _ => apply lift_ok_inv in Hl as [Hl ->]
         end.
  all: do 3 eexists; simpl; rewrite <- ?app_assoc; simpl;
    repeat split; eauto; try congruence.
Qed.

Lemma val_loop_single_task_lengths (a : args) (lc : locals) batches :
  is_multi a = false ->
  (forall w inputs o, forward w false inputs = Ok (VTensor o) ->
                      length (argmax o) = length inputs) ->
  (forall inputs labels l, (inputs, labels) ∈ batches ->
     select_labels a labels = Ok (VTensor l) -> length l = length inputs) ->
  forall v s v' s',
  val_loop a lc batches v s = (Ok v', s') ->
  let K := length (concat (fst <$> batches)) in
  length (concat (target_tensor v'))
  = (length (concat (target_tensor v)) + 2 * K)%nat /\
  length (concat (pred_tensor v'))
  = (length (concat (pred_tensor v)) + K)%nat /\
  length (target_tensor v')
  = (length (target_tensor v) + 2 * length batches)%nat /\
  length (pred_tensor v') = (length (pred_tensor v) + length batches)%nat /\
  (figure v = None -> batches <> [] -> (16 <= K)%nat).
Proof.
  intros Hm Hp. induction batches as [|[inputs labels] rest IH];
    intros Hl v s v' s' H.
  - inversion H; subst. simpl. repeat split; try lia. congruence.
  - change (val_loop a lc ((inputs, labels) :: rest) v)
      with (mbind (fun v1 => val_loop a lc rest v1)
                  (val_batch a lc (inputs, labels) v)) in H.
    apply bind_ok_inv in H as (v1 & s1 & Hb & H).
    destruct (val_batch_single_task_inv _ _ _ _ _ _ _ _ Hm Hb)
      as (l & o & w & Hsel & Hf & Ht & Hpr & H16 & Hfig).
    apply IH in H; [|intros; eapply Hl; eauto; right; eauto].
    destruct H as (H1 & H2 & H3 & H4 & _).
    pose proof (Hp _ _ _ Hf) as Ho.
    pose proof (Hl inputs labels l ltac:(left) Hsel) as Hlen.
    rewrite Ht in H1, H3. rewrite Hpr in H2, H4.
    rewrite concat_app, length_app in H1, H2. simpl in H1, H2, H3, H4.
    rewrite !length_app in H1, H2, H3, H4. simpl in H1, H2, H3, H4.
    rewrite app_nil_r in H1.
    cbn [fmap list_fmap fst concat length]. rewrite length_app.
    split; [lia|]. split; [lia|]. split; [lia|]. split; [lia|].
    intros Hn _. specialize (H16 Hn). lia.
Qed.

(** X5. Validation of a single-task run, with one label and one prediction
    per image, never completes.  Without validation batches [torch.cat]
    raises [RuntimeError] at once.  Otherwise, if the loop gets through the
    batches, it has appended every batch's labels twice and its predictions
    once, so [f1_score] is given twice as many targets as predictions and
    raises [ValueError].  Either way nothing is saved or logged. *)
Theorem single_task_validation_raises (a : args) (lc : locals) (epoch : nat)
    (b : best) (s : store) :
  is_multi a = false ->
  (forall w inputs o, forward w false inputs = Ok (VTensor o) ->
                      length (argmax o) = length inputs) ->
  (forall inputs labels l, (inputs, labels) ∈ val_loader lc epoch ->
     select_labels a labels = Ok (VTensor l) -> length l = length inputs) ->
  let run := validate a lc epoch b s in
  (exists e, fst run = Err e) /\
  (val_loader lc epoch = [] -> run = (Err RuntimeError, s)) /\
  (forall v s1,
     val_loop a lc (val_loader lc epoch) (VState [] [] [] [] None) s
     = (Ok v, s1) ->
     val_loader lc epoch <> [] ->
     length (target_tensor v) = (2 * length (pred_tensor v))%nat /\
     length (concat (target_tensor v))
     = (2 * length (concat (pred_tensor v)))%nat /\
     run = (Err ValueError, s1)) /\
  Forall silent (new_events s (snd run)).
Proof.
  intros Hm Hp Hl run.
  assert (Hcase : forall v s1,
     val_loop a lc (val_loader lc epoch) (VState [] [] [] [] None) s
     = (Ok v, s1) ->
     (val_loader lc epoch = [] /\ run = (Err RuntimeError, s1) /\ s1 = s) \/
     (val_loader lc epoch <> [] /\
      length (target_tensor v) = (2 * length (pred_tensor v))%nat /\
      length (concat (target_tensor v))
      = (2 * length (concat (pred_tensor v)))%nat /\
      run = (Err ValueError, s1))).
  { intros v s1 Hloop.
    pose proof (val_loop_single_task_lengths a lc _ Hm Hp Hl _ _ _ _ Hloop)
      as (H1 & H2 & H3 & H4 & H16). simpl in H1, H2, H3, H4.
    assert (Hrun : run = epoch_end a lc epoch v b s1).
    { unfold run, validate, mbind, M_bind, bind_M. rewrite Hloop. reflexivity. }
    rewrite Hrun. clear Hrun.
    destruct (val_loader lc epoch) as [|b0 rest] eqn:Hb.
    - left. simpl in Hloop. inversion Hloop; subst. auto.
    - right. split; [congruence|]. specialize (H16 eq_refl ltac:(congruence)).
      split; [simpl in *; lia|]. split; [lia|].
      unfold epoch_end.
      destruct (target_tensor v) as [|t ts] eqn:Et; [simpl in H3; lia|].
      destruct (pred_tensor v) as [|p ps] eqn:Ep; [simpl in H4; lia|].
      unfold torch_cat, f1_score, mbind, M_bind, bind_M, lift.
      destruct (Nat.eqb_spec (length (concat (t :: ts)))
                             (length (concat (p :: ps)))) as [E|E]; [lia|].
      reflexivity. }
  assert (Hsil : Forall silent (new_events s (snd run))).
  { destruct (val_loop a lc (val_loader lc epoch) (VState [] [] [] [] None) s)
      as [[v|e] s1] eqn:Hloop.
    - assert (Hs1 : snd run = s1).
      { destruct (Hcase v s1 eq_refl) as [(_ & -> & _)|(_ & _ & _ & ->)];
          reflexivity. }
      rewrite Hs1.
      pose proof (yields_new_events _ _ _ s (val_loop_silent a lc
                    (val_loader lc epoch) (VState [] [] [] [] None))) as Hn.
      rewrite Hloop in Hn. exact Hn.
    - assert (Hs1 : snd run = s1).
      { unfold run, validate, mbind, M_bind, bind_M. rewrite Hloop. reflexivity. }
      rewrite Hs1.
      pose proof (yields_new_events _ _ _ s (val_loop_silent a lc
                    (val_loader lc epoch) (VState [] [] [] [] None))) as Hn.
      rewrite Hloop in Hn. exact Hn. }
  split; [|split; [|split]].
  - destruct (val_loop a lc (val_loader lc epoch) (VState [] [] [] [] None) s)
      as [[v|e] s1] eqn:Hloop.
    + destruct (Hcase v s1 eq_refl) as [(_ & -> & _)|(_ & _ & _ & ->)]; eauto.
    + exists e. unfold run, validate, mbind, M_bind, bind_M.
      rewrite Hloop. reflexivity.
  - intros He. unfold run, validate. rewrite He. reflexivity.
  - intros v s1 Hloop Hne.
    destruct (Hcase v s1 Hloop) as [(He & _)|(_ & H)]; [congruence|exact H].
  - exact Hsil.
Qed.

End ValidationPass.

Section CompletedStep.
Context {FL : Float} {FW : Framework}.

Lemma get_loss_ok_inv (s s1 : store) (x : float) :
  get_loss s = (Ok x, s1) -> loss_var s = Some x /\ s1 = s.
Proof.
  unfold get_loss. destruct (loss_var s) as [x'|] eqn:E; simpl; intros H;
    inversion H; subst; auto.
Qed.

Lemma set_loss_ok_inv (x : float) (s s1 : store) (u : unit) :
  set_loss x s = (Ok u, s1) -> s1 = Store (model_var s) (Some x) (trace s).
Proof. unfold set_loss. intros H. inversion H. reflexivity. Qed.

Lemma fmap_ok_inv {A B} (f : A -> B) (r : result A) (y : B) :
  f <$> r = Ok y -> exists x, r = Ok x /\ y = f x.
Proof. destruct r as [x|e]; simpl; intros H; inversion H; eauto. Qed.

Lemma getitem_ok_inv {T} (v : pyval T) (key : string) (t : T) :
  getitem v key = Ok t -> exists d, v = VDict d /\ d !! key = Some t.
Proof.
  destruct v as [t'|d]; simpl; [discriminate|].
  destruct (d !! key) eqn:E; intros H; inversion H; subst; eauto.
Qed.

End CompletedStep.

(** Takes a completed computation of the driver apart, bind by bind. *)
Ltac run_inv :=
  repeat match goal with
         | Hb : mbind _ _ _ = (Ok _, _) |- _ =>
             apply bind_ok_inv in Hb as (? & ? & ? & Hb)
         | Hb : (let '(_, _) := ?p in _) _ = _ |- _ => destruct p eqn:?
         | Hl : lift _ _ = (Ok _, _) |- _ => apply lift_ok_inv in Hl as [Hl ->]
         | Hl : emit _ _ = (Ok _, _) |- _ => apply emit_ok_inv in Hl; subst
         | Hl : set_net _ _ = (Ok _, _) |- _ => apply set_net_ok_inv in Hl; subst
         | Hl : set_loss _ _ = (Ok _, _) |- _ => apply set_loss_ok_inv in Hl; subst
         | Hl : get_net _ = (Ok _, _) |- _ => apply get_net_ok_inv in Hl as [Hl ->]
         | Hl : get_loss _ = (Ok _, _) |- _ => apply get_loss_ok_inv in Hl as [Hl ->]
         | Hc : call_model _ _ _ = (Ok _, _) |- _ =>
             apply call_model_ok_inv in Hc as (? & ? & ? & ->)
         | Hr : mret _ _ = (Ok _, _) |- _ => inversion Hr; subst; clear Hr
         | Hb : (if ?c then _ else _) _ = (Ok _, _) |- _ => destruct c eqn:?
         end.

Section CompletedSteps.
Context {FL : Float} {FW : Framework} {PL : Patterns}.

(** X4. A training step completes only in a multi-label run without mixing,
    on a model that returns one output per task.  It has then run the network
    once on the batch's own inputs, taken the weighted loss of
    [multi_criterion], backpropagated that loss, updated the weights once,
    and counted the encoded predictions that equal [labels['label']]; the
    events are [zero_grad], forward, backward, step, in this order. *)
Theorem completed_step (a : args) (lc : locals) (epoch idx : nat)
    (inputs : list image) (labels : pyval ints) (s s' : store)
    (loss : float) (gain : Z) :
  (is_multi a = true -> criterion_var lc = None) ->
  train_batch a lc epoch idx (inputs, labels) s = (Ok (loss, gain), s') ->
  is_multi a = true /\ feq (mixp a) (of_int 0) = true /\
  exists w d lf target om og oa,
    model_var s = Some w /\
    forward w true inputs = Ok (VDict d) /\
    loss_func_var lc = Some lf /\
    multi_criterion lf (VDict d) labels = Ok loss /\
    d !! "mask" = Some om /\ d !! "gender" = Some og /\ d !! "age" = Some oa /\
    getitem labels "label" = Ok target /\
    eq_sum (encode_multi_class (argmax om) (argmax og) (argmax oa)) target
    = Ok gain /\
    s' = Store (Some (optimizer_step w loss)) (Some loss)
               (trace s ++ [EZeroGrad; EForward true inputs;
                            EBackward loss; EOptStep]).
Proof.
  intros Hc H. destruct (is_multi a) eqn:Hm.
  - specialize (Hc eq_refl). split; [reflexivity|].
    unfold train_batch, select_labels in H. fold (is_multi a) in H.
    rewrite Hm, Hc in H. cbv [negb] in H.
    run_inv; try discriminate.
    simpl in *.
    repeat match goal with
           | Hx : Ok _ = Ok _ |- _ => inversion Hx; subst; clear Hx
           | Hx : Some _ = Some _ |- _ => inversion Hx; subst; clear Hx
           end.
    destruct (feq (mixp a) (of_int 0)); [|discriminate]. split; [reflexivity|].
    repeat match goal with
           | Hx : argmax <$> _ = Ok _ |- _ =>
               apply fmap_ok_inv in Hx as (? & Hx & ->)
           end.
    repeat match goal with
           | Hx : getitem ?p _ = Ok _ |- _ =>
               is_var p; apply getitem_ok_inv in Hx as (? & -> & Hx)
           | Hx : getitem (VDict _) _ = Ok _ |- _ =>
               apply getitem_ok_inv in Hx as (? & Hd & Hx);
               inversion Hd; subst; clear Hd
           end.
    destruct (loss_func_var lc) as [lf|] eqn:Hlf; [|discriminate].
    match goal with
    | Hx : read_local _ = Ok _ |- _ => simpl in Hx; inversion Hx; subst; clear Hx
    end.
    rewrite H in *.
    repeat match goal with
           | Hx : Some _ = Some _ |- _ => inversion Hx; subst; clear Hx
           end.
    rewrite lookup_insert_ne, lookup_insert_ne, lookup_singleton_eq in H4
      by discriminate.
    rewrite lookup_insert_ne, lookup_insert_eq in H5 by discriminate.
    rewrite lookup_insert_eq in H6.
    inversion H4; inversion H5; inversion H6; subst.
    do 7 eexists. rewrite <- !app_assoc. simpl.
    repeat split; eauto. simpl. rewrite H13. reflexivity.
  - exfalso.
    destruct (single_task_step_never_updates a lc epoch idx (inputs, labels)
                Hm s) as [_ HQ].
    rewrite H in HQ. exact HQ.
Qed.

(** X7. With [log_interval = 0], or with [batch_size = 0] at the end of a
    logging window, the bookkeeping that follows a completed training step
    raises [ZeroDivisionError]: the step's update has been applied, and
    nothing is logged. *)
Theorem logging_divides_by_zero (a : args) (lc : locals) (epoch n idx : nat)
    (b : list image * pyval ints) (rest : list (list image * pyval ints))
    (m : meters) (s s1 : store) (item : float) (gain : Z) :
  log_interval a = 0 \/
  (batch_size a = 0 /\ (Z.of_nat idx + 1) mod log_interval a = 0) ->
  train_batch a lc epoch idx b s = (Ok (item, gain), s1) ->
  account a epoch n idx item gain m = Err ZeroDivisionError /\
  train_loop a lc epoch n idx (b :: rest) m s = (Err ZeroDivisionError, s1).
Proof.
  intros Hz Hb.
  assert (Ha : account a epoch n idx item gain m = Err ZeroDivisionError).
  { unfold account. destruct Hz as [->|[Hbs Hmod]]; [reflexivity|].
    destruct (Z.eqb_spec (log_interval a) 0) as [|Hl]; [reflexivity|].
    rewrite Hmod, Hbs. simpl. unfold py_div.
    destruct (Z.eqb_spec (log_interval a) 0); [contradiction|]. reflexivity. }
  split; [exact Ha|].
  simpl. unfold mbind, M_bind, bind_M. rewrite Hb. unfold lift. rewrite Ha.
  reflexivity.
Qed.

(** X8. When the set-up of [train] completes, the model class, the
    optimizer and the mixing function were all found by name (the mixing
    function also when [mixp] is zero); the model was built with the number
    of classes of the task, [feature_extract] and [pretrained]; in a
    multi-label run [loss_func] is the cross-entropy criterion and
    [criterion] is unbound, otherwise [criterion] is the criterion named by
    the arguments and [loss_func] is unbound; and the set-up has built the
    dataset and the model, opened the logger and written [config.json], in
    this order. *)
Theorem setup_bindings (fs : filesystem) (kk : Z) (data_dir model_dir : string)
    (a : args) (s s1 : store) (lc : locals) :
  setup fs kk data_dir model_dir a s = (Ok lc, s1) ->
  (exists cls w,
     model_module (model a) = Some cls /\
     cls (num_classes_of a) (feature_extract a) (pretrained a) = Ok w /\
     model_var s1 = Some w) /\
  opt_module (optimizer a) = true /\
  mix_module (data_mix a) = Some (data_mix_var lc) /\
  (if is_multi a
   then criterion_var lc = None /\
        exists c, create_criterion "cross_entropy" = Ok c /\
                  loss_func_var lc = Some c
   else loss_func_var lc = None /\
        exists c, create_criterion (criterion a) = Ok c /\
                  criterion_var lc = Some c) /\
  loss_var s1 = loss_var s /\
  trace s1
  = trace s ++
    [EDataset (dataset a) data_dir (kfold a) (Train.k a) (data_selection a);
     EBuildModel (model a) (num_classes_of a) (feature_extract a) (pretrained a);
     EWriter (save_dir lc);
     EOpen (os_path_join (save_dir lc) ["config.json"])].
Proof.
  intros H. unfold setup in H.
  run_inv; try discriminate.
  all: repeat match goal with
              | Hl : read_attr _ = Ok _ |- _ => apply read_attr_inv in Hl
              end.
  all: simpl; rewrite <- !app_assoc; simpl.
  all: repeat split; eauto.
Qed.

Lemma zip_enumerate (n : nat) :
  forall a, zip (seq a (length (seq a n))) (seq a n)
            = (fun i => (i, i)) <$> seq a n.
Proof.
  intros a. rewrite length_seq. revert a.
  induction n as [|n IH]; intros a; [reflexivity|].
  simpl. f_equal. apply IH.
Qed.

(** X9. Without shuffling, [grid_image] returns its figure only if
    [plt.subplot] accepted the grid size [np.ceil(n ** 0.5)] at each of the
    [n] positions; the figure then has [n] panels, and panel [i] shows image
    [i] with the decoded ground truth and prediction of index [i], task by
    task.  Where [plt.subplot] accepts the grid size at these positions, the
    call succeeds exactly when the images, the ground truths and the
    predictions all have at least [n] entries.  Where [plt.subplot] refuses
    the grid size at the first position, the call raises for every [n] above
    zero, whatever the images and labels. *)
Theorem grid_image_in_order (np_images : list image) (gts preds : ints)
    (n : nat) :
  ((forall idx, (idx < n)%nat -> plt_subplot n (idx + 1) = Ok tt) ->
   (is_ok (grid_image np_images (VTensor gts) (VTensor preds) n false) = true
    <-> (n <= length np_images)%nat /\ (n <= length gts)%nat /\
        (n <= length preds)%nat)) /\
  (forall panels,
    grid_image np_images (VTensor gts) (VTensor preds) n false = Ok panels ->
    length panels = n /\
    (forall idx, (idx < n)%nat -> plt_subplot n (idx + 1) = Ok tt) /\
    forall i pn, panels !! i = Some pn ->
      exists im gt pred,
        np_images !! i = Some im /\ gts !! i = Some gt /\
        preds !! i = Some pred /\
        pn = (im, zip3 tasks (decode_multi_class gt)
                        (decode_multi_class pred))) /\
  (forall e (gts' preds' : pyval ints),
    (0 < n)%nat -> plt_subplot n 1 = Err e ->
    is_ok (grid_image np_images gts' preds' n false) = false).
Proof.
  assert (Hinv : forall panels,
    grid_image np_images (VTensor gts) (VTensor preds) n false = Ok panels ->
    (n <= length np_images)%nat /\
    Forall2 (fun choice pn =>
      plt_subplot n (choice + 1) = Ok tt /\
      exists im gt pred,
        np_images !! choice = Some im /\ gts !! choice = Some gt /\
        preds !! choice = Some pred /\
        pn = (im, zip3 tasks (decode_multi_class gt) (decode_multi_class pred)))
      (seq 0 n) panels).
  { intros panels H. unfold grid_image in H.
    destruct (Nat.leb_spec n (length np_images)) as [Hle|]; [|discriminate].
    split; [exact Hle|]. cbv beta iota zeta delta [negb] in H.
    rewrite zip_enumerate in H.
    apply PathsProps.mapM_ok in H. apply Forall2_fmap_l in H.
    eapply Forall2_impl; [exact H|]. intros choice pn Hp. simpl in Hp.
    unfold mbind, result_bind, rbind in Hp.
    destruct (gts !! choice) as [gt|]; [|discriminate].
    destruct (preds !! choice) as [pred|]; [|discriminate].
    destruct (np_images !! choice) as [im|]; [|discriminate].
    destruct (plt_subplot n (choice + 1)) as [[]|]; [|discriminate].
    inversion Hp. split; [reflexivity|]. eauto 8. }
  split; [|split].
  - intros Hplt. split.
    + intros Hok.
      destruct (grid_image np_images (VTensor gts) (VTensor preds) n false)
        as [panels|e] eqn:Hg; [|discriminate].
      destruct (Hinv panels eq_refl) as [Hle HF]. split; [exact Hle|].
      destruct n as [|n]; [split; lia|].
      assert (Hlast : seq 0 (S n) !! n = Some n).
      { apply lookup_seq. lia. }
      destruct (Forall2_lookup_l _ _ _ _ _ HF Hlast)
        as (pn & _ & _ & im & gt & pred & _ & Hgt & Hpr & _).
      apply lookup_lt_Some in Hgt, Hpr. lia.
    + intros (Hi & Hg & Hp). unfold grid_image.
      destruct (Nat.leb_spec n (length np_images)) as [_|]; [|lia].
      cbv beta iota zeta delta [negb]. rewrite zip_enumerate.
      assert (Hall : exists panels,
        Forall2 (fun choice pn =>
          (gt ← item_at (VTensor gts) choice;
           pred ← item_at (VTensor preds) choice;
           image ← match np_images !! choice with
                   | Some i => Ok i
                   | None => Err IndexError
                   end;
           _ ← plt_subplot n (choice + 1);
           Ok (image, zip3 tasks (decode_multi_class gt)
                                 (decode_multi_class pred))) = Ok pn)
          (seq 0 n) panels).
      { assert (Hb : Forall (fun c => (c < n)%nat) (seq 0 n)).
        { apply Forall_forall. intros c Hc. apply elem_of_seq in Hc. lia. }
        revert Hb. generalize (seq 0 n). intros l.
        induction l as [|c l IH]; intros Hb; [exists []; constructor|].
        inversion Hb as [|c' l' Hc Hl]; subst.
        destruct (IH Hl) as [panels IHp].
        destruct (lookup_lt_is_Some_2 gts c ltac:(lia)) as [gt Hgt].
        destruct (lookup_lt_is_Some_2 preds c ltac:(lia)) as [pred Hpr].
        destruct (lookup_lt_is_Some_2 np_images c ltac:(lia)) as [im Him].
        eexists (_ :: panels). constructor; [|exact IHp].
        unfold item_at, ints. rewrite Hgt, Hpr, Him, (Hplt c Hc).
        reflexivity. }
      destruct Hall as [panels Hall].
      match goal with
      | |- is_ok ?m = true =>
          assert (Hm : m = Ok panels)
            by (apply PathsProps.mapM_ok, Forall2_fmap_l; exact Hall);
          rewrite Hm; reflexivity
      end.
  - intros panels H. destruct (Hinv panels H) as [_ HF]. split; [|split].
    + apply Forall2_length in HF. rewrite length_seq in HF. auto.
    + intros idx Hidx.
      assert (Hl : seq 0 n !! idx = Some idx) by (apply lookup_seq; lia).
      destruct (Forall2_lookup_l _ _ _ _ _ HF Hl) as (pn & _ & Hplt & _).
      exact Hplt.
    + intros i pn Hpn.
      destruct (Forall2_lookup_r _ _ _ _ _ HF Hpn) as (c & Hc & _ & Hrest).
      apply lookup_seq in Hc as [-> _]. exact Hrest.
  - intros e gts' preds' Hn He. unfold grid_image.
    destruct (negb _); [reflexivity|].
    cbv beta iota zeta. rewrite zip_enumerate.
    destruct n as [|n]; [lia|].
    change (seq 0 (S n)) with (0%nat :: seq 1 n). rewrite fmap_cons.
    match goal with
    | |- is_ok (mapM ?f (?x :: ?l)) = false =>
        change (mapM f (x :: l)) with (y ← f x; k ← mapM f l; mret (y :: k))
    end.
    cbv beta iota. change (0 + 1)%nat with 1%nat. rewrite He.
    destruct (item_at gts' 0) as [gt|]; [|reflexivity].
    destruct (item_at preds' 0) as [pred|]; [|reflexivity].
    destruct (np_images !! 0%nat) as [im|]; reflexivity.
Qed.

End CompletedSteps.

Lemma single_task_epoch_raises_witness :
  let a := demo_args "cross_entropy" "gender" (Fin 0) in
  let lc := demo_locals false a [demo_train_batch] [] in
  exists e, fst (run_epochs a lc [0%nat] initial_best (demo_store false)) = Err e.
Proof.
  intros a lc.
  exact (proj1 (single_task_epoch_raises (FW := demo_framework false)
                  a lc 0 [] initial_best (demo_store false) eq_refl
                  ltac:(discriminate))).
Defined.

Lemma single_task_validation_raises_witness :
  let a := demo_args "cross_entropy" "mask" (Fin 0) in
  let lc := demo_locals false a [] [demo_val_batch] in
  exists e, fst (validate a lc 0 initial_best (demo_store false)) = Err e.
Proof.
  intros a lc.
  refine (proj1 (single_task_validation_raises (FW := demo_framework false)
                   a lc 0 initial_best (demo_store false) eq_refl _ _)).
  - intros w inputs o H. inversion H. apply length_fmap.
  - intros inputs labels l Hin Hsel. apply list_elem_of_singleton in Hin.
    inversion Hin; subst. vm_compute in Hsel. inversion Hsel. reflexivity.
Defined.

Lemma completed_step_witness :
  let a := demo_args "multi_label" "multi_label" (Fin 0) in
  is_multi a = true /\ feq (mixp a) (of_int 0) = true.
Proof.
  intros a.
  destruct (completed_step (FL := exact_float) (FW := demo_framework true)
              a (demo_locals true a [] []) 0 0
              (fst demo_train_batch) (snd demo_train_batch) (demo_store true)
              (@Store exact_float (demo_framework true) (Some 1%nat)
                 (Some (Fin (13 # 10)))
                 [EZeroGrad; EForward (FW := demo_framework true) true [0; 1];
                  EBackward (FL := exact_float) (FW := demo_framework true) (Fin (13 # 10));
                  EOptStep])
              (Fin (13 # 10)) 0 (fun _ => eq_refl) ltac:(vm_refl))
    as (H1 & H2 & _).
  split; assumption.
Defined.

Lemma logging_divides_by_zero_witness :
  let a := @Args exact_float 42 1 "MaskBaseDataset" "BaseAugmentation" 2 16
                 "Resnet18" "Adam" "multi_label" 0 "exp" true false
                 "multi_label" "mixup" (Fin 0) 5 0 "1_0_0" in
  train_loop a (demo_locals true a [] []) 0 1 0 [demo_train_batch]
             (Meters (of_int 0) 0) (demo_store true)
  = (Err ZeroDivisionError,
     @Store exact_float (demo_framework true) (Some 1%nat)
        (Some (Fin (13 # 10)))
        [EZeroGrad; EForward (FW := demo_framework true) true [0; 1];
         EBackward (FL := exact_float) (FW := demo_framework true) (Fin (13 # 10));
                  EOptStep]).
Proof.
  intros a.
  exact (proj2 (logging_divides_by_zero (FL := exact_float) (FW := demo_framework true)
                  a (demo_locals true a [] []) 0 1 0 demo_train_batch []
                  (Meters (of_int 0) 0) (demo_store true)
                  (@Store exact_float (demo_framework true) (Some 1%nat)
                     (Some (Fin (13 # 10)))
                     [EZeroGrad;
                      EForward (FW := demo_framework true) true [0; 1];
                      EBackward (FL := exact_float) (FW := demo_framework true)
                                (Fin (13 # 10));
                      EOptStep])
                  (Fin (13 # 10)) 0
                  (or_introl eq_refl) ltac:(vm_refl))).
Defined.

Lemma setup_bindings_witness :
  let a := demo_args "multi_label" "multi_label" (Fin 0) in
  exists lc s1,
    setup (PL := literal_patterns) [] 0 "data" "./model" a
          (@initial_store exact_float (demo_framework true)) = (Ok lc, s1) /\
    criterion_var lc = None /\
    trace s1 = [EDataset "MaskBaseDataset" "data" 5 0 "1_0_0";
                EBuildModel "Resnet18" 18 false true;
                EWriter (save_dir lc);
                EOpen (os_path_join (save_dir lc) ["config.json"])].
Proof.
  intros a.
  assert (Hok : is_ok (fst (setup (PL := literal_patterns) [] 0 "data" "./model" a
                  (@initial_store exact_float (demo_framework true)))) = true)
    by vm_refl.
  destruct (setup (PL := literal_patterns) [] 0 "data" "./model" a
              (@initial_store exact_float (demo_framework true)))
    as [[lc|e] s1] eqn:Hs; [|discriminate Hok].
  exists lc, s1. split; [reflexivity|].
  destruct (setup_bindings (FW := demo_framework true)
              (PL := literal_patterns) _ _ _ _ _ _ _ _ Hs)
    as (_ & _ & _ & Hcrit & _ & Htr).
  split; [exact (proj1 Hcrit)|exact Htr].
Defined.

Lemma grid_image_in_order_witness :
  is_ok (grid_image (FL := exact_float) (FW := demo_framework false)
           [10; 20; 30] (VTensor [0; 7; 12]) (VTensor [1; 7; 13]) 2 false)
  = true.
Proof.
  apply (proj1 (grid_image_in_order (FL := exact_float)
                  (FW := demo_framework false)
                  [10; 20; 30] [0; 7; 12] [1; 7; 13] 2)).
  - intros idx _. reflexivity.
  - simpl. lia.
Defined.

End RunProps.

(** ** Wrappers, shapes and constructors *)

Module WrapperLaws.
Import Model ModelProps Unfreeze.

Lemma freeze_layer_idem (l : layer) : freeze_layer (freeze_layer l) = freeze_layer l.
Proof.
  unfold freeze_layer. simpl. f_equal. rewrite <- list_fmap_compose.
  apply list_fmap_ext. intros i [pn p] _. reflexivity.
Qed.

Lemma unfreeze_freeze_layer (l : layer) :
  unfreeze_layer (freeze_layer l) = unfreeze_layer l.
Proof.
  unfold unfreeze_layer, freeze_layer. simpl. f_equal.
  rewrite <- list_fmap_compose.
  apply list_fmap_ext. intros i [pn p] _. reflexivity.
Qed.

(** X13. [set_parameter_requires_grad] composes like a disjunction of its
    flags: freezing twice is freezing once, and a call with the flag off
    changes nothing. *)
Theorem set_parameter_requires_grad_compose (m : net) (fe1 fe2 : bool) :
  set_parameter_requires_grad (set_parameter_requires_grad m fe1) fe2
  = set_parameter_requires_grad m (fe1 || fe2).
Proof.
  destruct fe1, fe2; simpl; try reflexivity.
  f_equal. rewrite <- map_fmap_compose.
  apply map_fmap_ext. intros i l _. apply freeze_layer_idem.
Qed.


Lemma unfreeze_layer_grad (l : layer) (pn : string) (p : parameter) :
  (pn, p) ∈ lparams (unfreeze_layer l) -> requires_grad p = true.
Proof.
  simpl. intros H. apply list_elem_of_fmap in H as [[qn q] [E _]].
  inversion E; subst. reflexivity.
Qed.

(** The two networks built by a wrapper with and without feature
    extraction: the same new head over the frozen and over the loaded
    layers. *)
Lemma construct_both models a nc up w1 w2 :
  construct models a nc true up = Ok w1 ->
  construct models a nc false up = Ok w2 ->
  exists head,
    layers (model_ft w1)
    = <[head_name a := head]> (freeze_layer <$> layers (models a up)) /\
    layers (model_ft w2) = <[head_name a := head]> (layers (models a up)) /\
    attr_num_classes (model_ft w1) = attr_num_classes (model_ft w2).
Proof.
  intros H1 H2.
  destruct a; simpl in H1, H2;
    unfold Resnet18, Resnet50, Alexnet, VGG11bn, Squeezenet, Densenet121,
           get_module, get_item, in_features_of in H1, H2; simpl in H1, H2;
    rewrite lookup_fmap in H1;
    match type of H2 with
    | context [layers ?m !! ?key] =>
        destruct (layers m !! key) as [old|] eqn:Hold; simpl in H1, H2;
          [|discriminate]
    end.
  1-4,6: destruct (kind old) eqn:Hk; simpl in H1, H2; try discriminate;
    inversion H1; inversion H2; subst; simpl; eexists; repeat split.
  inversion H1; inversion H2; subst; simpl; eexists; repeat split.
Qed.

(** X14. The loop of epoch 2 that sets [requires_grad] on every parameter
    undoes feature extraction: the networks that a wrapper builds with and
    without [feature_extract] become the same network, with every parameter
    trainable. *)
Theorem unfreeze_forgets_feature_extract
    (models : arch -> bool -> net) (a : arch) (nc : nat) (up : bool)
    (w1 w2 : wrapper) :
  construct models a nc true up = Ok w1 ->
  construct models a nc false up = Ok w2 ->
  unfreeze_net (model_ft w1) = unfreeze_net (model_ft w2) /\
  (forall lname pname p,
     has_param (unfreeze_net (model_ft w1)) lname pname p ->
     requires_grad p = true) /\
  (forall m fe, unfreeze_net (set_parameter_requires_grad m fe) = unfreeze_net m).
Proof.
  intros H1 H2.
  destruct (construct_both _ _ _ _ _ _ H1 H2) as (head & L1 & L2 & Hattr).
  split; [|split].
  - unfold unfreeze_net. rewrite Hattr, L1, L2. f_equal.
    rewrite !fmap_insert. f_equal.
    rewrite <- map_fmap_compose. apply map_fmap_ext.
    intros i l _. apply unfreeze_freeze_layer.
  - intros lname pname p (l & Hl & Hin). simpl in Hl.
    rewrite lookup_fmap in Hl.
    destruct (layers (model_ft w1) !! lname) as [l0|]; simpl in Hl;
      [|discriminate].
    inversion Hl; subst. eapply unfreeze_layer_grad; eauto.
  - intros m [|]; [|reflexivity]. unfold unfreeze_net. simpl. f_equal.
    rewrite <- map_fmap_compose. apply map_fmap_ext.
    intros i l _. apply unfreeze_freeze_layer.
Qed.

Lemma unfreeze_forgets_feature_extract_witness :
  exists w1 w2,
    construct demo_zoo resnet18 3 true true = Ok w1 /\
    construct demo_zoo resnet18 3 false true = Ok w2 /\
    unfreeze_net (model_ft w1) = unfreeze_net (model_ft w2).
Proof.
  do 2 eexists. split; [reflexivity|]. split; [reflexivity|].
  exact (proj1 (unfreeze_forgets_feature_extract demo_zoo resnet18 3 true
                  _ _ eq_refl eq_refl)).
Defined.

(** X15. A wrapper constructor succeeds exactly when the backbone has the
    classifier layer that the class replaces (a linear one, except for
    Squeezenet, which assigns a convolution without reading the old layer),
    whatever [num_classes] and [feature_extract] are.  The wrapper records
    its three arguments and an input size of 224; only Squeezenet also
    overwrites the backbone's own [num_classes]. *)
Theorem construct_outcome
    (models : arch -> bool -> net) (a : arch) (nc : nat) (fe up : bool) :
  (is_ok (construct models a nc fe up) = true <->
   exists old,
     layers (models a up) !! head_name a = Some old /\
     (a <> squeezenet1_0 -> exists i o, kind old = Linear i o)) /\
  forall w, construct models a nc fe up = Ok w ->
    num_classes w = nc /\ feature_extract w = fe /\ use_pretrained w = up /\
    input_size w = 224%nat /\
    attr_num_classes (model_ft w)
    = match a with
      | squeezenet1_0 => nc
      | _ => attr_num_classes (models a up)
      end.
Proof.
  assert (Hlk : forall key,
            layers (set_parameter_requires_grad (models a up) fe) !! key
            = (if fe then freeze_layer else id) <$> layers (models a up) !! key).
  { intros key. destruct fe; simpl; [apply lookup_fmap|].
    destruct (layers (models a up) !! key); reflexivity. }
  split.
  - destruct a; simpl;
      unfold Resnet18, Resnet50, Alexnet, VGG11bn, Squeezenet, Densenet121,
             get_module, get_item, in_features_of; cbv zeta; rewrite Hlk;
      match goal with
      | |- context [layers ?m !! ?key] =>
          destruct (layers m !! key) as [old|] eqn:Hold; simpl
      end.
    all: try (split; [discriminate|intros (old' & Ho & _); discriminate Ho]).
    1-4,6: assert (Hkind : kind ((if fe then freeze_layer else id) old) = kind old)
      by (destruct fe; reflexivity); rewrite Hkind;
      destruct (kind old) eqn:Hk; simpl;
      (split;
       [ first [ discriminate
               | intros _; exists old; split; [reflexivity|intros _; eauto] ]
       | first [ reflexivity
               | intros (old' & Ho & Hlin); inversion Ho; subst old';
                 destruct (Hlin ltac:(discriminate)) as (i & o & Hio);
                 congruence ] ]).
    split; [intros _; exists old; split; [reflexivity|congruence]|reflexivity].
  - intros w H.
    destruct a; simpl in H;
      unfold Resnet18, Resnet50, Alexnet, VGG11bn, Squeezenet, Densenet121,
             get_module, get_item, in_features_of in H; cbv zeta in H; rewrite Hlk in H;
      match type of H with
      | context [layers ?m !! ?key] =>
          destruct (layers m !! key) as [old|] eqn:Hold; simpl in H;
            [|discriminate]
      end.
    1-4,6: destruct (kind _) eqn:Hk; simpl in H; try discriminate;
      inversion H; subst; simpl; repeat split; destruct fe; reflexivity.
    inversion H; subst; simpl; repeat split.
Qed.

Lemma construct_outcome_witness :
  exists w, construct demo_zoo squeezenet1_0 18 false true = Ok w /\
            attr_num_classes (model_ft w) = 18%nat /\ input_size w = 224%nat.
Proof.
  eexists. split; [reflexivity|].
  destruct (proj2 (construct_outcome demo_zoo squeezenet1_0 18 false true)
              _ eq_refl) as (_ & _ & _ & Hs & Ha).
  split; [exact Ha|exact Hs].
Defined.

End WrapperLaws.

Module ShapeProps.
Import Shapes.

Lemma conv2d_spec (cin cout k n c h w : nat) :
  conv2d cin cout k (n, c, h, w)
  = if ((c =? cin)%nat && (k <=? h)%nat && (k <=? w)%nat)%bool
    then Ok (n, cout, h - k + 1, w - k + 1)%nat
    else Err RuntimeError.
Proof.
  unfold conv2d.
  destruct (Nat.eqb_spec c cin), (Nat.ltb_spec h k), (Nat.ltb_spec w k),
    (Nat.leb_spec k h), (Nat.leb_spec k w); simpl; try reflexivity; lia.
Qed.

Lemma half_step (d : nat) : (2 <= d)%nat -> ((d - 2) / 2 + 1 = d / 2)%nat.
Proof.
  intros H. replace d with ((d - 2) + 1 * 2)%nat at 2 by lia.
  rewrite Nat.div_add by lia. reflexivity.
Qed.

Lemma max_pool2d_spec (n c h w : nat) :
  max_pool2d 2 (n, c, h, w)
  = if ((2 <=? h)%nat && (2 <=? w)%nat)%bool
    then Ok (n, c, h / 2, w / 2)%nat
    else Err RuntimeError.
Proof.
  unfold max_pool2d. cbv beta zeta.
  destruct (Nat.ltb_spec h 2), (Nat.ltb_spec w 2),
    (Nat.leb_spec 2 h), (Nat.leb_spec 2 w); try lia;
    cbn [andb Nat.eqb orb];
    rewrite ?orb_true_r; try reflexivity.
  rewrite !half_step by lia.
  assert (1 <= h / 2)%nat by (apply Nat.div_le_lower_bound; lia).
  assert (1 <= w / 2)%nat by (apply Nat.div_le_lower_bound; lia).
  destruct (Nat.eqb_spec (h / 2) 0), (Nat.eqb_spec (w / 2) 0); try lia.
  reflexivity.
Qed.

Lemma view_rows_spec (n : nat) :
  view_rows 128 (n, 128, 1, 1)%nat = Ok (n, 128%nat).
Proof.
  unfold view_rows. replace (n * 128 * 1 * 1)%nat with (n * 128)%nat by lia.
  rewrite Nat.Div0.mod_mul, Nat.div_mul by lia. reflexivity.
Qed.

(** X16. [BaseModel.forward] maps a batch of [N] three-channel images of
    at least 16 by 16 pixels to [N] rows of [num_classes] scores, an empty
    batch included, and raises on any other number of channels and on
    smaller images. *)
Theorem BaseModel_forward_shape (num_classes n c h w : nat) :
  BaseModel_forward num_classes (n, c, h, w)
  = if ((c =? 3)%nat && (16 <=? h)%nat && (16 <=? w)%nat)%bool
    then Ok (n, num_classes)
    else Err RuntimeError.
Proof.
  pose proof (Nat.div_mod_eq (h - 7 + 1 - 3 + 1) 2) as Hh1.
  pose proof (Nat.mod_upper_bound (h - 7 + 1 - 3 + 1) 2 ltac:(lia)) as Hh2.
  pose proof (Nat.div_mod_eq (w - 7 + 1 - 3 + 1) 2) as Hw1.
  pose proof (Nat.mod_upper_bound (w - 7 + 1 - 3 + 1) 2 ltac:(lia)) as Hw2.
  unfold BaseModel_forward. rewrite conv2d_spec.
  destruct (Nat.eqb_spec c 3), (Nat.leb_spec 16 h),
    (Nat.leb_spec 16 w), (Nat.leb_spec 7 h), (Nat.leb_spec 7 w);
    try lia; cbn [andb mbind result_bind rbind]; try reflexivity.
  all: rewrite conv2d_spec; cbn [Nat.eqb andb];
    destruct (Nat.leb_spec 3 (h - 7 + 1)), (Nat.leb_spec 3 (w - 7 + 1));
    try lia; cbn [andb mbind result_bind rbind]; try reflexivity.
  all: rewrite max_pool2d_spec;
    destruct (Nat.leb_spec 2 (h - 7 + 1 - 3 + 1)),
      (Nat.leb_spec 2 (w - 7 + 1 - 3 + 1));
    try lia; cbn [andb mbind result_bind rbind]; try reflexivity.
  all: rewrite conv2d_spec; cbn [Nat.eqb andb];
    destruct (Nat.leb_spec 3 ((h - 7 + 1 - 3 + 1) / 2)),
      (Nat.leb_spec 3 ((w - 7 + 1 - 3 + 1) / 2));
    try lia; cbn [andb mbind result_bind rbind]; try reflexivity.
  all: rewrite max_pool2d_spec;
    destruct (Nat.leb_spec 2 ((h - 7 + 1 - 3 + 1) / 2 - 3 + 1)),
      (Nat.leb_spec 2 ((w - 7 + 1 - 3 + 1) / 2 - 3 + 1));
    try lia; cbn [andb mbind result_bind rbind]; try reflexivity.
  all: unfold adaptive_avg_pool2d; rewrite view_rows_spec; reflexivity.
Qed.

End ShapeProps.

Module ClassProps.
Import Classes.

(** X17. The keyword call by which [train] builds its model binds for
    [BaseModel], which takes any keyword, and for the six wrappers, and
    raises [TypeError] for [PytorchModel] and [MyModel], whose constructors
    take no [feature_extract] and no [use_pretrained]. *)
Theorem train_call_binds (class_name : string) (sg : signature) :
  init_signature class_name = Some sg ->
  bind_keywords sg train_keywords
  = if (String.eqb class_name "PytorchModel" || String.eqb class_name "MyModel")%bool
    then Err TypeError else Ok tt.
Proof.
  unfold init_signature. intros H.
  repeat match type of H with
         | context [if ?c then _ else _] => destruct c eqn:?
         end; try discriminate; inversion H; subst;
    repeat match goal with
           | Hx : String.eqb _ _ = true |- _ => apply String.eqb_eq in Hx; subst
           | Hx : (_ || _)%bool = true |- _ => apply orb_true_iff in Hx as [Hx|Hx]
           end; reflexivity.
Qed.

Lemma train_call_binds_witness :
  bind_keywords (Signature [("num_classes", false)] false) train_keywords
  = Err TypeError.
Proof. exact (train_call_binds "MyModel" _ eq_refl). Defined.

End ClassProps.
